(** * wordposty: the rate limiter, the response parsers, the analyze route
      and the two-stage workflow, as a shallow embedding.

    Sources embedded here:
    - [src/lib/rate-limiter.ts]       (RateLimiter, withRateLimit)
    - [src/lib/claude.ts]             (ClaudeService.parseBlogResponse)
    - [src/unnamed/part_002]          (PerplexityService.parseAnalysisResponse)
    - [src/lib/error-handler.ts]      (handleAPIError, createErrorResponse)
    - [src/app/api/analyze/route.ts]  (POST)
    - [src/components/ai-editor.tsx]  (the analyse / generate / export handlers)
    - [src/unnamed/part_011]          (WorkflowStatus)
    - [src/unnamed/part_003]          (useWordPressStore)

    Conventions.  A JavaScript string is the list of its UTF-16 code units.
    [Date.now()] is an explicit argument of every function that reads the
    clock, one argument per reading.  Millisecond timestamps and the limits
    of the configuration table are integers ([Z]).  A function that can throw
    returns an [Outcome]. *)

From Stdlib Require Import ZArith String Ascii DecimalString QArith_base Sorted.
From stdpp Require Import gmap list fin_maps sorting.

Local Open Scope Z_scope.
Set Warnings "-register-all".

(* ===================================================================== *)
(** * Part I.  Definitions                                                 *)
(* ===================================================================== *)

(** ** JavaScript strings *)

(** A string is its sequence of UTF-16 code units. *)
Definition jsstring : Type := list N.

(** The code units of an ASCII literal of the source text. *)
Definition lit (s : string) : jsstring :=
  map N_of_ascii (list_ascii_of_string s).

(** [String(n)] for an integer [n]: plain decimal digits, with a leading
    minus sign below zero (the form JavaScript prints for every integer of
    magnitude below 1e21). *)
Definition show_Z (z : Z) : jsstring :=
  lit (NilZero.string_of_int (Z.to_int z)).

Definition colon : N := 58%N.

(** [key.split(':')[0]]: the code units before the first colon, the whole
    string when it has none. *)
Fixpoint split_colon_head (s : jsstring) : jsstring :=
  match s with
  | [] => []
  | c :: rest => if decide (c = colon) then [] else c :: split_colon_head rest
  end.

(** ** Exceptions *)

(** The error values that reach a [catch] of the embedded code, by what
    [handleAPIError] can tell apart: a plain [Error], a runtime [TypeError],
    an [APIError] (or subclass) with its status code and service, an error
    carrying an HTTP [response] (status, [response.data.message] and the
    parsed [retry-after] header when present), and an error carrying only a
    [request]. *)
Record APIErr : Type := mkAPIErr {
  api_message : jsstring;
  api_statusCode : Z;
  api_service : jsstring
}.

Inductive JSError : Type :=
| PlainError (message : jsstring)
| TypeError (message : jsstring)
| APIError (e : APIErr)
| ResponseError (message : jsstring) (status : Z)
    (dataMessage : option jsstring) (retryAfter : option Z)
| RequestError (message : jsstring).

Definition error_message (e : JSError) : jsstring :=
  match e with
  | PlainError m | TypeError m | ResponseError m _ _ _ | RequestError m => m
  | APIError e => api_message e
  end.

Inductive Outcome (A : Type) : Type :=
| Returned (a : A)
| Threw (e : JSError).
Arguments Returned {A} a.
Arguments Threw {A} e.

(** Sequencing: the first exception ends the computation. *)
#[global] Instance Outcome_ret : MRet Outcome := λ A a, Returned a.
#[global] Instance Outcome_bind : MBind Outcome := λ A B f m,
  match m with
  | Returned a => f a
  | Threw e => Threw e
  end.

(** ** src/lib/rate-limiter.ts *)

Record RateLimitConfig : Type := mkConfig {
  maxRequests : Z;
  windowMs : Z;
  service : jsstring
}.

Record RequestRecord : Type := mkRecord {
  timestamp : Z;
  count : Z
}.

#[global] Instance RequestRecord_eq_dec : EqDecision RequestRecord.
Proof. solve_decision. Defined.

(** The two private maps of the class. *)
Record RateLimiter : Type := mkLimiter {
  requests : gmap jsstring (list RequestRecord);
  configs : gmap jsstring RateLimitConfig
}.

(** [new RateLimiter()]: no request recorded, three configurations. *)
Definition new_RateLimiter : RateLimiter :=
  {| requests := ∅;
     configs :=
       <[lit "default" := mkConfig 100 (60 * 1000) (lit "default")]>
       (<[lit "claude" := mkConfig 50 (60 * 1000) (lit "claude")]>
       (<[lit "perplexity" := mkConfig 20 (60 * 1000) (lit "perplexity")]> ∅)) |}.

(** [this.configs.get(service) || this.configs.get('default')!]: [None]
    stands for [undefined], which the first property read of the result
    turns into a [TypeError]. *)
Definition getConfig (rl : RateLimiter) (svc : jsstring) : option RateLimitConfig :=
  match configs rl !! svc with
  | Some c => Some c
  | None => configs rl !! lit "default"
  end.

(** [`${service}:${identifier}`] *)
Definition make_key (svc identifier : jsstring) : jsstring :=
  svc ++ colon :: identifier.

(** [this.requests.get(key) || []] *)
Definition window (rl : RateLimiter) (key : jsstring) : list RequestRecord :=
  default [] (requests rl !! key).

(** [requests.filter(req => now - req.timestamp < config.windowMs)] *)
Definition prune (now : Z) (config : RateLimitConfig)
    (reqs : list RequestRecord) : list RequestRecord :=
  filter (λ req, now - timestamp req < windowMs config) reqs.

Definition undefined_read (prop : string) : JSError :=
  TypeError (lit "Cannot read properties of undefined (reading '" ++ lit prop ++ lit "')").

(** [checkLimit(service, identifier)] with [now] the value of [Date.now()].
    A missing configuration throws at the first read of [config]: inside the
    filter callback when the window has an entry, at [config.maxRequests]
    otherwise; nothing is stored before either. *)
Definition checkLimit (svc identifier : jsstring) (now : Z) (rl : RateLimiter)
    : Outcome bool * RateLimiter :=
  let key := make_key svc identifier in
  match getConfig rl svc with
  | None =>
      (Threw (undefined_read
                match window rl key with [] => "maxRequests" | _ => "windowMs" end), rl)
  | Some config =>
      let reqs := prune now config (window rl key) in
      if decide (maxRequests config ≤ Z.of_nat (length reqs)) then
        (Returned false,
         {| requests := <[key := reqs]> (requests rl); configs := configs rl |})
      else
        (Returned true,
         {| requests := <[key := reqs ++ [mkRecord now 1]]> (requests rl);
            configs := configs rl |})
  end.

(** [getRemainingRequests(service, identifier)] *)
Definition getRemainingRequests (svc identifier : jsstring) (now : Z)
    (rl : RateLimiter) : Outcome Z :=
  match getConfig rl svc with
  | None =>
      Threw (undefined_read
               match window rl (make_key svc identifier) with
               | [] => "maxRequests" | _ => "windowMs" end)
  | Some config =>
      let valid := prune now config (window rl (make_key svc identifier)) in
      Returned (Z.max 0 (maxRequests config - Z.of_nat (length valid)))
  end.

(** [getResetTime(service, identifier)]: [None] is [null].  The method takes
    no clock reading and returns the limiter as it received it. *)
Definition getResetTime (svc identifier : jsstring) (rl : RateLimiter)
    : Outcome (option Z) * RateLimiter :=
  match window rl (make_key svc identifier) with
  | [] => (Returned None, rl)
  | oldestRequest :: _ =>
      match getConfig rl svc with
      | None => (Threw (undefined_read "windowMs"), rl)
      | Some config => (Returned (Some (timestamp oldestRequest + windowMs config)), rl)
      end
  end.

(** One iteration of the loop of [cleanup]: what becomes of [key]'s entry
    ([None]: deleted).  With no configuration the filter callback throws on
    the first record; it is never called on an empty list. *)
Definition cleanup_valid (rl : RateLimiter) (now : Z) (key : jsstring)
    (reqs : list RequestRecord) : list RequestRecord :=
  match getConfig rl (split_colon_head key) with
  | Some config => prune now config reqs
  | None => []
  end.

Definition cleanup_entry (rl : RateLimiter) (now : Z) (key : jsstring)
    (reqs : list RequestRecord) : option (list RequestRecord) :=
  match cleanup_valid rl now key reqs with
  | [] => None
  | validRequests => Some validRequests
  end.

Definition cleanup_entry_throws (rl : RateLimiter) (key : jsstring)
    (reqs : list RequestRecord) : Prop :=
  reqs ≠ [] ∧ getConfig rl (split_colon_head key) = None.

#[global] Instance cleanup_entry_throws_dec rl key reqs :
  Decision (cleanup_entry_throws rl key reqs).
Proof. unfold cleanup_entry_throws. apply _. Defined.

(** [cleanup()] with [now] the value of [Date.now()].  The loop visits every
    entry of the table once; setting or deleting the entry being visited does
    not disturb the iteration.  When an entry makes the callback throw, the
    exception leaves the method part-way through the table: the model then
    reports the exception and no state. *)
Definition cleanup (now : Z) (rl : RateLimiter) : Outcome RateLimiter :=
  if decide (map_Forall (λ key reqs, ¬ cleanup_entry_throws rl key reqs) (requests rl))
  then Returned {| requests := map_imap (cleanup_entry rl now) (requests rl);
                   configs := configs rl |}
  else Threw (undefined_read "windowMs").

(** [Math.ceil(a / b)] for integers [a] and [b > 0]. *)
Definition ceil_div (a b : Z) : Z := - ((- a) / b).

(** [withRateLimit(service, identifier, operation)].  [Env] is whatever the
    wrapped operation acts on (the network, the external services); the
    operations passed by the routes never touch the limiter.  [now_check] is
    the clock reading inside [checkLimit], [now_error] the later reading that
    computes the wait time.  [resetTime ? ... : 60] tests truthiness: [null]
    and the number 0 both give 60. *)
Definition withRateLimit {Env T : Type} (svc identifier : jsstring)
    (now_check now_error : Z) (operation : Env → Outcome T * Env)
    (st : RateLimiter * Env) : Outcome T * (RateLimiter * Env) :=
  let '(rl, env) := st in
  match checkLimit svc identifier now_check rl with
  | (Threw e, rl1) => (Threw e, (rl1, env))
  | (Returned false, rl1) =>
      match getResetTime svc identifier rl1 with
      | (Threw e, rl2) => (Threw e, (rl2, env))
      | (Returned resetTime, rl2) =>
          let waitTime :=
            match resetTime with
            | Some r => if decide (r = 0) then 60 else ceil_div (r - now_error) 1000
            | None => 60
            end in
          (Threw (PlainError (lit "Rate limit exceeded for " ++ svc ++
                              lit ". Try again in " ++ show_Z waitTime ++
                              lit " seconds.")),
           (rl2, env))
      end
  | (Returned true, rl1) =>
      let '(result, env1) := operation env in
      (result, (rl1, env1))
  end.

(** A call made on the singleton limiter: a rate-limit check or a run of the
    periodic clean-up, each with its clock reading. *)
Inductive Call : Type :=
| CallCheckLimit (svc identifier : jsstring) (now : Z)
| CallCleanup (now : Z).

Definition call_time (c : Call) : Z :=
  match c with CallCheckLimit _ _ now | CallCleanup now => now end.

(** The limiter after one call; [None] when the call ends in an exception. *)
Definition run_call (c : Call) (rl : RateLimiter) : option RateLimiter :=
  match c with
  | CallCheckLimit svc identifier now =>
      match checkLimit svc identifier now rl with
      | (Returned _, rl1) => Some rl1
      | (Threw _, _) => None
      end
  | CallCleanup now =>
      match cleanup now rl with
      | Returned rl1 => Some rl1
      | Threw _ => None
      end
  end.

Fixpoint run_calls (cs : list Call) (rl : RateLimiter) : option RateLimiter :=
  match cs with
  | [] => Some rl
  | c :: rest =>
      match run_call c rl with
      | Some rl1 => run_calls rest rl1
      | None => None
      end
  end.

(** Clock readings that never go backwards. *)
Fixpoint nondecreasing (ts : list Z) : Prop :=
  match ts with
  | [] => True
  | t :: rest => Forall (λ u, t ≤ u) rest ∧ nondecreasing rest
  end.

(** The records of a window that are younger than [windowMs] at time [now]. *)
Definition young (now : Z) (config : RateLimitConfig)
    (reqs : list RequestRecord) : nat :=
  length (prune now config reqs).

Definition colon_free (s : jsstring) : Prop := colon ∉ s.

Definition call_service_colon_free (c : Call) : Prop :=
  match c with
  | CallCheckLimit svc _ _ => colon_free svc
  | CallCleanup _ => True
  end.

(** ** JavaScript values *)

(** A JavaScript number, as far as the embedded code looks at one: a finite
    value (every finite double is a rational; the two zeros are one here, and
    both are falsy), an infinity, or NaN. *)
Inductive number : Type :=
| Finite (q : Q)
| Infinite (negative : bool)
| NotANumber.

Definition of_Z (z : Z) : number := Finite (Qmake z 1).

(** What [JSON.parse], [request.json()] and the store fields hold. *)
Inductive JSValue : Type :=
| JUndefined
| JNull
| JBool (b : bool)
| JNum (n : number)
| JStr (s : jsstring)
| JArr (items : list JSValue)
| JObj (fields : list (jsstring * JSValue)).

(** ToBoolean *)
Definition truthy (v : JSValue) : bool :=
  match v with
  | JUndefined | JNull => false
  | JBool b => b
  | JNum (Finite q) => negb (Qnum q =? 0)
  | JNum (Infinite _) => true
  | JNum NotANumber => false
  | JStr s => match s with [] => false | _ => true end
  | JArr _ | JObj _ => true
  end.

(** [Array.isArray(v)] *)
Definition isArray (v : JSValue) : bool :=
  match v with JArr _ => true | _ => false end.

(** The own property [name] of an object given by its fields. *)
Fixpoint field_get (name : jsstring) (fields : list (jsstring * JSValue)) : JSValue :=
  match fields with
  | [] => JUndefined
  | (k, v) :: rest => if decide (k = name) then v else field_get name rest
  end.

(** Assignment to the property [name]: in place when the object has it,
    as a new last property otherwise. *)
Fixpoint field_set (name : jsstring) (x : JSValue)
    (fields : list (jsstring * JSValue)) : list (jsstring * JSValue) :=
  match fields with
  | [] => [(name, x)]
  | (k, v) :: rest =>
      if decide (k = name) then (k, x) :: rest else (k, v) :: field_set name x rest
  end.

(** [v.name] for the property names the embedded code reads ([title],
    [content], [metaDescription], [tags], [seoScore], [excerpt],
    [keyInsights], [sources], [topic]): none of them is defined on a
    prototype, so a boolean, number, string or array answers [undefined];
    [null] and [undefined] throw. *)
Definition get_prop (v : JSValue) (name : string) : Outcome JSValue :=
  match v with
  | JUndefined =>
      Threw (TypeError (lit "Cannot read properties of undefined (reading '" ++
                        lit name ++ lit "')"))
  | JNull =>
      Threw (TypeError (lit "Cannot read properties of null (reading '" ++
                        lit name ++ lit "')"))
  | JObj fields => Returned (field_get (lit name) fields)
  | _ => Returned JUndefined
  end.

(** ** The two regular expressions of the parsers *)

Definition open_brace : N := 123%N.
Definition close_brace : N := 125%N.
Definition less_than : N := 60%N.
Definition greater_than : N := 62%N.

(** The longest prefix of [s] that ends in a closing brace. *)
Fixpoint upto_last_close (s : jsstring) : option jsstring :=
  match s with
  | [] => None
  | c :: rest =>
      match upto_last_close rest with
      | Some r => Some (c :: r)
      | None => if decide (c = close_brace) then Some [c] else None
      end
  end.

(** [content.match(/\{[\s\S]*\}/)]: the match runs from the first opening
    brace to the last closing brace after it ([\s\S] is any code unit and the
    star is greedy); [None] is [null]. *)
Fixpoint json_match (content : jsstring) : option jsstring :=
  match content with
  | [] => None
  | c :: rest =>
      if decide (c = open_brace) then
        match upto_last_close rest with
        | Some r => Some (c :: r)
        | None => None
        end
      else json_match rest
  end.

(** The code units after the first [>] of [s], when it has one. *)
Fixpoint after_first_gt (s : jsstring) : option jsstring :=
  match s with
  | [] => None
  | c :: rest => if decide (c = greater_than) then Some rest else after_first_gt rest
  end.

(** [s.replace(/<[^>]*>/g, '')].  A match starts at a [<] and ends at the
    first [>] after it; once a [<] has no [>] after it, nothing further
    matches.  [fuel] bounds the scan; the length of [s] is enough. *)
Fixpoint strip_tags_fuel (fuel : nat) (s : jsstring) : jsstring :=
  match fuel with
  | O => s
  | S fuel' =>
      match s with
      | [] => []
      | c :: rest =>
          if decide (c = less_than) then
            match after_first_gt rest with
            | Some rest' => strip_tags_fuel fuel' rest'
            | None => s
            end
          else c :: strip_tags_fuel fuel' rest
      end
  end.

Definition strip_tags (s : jsstring) : jsstring :=
  strip_tags_fuel (length s) s.

(** ** src/lib/claude.ts: parseBlogResponse *)

(** One block of [response.content]. *)
Inductive ContentBlock : Type :=
| TextBlock (text : jsstring)
| OtherBlock.

(** [response.content]: the array of blocks the SDK types, a bare string, or
    anything else. *)
Inductive MessageContent : Type :=
| ContentBlocks (blocks : list ContentBlock)
| ContentString (s : jsstring)
| ContentOther.

(** [.filter(block => block.type === 'text').map(...).join('')] *)
Definition join_text_blocks (blocks : list ContentBlock) : jsstring :=
  concat (omap (λ b, match b with TextBlock t => Some t | OtherBlock => None end) blocks).

Definition message_text (c : MessageContent) : jsstring :=
  match c with
  | ContentBlocks blocks => join_text_blocks blocks
  | ContentString s => s
  | ContentOther => []
  end.

(** [try { ... } catch (error) { ... return fallback }] *)
Definition try_catch {A : Type} (body : Outcome A) (handler : JSError → Outcome A)
    : Outcome A :=
  match body with
  | Returned a => Returned a
  | Threw e => handler e
  end.

Definition fallback_blog : JSValue :=
  JObj [ (lit "title", JStr (lit "Blog Post Generation Failed"));
         (lit "content", JStr (lit "<p>There was an error generating the blog post. Please try again with different inputs.</p>"));
         (lit "metaDescription", JStr (lit "Blog post generation encountered an error. Please retry."));
         (lit "tags", JArr [JStr (lit "error"); JStr (lit "retry")]);
         (lit "seoScore", JNum (of_Z 0));
         (lit "excerpt", JStr (lit "Blog post generation failed. Please try again.")) ].

(** [parsed.content.substring(0, 200).replace(/<[^>]*>/g, '') + '...']:
    only a string has [substring]; on any other truthy value the call is a
    [TypeError]. *)
Definition default_excerpt (content : JSValue) : Outcome JSValue :=
  match content with
  | JStr s => Returned (JStr (strip_tags (take 200 s) ++ lit "..."))
  | _ => Threw (TypeError (lit "parsed.content.substring is not a function"))
  end.

(** [a || b] on values. *)
Definition or_else (a b : JSValue) : JSValue := if truthy a then a else b.

(** [v.name = x] in strict mode, for a value that came out of [JSON.parse]
    and has a truthy [title] (so: an object); the resulting value. *)
Definition set_prop (v : JSValue) (name : string) (x : JSValue) : Outcome JSValue :=
  match v with
  | JObj fields => Returned (JObj (field_set (lit name) x fields))
  | JUndefined =>
      Threw (TypeError (lit "Cannot set properties of undefined (setting '" ++
                        lit name ++ lit "')"))
  | JNull =>
      Threw (TypeError (lit "Cannot set properties of null (setting '" ++
                        lit name ++ lit "')"))
  | _ => Threw (TypeError (lit "Cannot create property '" ++ lit name ++ lit "'"))
  end.

Section Parsers.

(** [JSON.parse], the built-in: a value, or the [SyntaxError] it throws. *)
Variable JSON_parse : jsstring → Outcome JSValue.

(** The [try] block of [parseBlogResponse]; a response of [None] is a
    missing response object. *)
Definition parseBlogResponse_try (response : option MessageContent) : Outcome JSValue :=
  match response with
  | None => Threw (TypeError (lit "Cannot read properties of undefined (reading 'content')"))
  | Some c =>
      let content := message_text c in
      match json_match content with
      | None => Threw (PlainError (lit "No JSON found in Claude response"))
      | Some jsonMatch =>
          parsed ← JSON_parse jsonMatch;
          title ← get_prop parsed "title";
          body ← get_prop parsed "content";
          metaDescription ← get_prop parsed "metaDescription";
          if negb (truthy title) || negb (truthy body) || negb (truthy metaDescription)
          then Threw (PlainError (lit "Missing required fields in Claude response"))
          else
            tags ← get_prop parsed "tags";
            parsed1 ← set_prop parsed "tags" (or_else tags (JArr []));
            seoScore ← get_prop parsed1 "seoScore";
            parsed2 ← set_prop parsed1 "seoScore" (or_else seoScore (JNum (of_Z 75)));
            excerpt ← get_prop parsed2 "excerpt";
            if truthy excerpt then set_prop parsed2 "excerpt" excerpt
            else
              body2 ← get_prop parsed2 "content";
              x ← default_excerpt body2;
              set_prop parsed2 "excerpt" x
      end
  end.

Definition parseBlogResponse (response : option MessageContent) : Outcome JSValue :=
  try_catch (parseBlogResponse_try response) (λ _, Returned fallback_blog).

(** ** src/unnamed/part_002: parseAnalysisResponse *)

Definition fallback_analysis : JSValue :=
  JObj [ (lit "keyInsights", JArr [JStr (lit "Analysis failed - manual review needed")]);
         (lit "mainThemes", JArr [JStr (lit "General content")]);
         (lit "currentTrends", JArr [JStr (lit "Current industry trends")]);
         (lit "seoKeywords", JArr [JStr (lit "content"); JStr (lit "blog"); JStr (lit "article")]);
         (lit "factualClaims", JArr [JStr (lit "Claims need verification")]);
         (lit "citations", JArr [JStr (lit "Manual citation needed")]) ].

(** The response of the research service: [choices] ([None] when the
    response has none), each choice with the [content] of its [message]
    ([None] when the message or its content is missing). *)
Definition PerplexityResponse : Type := option (list (option jsstring)).

(** [response.choices[0]?.message?.content || ''] *)
Definition first_choice_content (response : PerplexityResponse) : Outcome jsstring :=
  match response with
  | None => Threw (TypeError (lit "Cannot read properties of undefined (reading '0')"))
  | Some choices =>
      match choices with
      | Some content :: _ => Returned content
      | _ => Returned []
      end
  end.

Definition parseAnalysisResponse_try (response : PerplexityResponse) : Outcome JSValue :=
  content ← first_choice_content response;
  match json_match content with
  | None => Threw (PlainError (lit "No JSON found in response"))
  | Some jsonMatch =>
      parsed ← JSON_parse jsonMatch;
      keyInsights ← get_prop parsed "keyInsights";
      if negb (truthy keyInsights) || negb (isArray keyInsights)
      then Threw (PlainError (lit "Invalid keyInsights in response"))
      else Returned parsed
  end.

Definition parseAnalysisResponse (response : PerplexityResponse) : Outcome JSValue :=
  try_catch (parseAnalysisResponse_try response) (λ _, Returned fallback_analysis).

End Parsers.

(** ** src/lib/error-handler.ts *)

(** [new RateLimitError(service, retryAfter)]; [retryAfter] is the number
    read off the header, [None] when there is none (a falsy number prints
    nothing either). *)
Definition RateLimitError (svc : jsstring) (retryAfter : option Z) : APIErr :=
  mkAPIErr
    (lit "Rate limit exceeded for " ++ svc ++
     match retryAfter with
     | Some n => if decide (n = 0) then [] else lit ". Retry after " ++ show_Z n ++ lit "s"
     | None => []
     end)
    429 svc.

(** [handleAPIError(error, service)] *)
Definition handleAPIError (error : JSError) (svc : jsstring) : APIErr :=
  match error with
  | APIError e => e
  | ResponseError m status dataMessage retryAfter =>
      let message :=
        match dataMessage with
        | Some (c :: d) => c :: d
        | _ => m
        end in
      if decide (status = 429) then RateLimitError svc retryAfter
      else mkAPIErr (svc ++ lit " API error: " ++ message) status svc
  | RequestError _ => mkAPIErr (lit "Network error connecting to " ++ svc) 503 svc
  | PlainError m | TypeError m =>
      mkAPIErr (lit "Unexpected error in " ++ svc ++ lit ": " ++ m) 500 svc
  end.

(** The [error] object of an [ErrorResponse], without its timestamp.  A
    plain [Error] has neither [service] nor [statusCode]. *)
Record ErrorResponse : Type := mkErrorResponse {
  err_message : jsstring;
  err_service : option jsstring;
  err_statusCode : option Z
}.

Definition createErrorResponse (error : JSError) : ErrorResponse :=
  match error with
  | APIError e => mkErrorResponse (api_message e) (Some (api_service e)) (Some (api_statusCode e))
  | _ => mkErrorResponse (error_message error) None None
  end.

(** ** src/app/api/analyze/route.ts *)

Module AnalyzeRoute.

(** What the route reads of the request: the outcome of [request.json()]
    and two headers ([None] when a header is absent). *)
Record NextRequest : Type := mkRequest {
  json : Outcome JSValue;
  x_forwarded_for : option jsstring;
  x_real_ip : option jsstring
}.

(** The body handed to [NextResponse.json], timestamps left out. *)
Inductive ResponseBody (R : Type) : Type :=
| ErrorBody (e : ErrorResponse)
| SuccessBody (analysis : R).
Arguments ErrorBody {R} e.
Arguments SuccessBody {R} analysis.

Record NextResponse (R : Type) : Type := mkResponse {
  status : Z;
  body : ResponseBody R
}.
Arguments mkResponse {R} status body.
Arguments status {R} _.
Arguments body {R} _.

(** WhiteSpace and LineTerminator code units, the ones [trim] removes. *)
Definition is_whitespace (c : N) : bool :=
  ((9 <=? c) && (c <=? 13) || (c =? 32) || (c =? 160) || (c =? 5760)
   || (8192 <=? c) && (c <=? 8202) || (c =? 8232) || (c =? 8233)
   || (c =? 8239) || (c =? 8287) || (c =? 12288) || (c =? 65279))%N.

Fixpoint trim_start (s : jsstring) : jsstring :=
  match s with
  | [] => []
  | c :: rest => if is_whitespace c then trim_start rest else s
  end.

(** [s.trim()] *)
Definition trim (s : jsstring) : jsstring :=
  reverse (trim_start (reverse (trim_start s))).

(** [!body.sources || !Array.isArray(body.sources) || body.sources.length === 0] *)
Definition sources_invalid (sources : JSValue) : bool :=
  negb (truthy sources) || negb (isArray sources)
  || match sources with JArr items => (length items =? 0)%nat | _ => false end.

(** [!body.topic || typeof body.topic !== 'string' || body.topic.trim().length === 0] *)
Definition topic_invalid (topic : JSValue) : bool :=
  negb (truthy topic)
  || match topic with
     | JStr s => (length (trim s) =? 0)%nat
     | _ => true
     end.

(** [get('x-forwarded-for') || get('x-real-ip') || 'unknown'] *)
Definition clientIP (request : NextRequest) : jsstring :=
  match x_forwarded_for request with
  | Some (c :: s) => c :: s
  | _ =>
      match x_real_ip request with
      | Some (c :: s) => c :: s
      | _ => lit "unknown"
      end
  end.

(** The [catch] block of [POST]. *)
Definition error_response {R : Type} (error : JSError) : NextResponse R :=
  let apiError := handleAPIError error (lit "analyze-api") in
  mkResponse (api_statusCode apiError) (ErrorBody (createErrorResponse (APIError apiError))).

Definition bad_request {R : Type} (message : string) : NextResponse R :=
  mkResponse 400 (ErrorBody (createErrorResponse (PlainError (lit message)))).

(** [POST(request)].  [analyzeSourcesWithPerplexity] stands for the function
    of that name, whose collaborators (the source manager and the research
    service) lie outside this development: its result or exception, and
    its effect on the outside world. *)
Definition POST {Env R : Type}
    (analyzeSourcesWithPerplexity : JSValue → Env → Outcome R * Env)
    (request : NextRequest) (now_check now_error : Z)
    (st : RateLimiter * Env) : NextResponse R * (RateLimiter * Env) :=
  match json request with
  | Threw e => (error_response e, st)
  | Returned body =>
      match get_prop body "sources" with
      | Threw e => (error_response e, st)
      | Returned sources =>
          if sources_invalid sources
          then (bad_request "Sources array is required and cannot be empty", st)
          else
            match get_prop body "topic" with
            | Threw e => (error_response e, st)
            | Returned topic =>
                if topic_invalid topic
                then (bad_request "Topic is required and cannot be empty", st)
                else
                  match withRateLimit (lit "perplexity") (clientIP request)
                          now_check now_error
                          (analyzeSourcesWithPerplexity body) st with
                  | (Returned result, st1) => (mkResponse 200 (SuccessBody result), st1)
                  | (Threw e, st1) => (error_response e, st1)
                  end
            end
      end
  end.

End AnalyzeRoute.

(** ** The two-stage workflow: src/components/ai-editor.tsx,
       src/unnamed/part_011 (WorkflowStatus), src/unnamed/part_003 *)

Module Workflow.

Inductive Status : Type :=
| idle | analyzing | generating | completed | error.

Inductive Step : Type :=
| step_sources | step_analysis | step_generation | step_completed.

#[global] Instance Status_eq_dec : EqDecision Status.
Proof. solve_decision. Defined.
#[global] Instance Step_eq_dec : EqDecision Step.
Proof. solve_decision. Defined.

(** Modelled from the spec: the workflow store ([lib/workflow-store], not
    among the sources).  Its fields are the ones the editor and the status
    card read; each setter the handlers call is taken to replace its one
    field, as the setters of the sibling store [useWordPressStore] do.  The
    store's initial state is not fixed here: the theorems take it as a
    parameter. *)
Record WorkflowStore : Type := mkStore {
  status : Status;
  currentStep : Step;
  progress : Z;
  sources : list jsstring;
  topic : jsstring;
  sourceAnalysis : JSValue;
  blogGeneration : JSValue;
  analysisError : option jsstring;
  generationError : option jsstring
}.

(** The editor component: the store and its own [useState] flags, both
    [false] when the component mounts. *)
Record Editor : Type := mkEditor {
  store : WorkflowStore;
  isAnalyzing : bool;
  isGenerating : bool
}.

Definition mount (s : WorkflowStore) : Editor := mkEditor s false false.

(** A string or [null] in a boolean position. *)
Definition truthy_message (m : option jsstring) : bool :=
  match m with
  | Some (_ :: _) => true
  | _ => false
  end.

(** [sources.length > 0 && topic.trim().length > 0 && status === 'idle'] *)
Definition canAnalyze (s : WorkflowStore) : bool :=
  negb (length (sources s) =? 0)%nat
  && negb (length (AnalyzeRoute.trim (topic s)) =? 0)%nat
  && bool_decide (status s = idle).

(** [sourceAnalysis && !analysisError && status === 'idle'] *)
Definition canGenerate (s : WorkflowStore) : bool :=
  truthy (sourceAnalysis s)
  && negb (truthy_message (analysisError s))
  && bool_decide (status s = idle).

(** How a request to one of the two routes ends for the handler: with the
    value it stores, or in its [catch] with the message it shows. *)
Inductive Settled : Type :=
| Succeeded (value : JSValue)
| Failed (message : jsstring).

Inductive Event : Type :=
| SetSources (l : list jsstring)
| SetTopic (t : jsstring)
| ClickAnalyze
| AnalysisSettled (r : Settled)
| ClickGenerate
| GenerationSettled (r : Settled).

Definition set_status (x : Status) (s : WorkflowStore) : WorkflowStore :=
  mkStore x (currentStep s) (progress s) (sources s) (topic s) (sourceAnalysis s)
    (blogGeneration s) (analysisError s) (generationError s).
Definition set_currentStep (x : Step) (s : WorkflowStore) : WorkflowStore :=
  mkStore (status s) x (progress s) (sources s) (topic s) (sourceAnalysis s)
    (blogGeneration s) (analysisError s) (generationError s).
Definition set_progress (x : Z) (s : WorkflowStore) : WorkflowStore :=
  mkStore (status s) (currentStep s) x (sources s) (topic s) (sourceAnalysis s)
    (blogGeneration s) (analysisError s) (generationError s).
Definition set_sources (x : list jsstring) (s : WorkflowStore) : WorkflowStore :=
  mkStore (status s) (currentStep s) (progress s) x (topic s) (sourceAnalysis s)
    (blogGeneration s) (analysisError s) (generationError s).
Definition set_topic (x : jsstring) (s : WorkflowStore) : WorkflowStore :=
  mkStore (status s) (currentStep s) (progress s) (sources s) x (sourceAnalysis s)
    (blogGeneration s) (analysisError s) (generationError s).
Definition set_sourceAnalysis (x : JSValue) (s : WorkflowStore) : WorkflowStore :=
  mkStore (status s) (currentStep s) (progress s) (sources s) (topic s) x
    (blogGeneration s) (analysisError s) (generationError s).
Definition set_blogGeneration (x : JSValue) (s : WorkflowStore) : WorkflowStore :=
  mkStore (status s) (currentStep s) (progress s) (sources s) (topic s) (sourceAnalysis s)
    x (analysisError s) (generationError s).
Definition set_analysisError (x : option jsstring) (s : WorkflowStore) : WorkflowStore :=
  mkStore (status s) (currentStep s) (progress s) (sources s) (topic s) (sourceAnalysis s)
    (blogGeneration s) x (generationError s).
Definition set_generationError (x : option jsstring) (s : WorkflowStore) : WorkflowStore :=
  mkStore (status s) (currentStep s) (progress s) (sources s) (topic s) (sourceAnalysis s)
    (blogGeneration s) (analysisError s) x.

(** One event of the editor; [None] when the event cannot happen in this
    state (its button is disabled, the handler returns at its guard, or no
    request of that kind is in flight).
    - [ClickAnalyze] is the part of [handleAnalyzeSources] before the fetch,
      [AnalysisSettled] the part after it, [finally] included;
    - [ClickGenerate] and [GenerationSettled] split [handleGenerateBlog] the
      same way. *)
Definition step (e : Event) (ed : Editor) : option Editor :=
  let s := store ed in
  match e with
  | SetSources l => Some (mkEditor (set_sources l s) (isAnalyzing ed) (isGenerating ed))
  | SetTopic t => Some (mkEditor (set_topic t s) (isAnalyzing ed) (isGenerating ed))
  | ClickAnalyze =>
      if canAnalyze s && negb (isAnalyzing ed) then
        Some (mkEditor
                (set_analysisError None (set_currentStep step_analysis (set_status analyzing s)))
                true (isGenerating ed))
      else None
  | AnalysisSettled r =>
      if isAnalyzing ed then
        match r with
        | Succeeded perplexityAnalysis =>
            Some (mkEditor
                    (set_status idle (set_progress 50 (set_currentStep step_generation
                       (set_sourceAnalysis perplexityAnalysis s))))
                    false (isGenerating ed))
        | Failed message =>
            Some (mkEditor (set_status error (set_analysisError (Some message) s))
                    false (isGenerating ed))
        end
      else None
  | ClickGenerate =>
      if canGenerate s && truthy (sourceAnalysis s) && negb (isGenerating ed) then
        Some (mkEditor (set_generationError None (set_status generating s))
                (isAnalyzing ed) true)
      else None
  | GenerationSettled r =>
      if isGenerating ed then
        match r with
        | Succeeded blog =>
            Some (mkEditor
                    (set_status completed (set_progress 100 (set_currentStep step_completed
                       (set_blogGeneration blog s))))
                    (isAnalyzing ed) false)
        | Failed message =>
            Some (mkEditor (set_status error (set_generationError (Some message) s))
                    (isAnalyzing ed) false)
        end
      else None
  end.

(** The editor after a sequence of events, oldest first; [None] when one of
    them cannot happen where it stands. *)
Fixpoint run (events : list Event) (ed : Editor) : option Editor :=
  match events with
  | [] => Some ed
  | e :: rest =>
      match step e ed with
      | Some ed1 => run rest ed1
      | None => None
      end
  end.

(** *** WorkflowStatus (src/unnamed/part_011) *)

Definition steps : list Step :=
  [step_sources; step_analysis; step_generation; step_completed].

(** [steps.findIndex(step => step.key === currentStep)] *)
Definition getCurrentStepIndex (s : WorkflowStore) : nat :=
  match currentStep s with
  | step_sources => 0
  | step_analysis => 1
  | step_generation => 2
  | step_completed => 3
  end.

(** [isActive] and [isCompleted] of the step at [index]. *)
Definition isActive (s : WorkflowStore) (k : Step) : bool :=
  bool_decide (k = currentStep s).
Definition isCompleted (s : WorkflowStore) (index : nat) : bool :=
  (index <? getCurrentStepIndex s)%nat || bool_decide (status s = completed).

(** The card shows the step labelled 'Ready to Publish' (index 3) as active
    or as completed. *)
Definition ready_to_publish_shown (s : WorkflowStore) : bool :=
  isActive s step_completed || isCompleted s 3.

(** *** useWordPressStore (src/unnamed/part_003) *)

Inductive PublishStatus : Type :=
| publish_idle | publish_testing | publish_publishing | publish_success | publish_error.

#[global] Instance PublishStatus_eq_dec : EqDecision PublishStatus.
Proof. solve_decision. Defined.

(** Of a [WordPressSiteInfo], the one field [canPublish] reads. *)
Record WordPressSiteInfo : Type := mkSite { connected : bool }.

Record WordPressState : Type := mkWordPress {
  defaultSite : option WordPressSiteInfo;
  customSite : option WordPressSiteInfo;
  useCustomSite : bool;
  publishStatus : PublishStatus
}.

Definition getCurrentSite (w : WordPressState) : option WordPressSiteInfo :=
  if useCustomSite w then customSite w else defaultSite w.

(** [currentSite?.connected === true && state.publishStatus === 'idle'] *)
Definition canPublish (w : WordPressState) : bool :=
  match getCurrentSite w with
  | Some site => connected site
  | None => false
  end && bool_decide (publishStatus w = publish_idle).

(** Export goes ahead exactly when the guards of [handleWordPressExport]
    (ai-editor.tsx) and [publishToWordPress] (wordpress-export.tsx) pass:
    there is a generated article and [canPublish()] holds.  The export panel
    and its button are rendered only with an article, too. *)
Definition export_offered (s : WorkflowStore) (w : WordPressState) : bool :=
  truthy (blogGeneration s) && canPublish w.

(** In a sequence of events: a successful analysis, and later a successful
    generation. *)
Definition both_stages_succeeded (events : list Event) : Prop :=
  ∃ pre a mid b post,
    events = pre ++ AnalysisSettled (Succeeded a) :: mid
                 ++ GenerationSettled (Succeeded b) :: post.

End Workflow.

(** ** The vocabulary of the statements *)

(** Timestamps in the order they were recorded on a clock that does not go
    backwards. *)
Definition sorted_by_timestamp (reqs : list RequestRecord) : Prop :=
  StronglySorted (λ a b, timestamp a ≤ timestamp b) reqs.

(** Every stored window holds at most the [maxRequests] of the configuration
    of its key's service, and the table is the constructor's. *)
Definition within_capacity (rl : RateLimiter) : Prop :=
  configs rl = configs new_RateLimiter
  ∧ ∀ key reqs config,
      requests rl !! key = Some reqs →
      getConfig rl (split_colon_head key) = Some config →
      Z.of_nat (length reqs) ≤ maxRequests config.

(** Every stored window is in timestamp order and holds no timestamp later
    than a call still to come. *)
Definition recorded_before (calls : list Call) (rl : RateLimiter) : Prop :=
  ∀ key reqs,
    requests rl !! key = Some reqs →
    sorted_by_timestamp reqs
    ∧ ∀ r c, r ∈ reqs → c ∈ calls → timestamp r ≤ call_time c.

(** The text has an opening brace with a closing brace somewhere after it. *)
Definition has_brace_block (content : jsstring) : Prop :=
  ∃ pre mid post, content = pre ++ open_brace :: mid ++ close_brace :: post.

(** [v.name], read as [undefined] where the read would throw. *)
Definition prop_of (v : JSValue) (name : string) : JSValue :=
  match get_prop v name with
  | Returned x => x
  | Threw _ => JUndefined
  end.

(** No request ended in a [catch] block. *)
Definition no_failure (events : list Workflow.Event) : Prop :=
  ∀ message,
    (Workflow.AnalysisSettled (Workflow.Failed message) ∉ events)
    ∧ (Workflow.GenerationSettled (Workflow.Failed message) ∉ events).

Definition analysis_succeeded (events : list Workflow.Event) : Prop :=
  ∃ a, Workflow.AnalysisSettled (Workflow.Succeeded a) ∈ events.

(** What holds of a state that shows the last step or has an article. *)
Definition stages_done (events : list Workflow.Event) (s : Workflow.WorkflowStore) : Prop :=
  Workflow.status s = Workflow.completed
  ∧ Workflow.currentStep s = Workflow.step_completed
  ∧ Workflow.both_stages_succeeded events
  ∧ truthy (Workflow.sourceAnalysis s) = true
  ∧ Workflow.truthy_message (Workflow.analysisError s) = false
  ∧ Workflow.generationError s = None.

(** The invariant of the editor, with the events that led to its state. *)
Definition editor_invariant (events : list Workflow.Event) (ed : Workflow.Editor) : Prop :=
  (Workflow.status (Workflow.store ed) = Workflow.error ∨ no_failure events)
  ∧ (Workflow.isAnalyzing ed = true → Workflow.status (Workflow.store ed) = Workflow.analyzing)
  ∧ (Workflow.isGenerating ed = true →
     Workflow.status (Workflow.store ed) = Workflow.generating
     ∧ truthy (Workflow.sourceAnalysis (Workflow.store ed)) = true
     ∧ Workflow.truthy_message (Workflow.analysisError (Workflow.store ed)) = false
     ∧ Workflow.generationError (Workflow.store ed) = None)
  ∧ (truthy (Workflow.sourceAnalysis (Workflow.store ed)) = true → analysis_succeeded events)
  ∧ (truthy (Workflow.blogGeneration (Workflow.store ed)) = true
     ∨ Workflow.currentStep (Workflow.store ed) = Workflow.step_completed
     ∨ Workflow.status (Workflow.store ed) = Workflow.completed →
     stages_done events (Workflow.store ed)).

(** ** Sample inputs *)

(** A reading of [JSON.parse] that accepts nothing. *)
Definition JSON_parse_rejecting : jsstring → Outcome JSValue :=
  λ _, Threw (PlainError (lit "Unexpected token")).

(** A JSON text written with ['] for the double quote. *)
Definition json_text (s : string) : jsstring :=
  map (λ c, if decide (c = 39%N) then 34%N else c) (lit s).

(** A reading of [JSON.parse] that knows one text and its value. *)
Definition JSON_parse_knowing (text : jsstring) (value : JSValue)
    : jsstring → Outcome JSValue :=
  λ t, if decide (t = text) then Returned value
       else Threw (PlainError (lit "Unexpected token")).

Definition scored_zero_text : jsstring :=
  json_text "{'title':'T','content':'<p>Hello</p>','metaDescription':'M','seoScore':0}".

Definition scored_zero_fields : list (jsstring * JSValue) :=
  [ (lit "title", JStr (lit "T"));
    (lit "content", JStr (lit "<p>Hello</p>"));
    (lit "metaDescription", JStr (lit "M"));
    (lit "seoScore", JNum (of_Z 0)) ].

Definition numeric_content_text : jsstring :=
  json_text "{'title':'T','content':5,'metaDescription':'M','seoScore':0}".

Definition numeric_content_fields : list (jsstring * JSValue) :=
  [ (lit "title", JStr (lit "T"));
    (lit "content", JNum (of_Z 5));
    (lit "metaDescription", JStr (lit "M"));
    (lit "seoScore", JNum (of_Z 0)) ].

(** An operation that fails; the outside world counts its runs. *)
Definition failing_operation (n : nat) : Outcome unit * nat :=
  (Threw (PlainError (lit "Failed to analyze sources with Perplexity")), S n).

(** A store before anything has been entered. *)
Definition fresh_store : Workflow.WorkflowStore :=
  Workflow.mkStore Workflow.idle Workflow.step_sources 0 [] [] JNull JNull None None.

Definition connected_site : Workflow.WordPressState :=
  Workflow.mkWordPress (Some (Workflow.mkSite true)) None false Workflow.publish_idle.

Definition full_run : list Workflow.Event :=
  [ Workflow.SetSources [lit "Notes on rate limiting"];
    Workflow.SetTopic (lit "Rate limiting");
    Workflow.ClickAnalyze;
    Workflow.AnalysisSettled (Workflow.Succeeded (JObj [(lit "keyInsights", JArr [])]));
    Workflow.ClickGenerate;
    Workflow.GenerationSettled (Workflow.Succeeded (JObj [(lit "title", JStr (lit "T"))])) ].

(** ** Proof tools *)

Ltac names_differ := let H := fresh in intros H; vm_compute in H; discriminate H.

Ltac store_fields :=
  unfold Workflow.set_status, Workflow.set_currentStep, Workflow.set_progress,
    Workflow.set_sources, Workflow.set_topic, Workflow.set_sourceAnalysis,
    Workflow.set_blogGeneration, Workflow.set_analysisError,
    Workflow.set_generationError;
  cbn [Workflow.store Workflow.isAnalyzing Workflow.isGenerating Workflow.status
       Workflow.currentStep Workflow.progress Workflow.sources Workflow.topic
       Workflow.sourceAnalysis Workflow.blogGeneration Workflow.analysisError
       Workflow.generationError].

(** ** Further code: the rest of src/lib/rate-limiter.ts *)

(** A [Partial<RateLimitConfig>] whose present properties hold values;
    [None] is a property that is not there. *)
Record PartialConfig : Type := mkPartial {
  p_maxRequests : option Z;
  p_windowMs : option Z;
  p_service : option jsstring
}.

(** [setConfig(service, config)]: the stored object is
    [{ ...existing, ...config, service }].  Each limit is the one [config]
    brings, else the one of [existing].  With no [existing] (no default
    configuration) and a limit missing from [config], the stored object would
    lack that limit: such an object is no [RateLimitConfig], and the result
    is [None]. *)
Definition setConfig (svc : jsstring) (config : PartialConfig) (rl : RateLimiter)
    : option RateLimiter :=
  let existing := getConfig rl svc in
  let limit (given : option Z) (field : RateLimitConfig → Z) : option Z :=
    match given with
    | Some z => Some z
    | None => field <$> existing
    end in
  match limit (p_maxRequests config) maxRequests, limit (p_windowMs config) windowMs with
  | Some m, Some w =>
      Some {| requests := requests rl;
              configs := <[svc := mkConfig m w svc]> (configs rl) |}
  | _, _ => None
  end.

(** A call of any public method of the limiter. *)
Inductive Method : Type :=
| MSetConfig (svc : jsstring) (config : PartialConfig)
| MCheckLimit (svc identifier : jsstring) (now : Z)
| MGetRemainingRequests (svc identifier : jsstring) (now : Z)
| MGetResetTime (svc identifier : jsstring)
| MCleanup (now : Z).

(** The limiter after the call; [None] when the call throws (or, for
    [setConfig], stores an object without limits). *)
Definition run_method (m : Method) (rl : RateLimiter) : option RateLimiter :=
  match m with
  | MSetConfig svc config => setConfig svc config rl
  | MCheckLimit svc identifier now =>
      match checkLimit svc identifier now rl with
      | (Returned _, rl1) => Some rl1
      | (Threw _, _) => None
      end
  | MGetRemainingRequests svc identifier now =>
      match getRemainingRequests svc identifier now rl with
      | Returned _ => Some rl
      | Threw _ => None
      end
  | MGetResetTime svc identifier =>
      match getResetTime svc identifier rl with
      | (Returned _, rl1) => Some rl1
      | (Threw _, _) => None
      end
  | MCleanup now =>
      match cleanup now rl with
      | Returned rl1 => Some rl1
      | Threw _ => None
      end
  end.

Fixpoint run_methods (ms : list Method) (rl : RateLimiter) : option RateLimiter :=
  match ms with
  | [] => Some rl
  | m :: rest =>
      match run_method m rl with
      | Some rl1 => run_methods rest rl1
      | None => None
      end
  end.

(** How many of the calls, made in turn from [rl], are [checkLimit] calls on
    [key] that come back [true]. *)
Fixpoint admissions (key : jsstring) (calls : list Call) (rl : RateLimiter) : nat :=
  match calls with
  | [] => 0
  | CallCheckLimit svc identifier now :: rest =>
      match checkLimit svc identifier now rl with
      | (Returned b, rl1) =>
          ((if b && bool_decide (make_key svc identifier = key) then 1 else 0)
           + admissions key rest rl1)%nat
      | (Threw _, _) => 0
      end
  | CallCleanup now :: rest =>
      match cleanup now rl with
      | Returned rl1 => admissions key rest rl1
      | Threw _ => 0
      end
  end.

(** How [waitForLimit] stands after the clock readings it was given. *)
Inductive Waiting : Type :=
| CameBack (sleeps : list Z) (rl : RateLimiter)
| StillWaiting (sleeps : list Z) (rl : RateLimiter)
| WaitThrew (e : JSError).

(** The [setTimeout] of one round of the loop, after a refusal that left
    [rl]: [None] when the round does not sleep. *)
Definition wait_round (svc identifier : jsstring) (config : RateLimitConfig)
    (now : Z) (rl : RateLimiter) : option Z :=
  match window rl (make_key svc identifier) with
  | [] => Some 1000
  | oldestRequest :: _ =>
      let waitTime := windowMs config - (now - timestamp oldestRequest) in
      if decide (0 < waitTime) then Some (Z.min waitTime 1000) else None
  end.

Definition add_sleep (d : option Z) (w : Waiting) : Waiting :=
  match d, w with
  | Some d, CameBack sleeps rl => CameBack (d :: sleeps) rl
  | Some d, StillWaiting sleeps rl => StillWaiting (d :: sleeps) rl
  | _, _ => w
  end.

(** One round of the loop of [waitForLimit].  The limiter is the shared
    singleton and the loop gives up control twice a round, at the [await]
    of [checkLimit] and at the [await] of [setTimeout]: meanwhile other
    requests call [checkLimit] and the timer runs [cleanup].  A round names
    the clock reading inside [checkLimit], the calls made by others before
    the loop reads the window, the clock reading of [waitTime], and the
    calls made by others while the loop sleeps. *)
Record Round : Type := mkRound {
  check_time : Z;
  others_after_check : list Call;
  wait_time : Z;
  others_during_sleep : list Call
}.

(** A call made by somebody else.  A [checkLimit] that throws rejects the
    other request and leaves the limiter as it was.  A [cleanup] that
    throws is an uncaught exception of the timer: there is no limiter to go
    on with. *)
Definition other_call (c : Call) (rl : RateLimiter) : option RateLimiter :=
  match c with
  | CallCheckLimit svc identifier now => Some (checkLimit svc identifier now rl).2
  | CallCleanup now =>
      match cleanup now rl with
      | Returned rl1 => Some rl1
      | Threw _ => None
      end
  end.

Fixpoint meanwhile (calls : list Call) (rl : RateLimiter) : option RateLimiter :=
  match calls with
  | [] => Some rl
  | c :: rest =>
      match other_call c rl with
      | Some rl1 => meanwhile rest rl1
      | None => None
      end
  end.

(** The loop of [waitForLimit], with the [config] read before it.  The
    result lists the delays handed to [setTimeout], in order.  The loop is
    still waiting when the rounds run out before [checkLimit] admits, and
    also when the timer's exception has ended the process. *)
Fixpoint waitForLimit_loop (svc identifier : jsstring) (config : option RateLimitConfig)
    (rounds : list Round) (rl : RateLimiter) : Waiting :=
  match rounds with
  | [] => StillWaiting [] rl
  | round :: rest =>
      match checkLimit svc identifier (check_time round) rl with
      | (Threw e, _) => WaitThrew e
      | (Returned true, rl1) => CameBack [] rl1
      | (Returned false, rl1) =>
          match meanwhile (others_after_check round) rl1 with
          | None => StillWaiting [] rl1
          | Some rl2 =>
              match config with
              | None => WaitThrew (undefined_read "windowMs")
              | Some config' =>
                  match wait_round svc identifier config' (wait_time round) rl2 with
                  | Some delay =>
                      add_sleep (Some delay)
                        match meanwhile (others_during_sleep round) rl2 with
                        | None => StillWaiting [] rl2
                        | Some rl3 => waitForLimit_loop svc identifier config rest rl3
                        end
                  | None => waitForLimit_loop svc identifier config rest rl2
                  end
              end
          end
      end
  end.

(** [waitForLimit(service, identifier)] *)
Definition waitForLimit (svc identifier : jsstring) (rounds : list Round)
    (rl : RateLimiter) : Waiting :=
  waitForLimit_loop svc identifier (getConfig rl svc) rounds rl.

(** The calls others make during the rounds. *)
Definition others_of (round : Round) : list Call :=
  others_after_check round ++ others_during_sleep round.

(** A call of somebody else that is no [checkLimit] on [key]. *)
Definition leaves_key_alone (key : jsstring) (c : Call) : Prop :=
  match c with
  | CallCheckLimit svc identifier _ => make_key svc identifier ≠ key
  | CallCleanup _ => True
  end.

(** A call of somebody else that, when it is a [checkLimit] on [key], is
    one for the service [svc]. *)
Definition on_key_for_service (svc key : jsstring) (c : Call) : Prop :=
  match c with
  | CallCheckLimit svc' identifier _ => make_key svc' identifier = key → svc' = svc
  | CallCleanup _ => True
  end.

Definition sleeps_of (w : Waiting) : list Z :=
  match w with
  | CameBack sleeps _ | StillWaiting sleeps _ => sleeps
  | WaitThrew _ => []
  end.

(** The class invariant of the configuration table: the default is there,
    and every configuration is stored under its own service name. *)
Definition configs_wf (rl : RateLimiter) : Prop :=
  is_Some (configs rl !! lit "default")
  ∧ ∀ key config, configs rl !! key = Some config → service config = key.

(** A request body that passes the validation of [POST /api/analyze], sent
    without forwarding headers, and an analysis that answers it. *)
Definition valid_analyze_body : JSValue :=
  JObj [ (lit "sources", JArr [JObj [(lit "type", JStr (lit "text"))]]);
         (lit "topic", JStr (lit "Rate limiting")) ].

Definition valid_analyze_request : AnalyzeRoute.NextRequest :=
  AnalyzeRoute.mkRequest (Returned valid_analyze_body) None None.

Definition counting_analysis (body : JSValue) (n : nat) : Outcome JSValue * nat :=
  (Returned fallback_analysis, S n).

(** The limiter after twenty requests of header-less clients at 100 ms. *)
Definition unknown_client_at_limit : RateLimiter :=
  default new_RateLimiter
    (run_calls (replicate 20 (CallCheckLimit (lit "perplexity") (lit "unknown") 100))
       new_RateLimiter).

(** ** Further code: the two services and POST /api/generate *)

(** [text.split(/\s+/)]: the pieces between the maximal runs of white space.
    A text that starts or ends with white space has an empty first or last
    piece, and the empty text has the one piece ['']. *)
Fixpoint split_whitespace (s : jsstring) : list jsstring :=
  match s with
  | [] => [[]]
  | c :: rest =>
      if AnalyzeRoute.is_whitespace c then
        match rest with
        | c' :: _ =>
            if AnalyzeRoute.is_whitespace c' then split_whitespace rest
            else [] :: split_whitespace rest
        | [] => [[]; []]
        end
      else
        match split_whitespace rest with
        | word :: words => (c :: word) :: words
        | [] => [[c]]
        end
  end.

(** [text.split(/\s+/).filter(word => word.length > 0).length] *)
Definition count_words (s : jsstring) : nat :=
  length (filter (λ word : jsstring, (0 < length word)%nat) (split_whitespace s)).

(** A [ClaudeRequest] as the route builds it. *)
Record ClaudeRequest : Type := mkClaudeRequest {
  sourceAnalysis : JSValue;
  topic : jsstring;
  wordCount : JSValue;
  tone : JSValue;
  targetAudience : JSValue;
  customPrompt : JSValue
}.

Definition failed_to_generate : JSError :=
  PlainError (lit "Failed to generate blog post with Claude").

Definition failed_to_analyze : JSError :=
  PlainError (lit "Failed to analyze sources with Perplexity").

(** The checks [generateBlogWithClaude] makes of the generated article.
    Only a string has [split]. *)
Definition check_generation (blogGeneration : JSValue) : Outcome JSValue :=
  title ← get_prop blogGeneration "title";
  incomplete ← (if truthy title
                then content ← get_prop blogGeneration "content";
                     mret (negb (truthy content))
                else mret true);
  if incomplete : bool
  then Threw (PlainError (lit "Claude generation incomplete - missing title or content"))
  else
    content ← get_prop blogGeneration "content";
    match content with
    | JStr text =>
        if decide (count_words text < 200)%nat
        then Threw (PlainError (lit "Generated content too short (minimum 200 words required)"))
        else Returned blogGeneration
    | _ => Threw (TypeError (lit "blogGeneration.content.split is not a function"))
    end.

Section Services.

Variable JSON_parse : jsstring → Outcome JSValue.
Context {Env : Type}.

(** [this.client.messages.create] on the prompt [buildBlogPrompt] makes of
    the request: the response object ([None] when it is missing) or the
    exception of either, and the effect on the outside world. *)
Variable messages_create : ClaudeRequest → Env → Outcome (option MessageContent) * Env.

(** [ClaudeService.generateBlogPost]: the whole body sits in a [try] whose
    [catch] throws one fixed [Error]. *)
Definition generateBlogPost (request : ClaudeRequest) (env : Env) : Outcome JSValue * Env :=
  let (response, env1) := messages_create request env in
  (try_catch (response ← response; parseBlogResponse JSON_parse response)
     (λ _, Threw failed_to_generate),
   env1).

(** [generateBlogWithClaude] of the generate route; its [catch] rethrows. *)
Definition generateBlogWithClaude (request : ClaudeRequest) (env : Env)
    : Outcome JSValue * Env :=
  let (generated, env1) := generateBlogPost request env in
  (blogGeneration ← generated; check_generation blogGeneration, env1).

(** [axios.post] on the prompt [buildAnalysisPrompt] makes of the request
    [R]: [response.data], or the exception. *)
Context {R : Type}.
Variable axios_post : R → Env → Outcome PerplexityResponse * Env.

(** [PerplexityService.analyzeSources] *)
Definition analyzeSources (request : R) (env : Env) : Outcome JSValue * Env :=
  let (response, env1) := axios_post request env in
  (try_catch (data ← response; parseAnalysisResponse JSON_parse data)
     (λ _, Threw failed_to_analyze),
   env1).

End Services.

Module GenerateRoute.

(** The body of the answer, timestamps and the model name left out. *)
Inductive ResponseBody : Type :=
| ErrorBody (e : ErrorResponse)
| SuccessBody (blog : JSValue) (metadata_topic : jsstring)
    (metadata_wordCount metadata_tone metadata_targetAudience : JSValue).

Record NextResponse : Type := mkResponse {
  status : Z;
  body : ResponseBody
}.

(** The [catch] block of [POST]. *)
Definition error_response (error : JSError) : NextResponse :=
  let apiError := handleAPIError error (lit "generate-api") in
  mkResponse (api_statusCode apiError) (ErrorBody (createErrorResponse (APIError apiError))).

Definition bad_request (message : string) : NextResponse :=
  mkResponse 400 (ErrorBody (createErrorResponse (PlainError (lit message)))).

(** An exception inside the [try] ends in the [catch] block. *)
Definition catching {A S : Type} (o : Outcome A) (st : S)
    (continue : A → NextResponse * S) : NextResponse * S :=
  match o with
  | Returned a => continue a
  | Threw e => (error_response e, st)
  end.

(** [body.topic.trim()]: only a string has [trim]. *)
Definition topic_trim (v : JSValue) : Outcome jsstring :=
  match v with
  | JStr text => Returned (AnalyzeRoute.trim text)
  | _ => Threw (TypeError (lit "body.topic.trim is not a function"))
  end.

Section Route.

Variable JSON_parse : jsstring → Outcome JSValue.
Context {Env : Type}.
Variable messages_create : ClaudeRequest → Env → Outcome (option MessageContent) * Env.

(** [POST(request)] *)
Definition POST (request : AnalyzeRoute.NextRequest) (now_check now_error : Z)
    (st : RateLimiter * Env) : NextResponse * (RateLimiter * Env) :=
  catching (AnalyzeRoute.json request) st (λ body,
  catching (get_prop body "sourceAnalysis") st (λ body_sourceAnalysis,
  if negb (truthy body_sourceAnalysis)
  then (bad_request "Source analysis is required for blog generation", st)
  else
  catching (get_prop body "topic") st (λ body_topic,
  if AnalyzeRoute.topic_invalid body_topic
  then (bad_request "Topic is required and cannot be empty", st)
  else
  catching (topic_trim body_topic) st (λ trimmed,
  catching (get_prop body "wordCount") st (λ body_wordCount,
  catching (get_prop body "tone") st (λ body_tone,
  catching (get_prop body "targetAudience") st (λ body_targetAudience,
  catching (get_prop body "customPrompt") st (λ body_customPrompt,
  let generateRequest :=
    mkClaudeRequest body_sourceAnalysis trimmed
      (or_else body_wordCount (JNum (of_Z 800)))
      (or_else body_tone (JStr (lit "conversational")))
      (or_else body_targetAudience (JStr (lit "general audience")))
      body_customPrompt in
  match withRateLimit (lit "claude") (AnalyzeRoute.clientIP request)
          now_check now_error
          (generateBlogWithClaude JSON_parse messages_create generateRequest) st with
  | (Returned result, st1) =>
      (mkResponse 200
         (SuccessBody result (topic generateRequest) (wordCount generateRequest)
            (tone generateRequest) (targetAudience generateRequest)),
       st1)
  | (Threw e, st1) => (error_response e, st1)
  end)))))))).

End Route.

End GenerateRoute.

(** Whether the article has everything that is shown of it. *)
Definition complete_article (fields : list (jsstring * JSValue)) : Prop :=
  truthy (field_get (lit "title") fields) = true
  ∧ truthy (field_get (lit "content") fields) = true
  ∧ truthy (field_get (lit "metaDescription") fields) = true
  ∧ truthy (field_get (lit "tags") fields) = true
  ∧ truthy (field_get (lit "excerpt") fields) = true.

(** The text has a complete tag: a [<] with a [>] somewhere after it. *)
Definition has_tag (s : jsstring) : Prop :=
  ∃ before after, s = before ++ less_than :: after ∧ greater_than ∈ after.

(** An exception without status code, response or request: what
    [handleAPIError] files under 'Unexpected error'. *)
Definition ordinary_error (e : JSError) : Prop :=
  match e with
  | PlainError _ | TypeError _ => True
  | _ => False
  end.

Definition content_too_short : JSError :=
  PlainError (lit "Generated content too short (minimum 200 words required)").

Definition split_not_a_function : JSError :=
  TypeError (lit "blogGeneration.content.split is not a function").

(** A body that passes the validation of [POST /api/generate], and a model
    that answers without any JSON; the outside world counts the calls. *)
Definition valid_generate_body : JSValue :=
  JObj [ (lit "sourceAnalysis", fallback_analysis);
         (lit "topic", JStr (lit "  Rate limiting ")) ].

Definition valid_generate_request : AnalyzeRoute.NextRequest :=
  AnalyzeRoute.mkRequest (Returned valid_generate_body) None None.

Definition model_without_json (request : ClaudeRequest) (n : nat)
    : Outcome (option MessageContent) * nat :=
  (Returned (Some (ContentBlocks [TextBlock (lit "I am sorry, I cannot write this.")])), S n).

Definition sample_request : ClaudeRequest :=
  mkClaudeRequest fallback_analysis (lit "Rate limiting") (JNum (of_Z 800))
    (JStr (lit "conversational")) (JStr (lit "general audience")) JUndefined.

(** An article of [n] words, and a model that answers with a text holding
    a brace block. *)
Definition article_of_words (n : nat) : list (jsstring * JSValue) :=
  [ (lit "title", JStr (lit "T"));
    (lit "content", JStr (concat (replicate n (lit "word "))));
    (lit "metaDescription", JStr (lit "M"));
    (lit "excerpt", JStr (lit "E")) ].

Definition article_text : jsstring := lit "Here it is: {article}".

Definition model_with_article (request : ClaudeRequest) (calls : nat)
    : Outcome (option MessageContent) * nat :=
  (Returned (Some (ContentBlocks [TextBlock article_text])), S calls).

(** ** Further code: generateMetaOnly (src/lib/claude.ts) *)

Definition fallback_meta : JSValue :=
  JObj [ (lit "metaDescription", JStr (lit "Generated blog post content."));
         (lit "tags", JArr [JStr (lit "blog"); JStr (lit "content")]) ].

(** The text [generateMetaOnly] reads from [response.content]: the text
    blocks of an array, and nothing of a bare string. *)
Definition meta_text (c : MessageContent) : jsstring :=
  match c with
  | ContentBlocks blocks => join_text_blocks blocks
  | _ => []
  end.

Section MetaOnly.

Variable JSON_parse : jsstring → Outcome JSValue.
Context {Env : Type}.

(** [this.client.messages.create] on the prompt made of the content and the
    title. *)
Variable messages_create : jsstring → jsstring → Env → Outcome (option MessageContent) * Env.

Definition generateMetaOnly_try (response : Outcome (option MessageContent)) : Outcome JSValue :=
  response ← response;
  match response with
  | None => Threw (TypeError (lit "Cannot read properties of undefined (reading 'content')"))
  | Some c =>
      match json_match (meta_text c) with
      | Some jsonMatch => JSON_parse jsonMatch
      | None => Threw (PlainError (lit "No valid JSON in response"))
      end
  end.

(** [ClaudeService.generateMetaOnly(content, title)] *)
Definition generateMetaOnly (content title : jsstring) (env : Env) : Outcome JSValue * Env :=
  let (response, env1) := messages_create content title env in
  (try_catch (generateMetaOnly_try response) (λ _, Returned fallback_meta), env1).

End MetaOnly.

(** ** Further code: publishing (src/components/wordpress-export.tsx,
       src/components/ai-editor.tsx, src/unnamed/part_003) *)

Module Publishing.

(** The export panel: the store, the article it was given, the credentials
    typed for a custom site, and the requests that have not come back. *)
Record Panel : Type := mkPanel {
  wordpress : Workflow.WordPressState;
  blogGeneration : JSValue;
  url : jsstring;
  username : jsstring;
  password : jsstring;
  tests_pending : nat;
  publishes_pending : nat
}.

(** The setters of the store: [set({ field })]. *)
Definition setDefaultSite (x : option Workflow.WordPressSiteInfo)
    (w : Workflow.WordPressState) : Workflow.WordPressState :=
  Workflow.mkWordPress x (Workflow.customSite w) (Workflow.useCustomSite w)
    (Workflow.publishStatus w).
Definition setCustomSite (x : option Workflow.WordPressSiteInfo)
    (w : Workflow.WordPressState) : Workflow.WordPressState :=
  Workflow.mkWordPress (Workflow.defaultSite w) x (Workflow.useCustomSite w)
    (Workflow.publishStatus w).
Definition setUseCustomSite (x : bool)
    (w : Workflow.WordPressState) : Workflow.WordPressState :=
  Workflow.mkWordPress (Workflow.defaultSite w) (Workflow.customSite w) x
    (Workflow.publishStatus w).
Definition setPublishStatus (x : Workflow.PublishStatus)
    (w : Workflow.WordPressState) : Workflow.WordPressState :=
  Workflow.mkWordPress (Workflow.defaultSite w) (Workflow.customSite w)
    (Workflow.useCustomSite w) x.

Definition with_wordpress (w : Workflow.WordPressState) (p : Panel) : Panel :=
  mkPanel w (blogGeneration p) (url p) (username p) (password p)
    (tests_pending p) (publishes_pending p).

(** What happens to the panel.
    - [DefaultSiteLoaded]: [loadDefaultSite] found a site;
    - [SwitchCustomSite]: the 'Custom Site' switch;
    - [TypeCredentials]: the three inputs, [ArticleGiven]: the article prop;
    - [ClickTest] is [testCustomSite] before its fetch, [TestSettled] the
      part after it, with the [siteInfo] of a successful test;
    - [ClickPublish] is [publishToWordPress], and [handleWordPressExport] of
      the editor, before the fetch; [PublishSettled] the part after it. *)
Inductive Event : Type :=
| DefaultSiteLoaded (site : Workflow.WordPressSiteInfo)
| SwitchCustomSite (use : bool)
| TypeCredentials (url username password : jsstring)
| ArticleGiven (article : JSValue)
| ClickTest
| TestSettled (siteInfo : option Workflow.WordPressSiteInfo)
| ClickPublish
| PublishSettled (success : bool).

Definition empty_string (s : jsstring) : bool :=
  match s with [] => true | _ => false end.

(** One event; [None] when it cannot happen in this state: the button is
    disabled, the handler returns at its guard, or no request of that kind
    is under way. *)
Definition step (e : Event) (p : Panel) : option Panel :=
  let w := wordpress p in
  match e with
  | DefaultSiteLoaded site => Some (with_wordpress (setDefaultSite (Some site) w) p)
  | SwitchCustomSite use => Some (with_wordpress (setUseCustomSite use w) p)
  | TypeCredentials u n pw =>
      Some (mkPanel w (blogGeneration p) u n pw (tests_pending p) (publishes_pending p))
  | ArticleGiven article =>
      Some (mkPanel w article (url p) (username p) (password p)
              (tests_pending p) (publishes_pending p))
  | ClickTest =>
      if bool_decide (Workflow.publishStatus w = Workflow.publish_testing) then None
      else if empty_string (url p) || empty_string (username p) || empty_string (password p)
      then None
      else Some (mkPanel (setPublishStatus Workflow.publish_testing w) (blogGeneration p)
                   (url p) (username p) (password p)
                   (S (tests_pending p)) (publishes_pending p))
  | TestSettled siteInfo =>
      match tests_pending p with
      | O => None
      | S pending =>
          let w1 :=
            match siteInfo with
            | Some site => setPublishStatus Workflow.publish_idle (setCustomSite (Some site) w)
            | None => setPublishStatus Workflow.publish_error w
            end in
          Some (mkPanel w1 (blogGeneration p) (url p) (username p) (password p)
                  pending (publishes_pending p))
      end
  | ClickPublish =>
      if negb (truthy (blogGeneration p)) || negb (Workflow.canPublish w) then None
      else Some (mkPanel (setPublishStatus Workflow.publish_publishing w) (blogGeneration p)
                   (url p) (username p) (password p)
                   (tests_pending p) (S (publishes_pending p)))
  | PublishSettled success =>
      match publishes_pending p with
      | O => None
      | S pending =>
          Some (mkPanel
                  (setPublishStatus
                     (if success then Workflow.publish_success else Workflow.publish_error) w)
                  (blogGeneration p) (url p) (username p) (password p)
                  (tests_pending p) pending)
      end
  end.

Fixpoint run (events : list Event) (p : Panel) : option Panel :=
  match events with
  | [] => Some p
  | e :: rest =>
      match step e p with
      | Some p1 => run rest p1
      | None => None
      end
  end.

(** The page as it loads: [initialState] of the store, nothing typed. *)
Definition initial (article : JSValue) : Panel :=
  mkPanel (Workflow.mkWordPress None None false Workflow.publish_idle) article [] [] [] 0 0.

End Publishing.

(** A model call that the service refuses. *)
Definition failing_meta_call (content title : jsstring) (n : nat)
    : Outcome (option MessageContent) * nat :=
  (Threw (ResponseError (lit "Too Many Requests") 429 None None), S n).

Definition publish_twice : list Publishing.Event :=
  [ Publishing.DefaultSiteLoaded (Workflow.mkSite true);
    Publishing.ClickPublish;
    Publishing.PublishSettled false;
    Publishing.SwitchCustomSite true;
    Publishing.TypeCredentials (lit "https://blog.example") (lit "editor") (lit "secret");
    Publishing.ClickTest;
    Publishing.TestSettled (Some (Workflow.mkSite true));
    Publishing.ClickPublish ].

(* ===================================================================== *)
(** * Part II.  Theorems                                                   *)
(* ===================================================================== *)

(** ** Keys, pruning and the configuration table *)

Lemma split_colon_head_app (s t : jsstring) :
  colon_free s → split_colon_head (s ++ colon :: t) = s.
Proof.
  unfold colon_free. induction s as [|c s IH]; intros Hfree; cbn [app split_colon_head].
  - by rewrite decide_True.
  - apply not_elem_of_cons in Hfree as [Hc Hs].
    rewrite decide_False by congruence. by rewrite IH.
Qed.

Lemma split_colon_head_key (svc identifier : jsstring) :
  colon_free svc → split_colon_head (make_key svc identifier) = svc.
Proof. apply split_colon_head_app. Qed.

(** Keys of colon-free services do not collide. *)
Lemma make_key_inj (svc svc' identifier identifier' : jsstring) :
  colon_free svc → colon_free svc' →
  make_key svc identifier = make_key svc' identifier' →
  svc = svc' ∧ identifier = identifier'.
Proof.
  intros Hs Hs' Hkey.
  assert (svc = svc') as ->.
  { rewrite <- (split_colon_head_key svc identifier Hs).
    rewrite <- (split_colon_head_key svc' identifier' Hs'). by rewrite Hkey. }
  split; [done|]. unfold make_key in Hkey.
  apply app_inv_head in Hkey. congruence.
Qed.

Lemma prune_sublist now config reqs : prune now config reqs `sublist_of` reqs.
Proof. apply sublist_filter. Qed.

Lemma prune_length now config reqs :
  (length (prune now config reqs) ≤ length reqs)%nat.
Proof. apply sublist_length, prune_sublist. Qed.

Lemma elem_of_prune now config reqs r :
  r ∈ prune now config reqs ↔ r ∈ reqs ∧ now - timestamp r < windowMs config.
Proof. unfold prune. rewrite list_elem_of_filter. tauto. Qed.

Lemma prune_nil_iff now config reqs :
  prune now config reqs = [] ↔
  Forall (λ r, windowMs config ≤ now - timestamp r) reqs.
Proof.
  unfold prune. induction reqs as [|r reqs IH]; simpl.
  - split; [constructor | done].
  - rewrite filter_cons. destruct (decide (now - timestamp r < windowMs config)).
    + split; [done|]. intros H. inversion H; subst. lia.
    + rewrite IH. split.
      * intros H. constructor; [lia | done].
      * intros H. by inversion H.
Qed.

Lemma prune_all now config reqs :
  Forall (λ r, now - timestamp r < windowMs config) reqs →
  prune now config reqs = reqs.
Proof.
  unfold prune. induction 1 as [|r reqs Hr Hall IH]; [done|].
  rewrite filter_cons, decide_True by done. by rewrite IH.
Qed.

(** On such a window the records that survive pruning are its tail. *)
Lemma prune_suffix_sorted now config reqs :
  sorted_by_timestamp reqs → prune now config reqs `suffix_of` reqs.
Proof.
  unfold sorted_by_timestamp, prune. induction 1 as [|r reqs Hsorted IH Hall]; simpl.
  - done.
  - rewrite filter_cons. destruct (decide (now - timestamp r < windowMs config)) as [Hr|Hr].
    + (* every later record is at least as young *)
      fold (prune now config reqs). rewrite prune_all; [done|].
      eapply Forall_impl; [exact Hall|]. simpl. intros. lia.
    + by apply suffix_cons_r.
Qed.

Lemma getConfig_new_is_Some (svc : jsstring) :
  ∃ config, getConfig new_RateLimiter svc = Some config ∧ 0 ≤ maxRequests config.
Proof.
  unfold getConfig. destruct (configs new_RateLimiter !! svc) as [c|] eqn:Hc.
  - exists c. split; [done|]. unfold new_RateLimiter in Hc. simpl in Hc.
    repeat (apply lookup_insert_Some in Hc as [[_ <-]|[_ Hc]]; [simpl; lia|]).
    by rewrite lookup_empty in Hc.
  - eexists. split; [reflexivity|]. simpl. lia.
Qed.

Lemma window_insert_eq rl key reqs cfgs :
  window {| requests := <[key := reqs]> (requests rl); configs := cfgs |} key = reqs.
Proof. unfold window. simpl. by rewrite lookup_insert_eq. Qed.

Lemma window_insert_ne rl key key' reqs cfgs :
  key ≠ key' →
  window {| requests := <[key := reqs]> (requests rl); configs := cfgs |} key'
  = window rl key'.
Proof. intros. unfold window. simpl. by rewrite lookup_insert_ne. Qed.

(** What [checkLimit] does, by cases on the configuration and the pruned
    window. *)
Lemma checkLimit_unfold svc identifier now rl config :
  getConfig rl svc = Some config →
  checkLimit svc identifier now rl =
    let key := make_key svc identifier in
    let reqs := prune now config (window rl key) in
    if decide (maxRequests config ≤ Z.of_nat (length reqs)) then
      (Returned false, {| requests := <[key := reqs]> (requests rl); configs := configs rl |})
    else
      (Returned true,
       {| requests := <[key := reqs ++ [mkRecord now 1]]> (requests rl);
          configs := configs rl |}).
Proof. intros H. unfold checkLimit. by rewrite H. Qed.

Lemma checkLimit_configs svc identifier now rl :
  configs (checkLimit svc identifier now rl).2 = configs rl.
Proof.
  unfold checkLimit. destruct (getConfig rl svc); [|done].
  simpl. by case_decide.
Qed.

Lemma getConfig_ext rl rl' svc :
  configs rl' = configs rl → getConfig rl' svc = getConfig rl svc.
Proof. unfold getConfig. by intros ->. Qed.

(** ** checkLimit *)

(** The configuration that applies and the stored list, read off the two
    tables. *)
Lemma getConfig_lookup rl svc config :
  configs rl !! svc = Some config
  ∨ (configs rl !! svc = None ∧ configs rl !! lit "default" = Some config) →
  getConfig rl svc = Some config.
Proof. unfold getConfig. by intros [->|[-> ->]]. Qed.

Lemma window_lookup rl svc identifier stored :
  requests rl !! (svc ++ lit ":" ++ identifier) = Some stored
  ∨ (requests rl !! (svc ++ lit ":" ++ identifier) = None ∧ stored = []) →
  window rl (make_key svc identifier) = stored.
Proof.
  intros H. unfold window, make_key.
  change (svc ++ colon :: identifier) with (svc ++ lit ":" ++ identifier).
  unfold jsstring in *. by destruct H as [->|[-> ->]].
Qed.

Lemma prune_discards now config stored :
  prune now config stored
  = filter (λ r, ¬ (now - timestamp r >= windowMs config)) stored.
Proof. unfold prune. apply list_filter_iff. intros r. lia. Qed.

(** C2.  Let [config] be the configuration stored for [service], or the
    default one when there is none, and [stored] the list the table holds
    under the key [service + ':' + identifier] (the empty list when it holds
    none).  A call [checkLimit(service, identifier)] at clock reading [now]
    first discards from [stored] every record with
    [now - timestamp >= windowMs]; the records [kept] are the others, in
    their stored order.  When at least [maxRequests] records are kept, it
    returns [false] and stores [kept] and nothing else under the key;
    otherwise it stores [kept] followed by one record
    [{timestamp: now, count: 1}] and returns [true].  No other key and no
    configuration changes. *)
Theorem checkLimit_prunes_then_decides (svc identifier : jsstring) (now : Z)
    (rl : RateLimiter) (config : RateLimitConfig) (stored : list RequestRecord) :
  configs rl !! svc = Some config
  ∨ (configs rl !! svc = None ∧ configs rl !! lit "default" = Some config) →
  requests rl !! (svc ++ lit ":" ++ identifier) = Some stored
  ∨ (requests rl !! (svc ++ lit ":" ++ identifier) = None ∧ stored = []) →
  let kept := filter (λ r, ¬ (now - timestamp r >= windowMs config)) stored in
  kept `sublist_of` stored
  ∧ (∀ r, r ∈ kept ↔ r ∈ stored ∧ ¬ (now - timestamp r >= windowMs config))
  ∧ (Z.of_nat (length kept) >= maxRequests config →
     checkLimit svc identifier now rl =
       (Returned false,
        {| requests := <[svc ++ lit ":" ++ identifier := kept]> (requests rl);
           configs := configs rl |}))
  ∧ (Z.of_nat (length kept) < maxRequests config →
     checkLimit svc identifier now rl =
       (Returned true,
        {| requests := <[svc ++ lit ":" ++ identifier := kept ++ [mkRecord now 1]]>
                         (requests rl);
           configs := configs rl |})).
Proof.
  intros Hcfg Hstored kept.
  apply getConfig_lookup in Hcfg. apply window_lookup in Hstored.
  split; [apply sublist_filter|].
  split; [intros r; unfold kept; rewrite list_elem_of_filter; tauto|].
  rewrite (checkLimit_unfold _ _ _ _ _ Hcfg). cbn zeta.
  rewrite Hstored, prune_discards. fold kept.
  change (make_key svc identifier) with (svc ++ lit ":" ++ identifier).
  split; intros Hlen; case_decide; first [done | lia].
Qed.

(** A client of the research service with twenty requests on record, all
    made at 100 ms: a call at 500 ms discards nothing and is refused, the
    stored list unchanged.  And a client with nineteen requests made at
    100 ms and one at 50000 ms: a call at 60150 ms discards the nineteen,
    keeps the one and is let through. *)
Lemma checkLimit_prunes_then_decides_witness :
  (∃ rl,
     run_calls (replicate 20 (CallCheckLimit (lit "perplexity") (lit "10.0.0.1") 100))
       new_RateLimiter = Some rl
     ∧ requests rl !! lit "perplexity:10.0.0.1" = Some (replicate 20 (mkRecord 100 1))
     ∧ checkLimit (lit "perplexity") (lit "10.0.0.1") 500 rl
       = (Returned false,
          {| requests := <[lit "perplexity:10.0.0.1" := replicate 20 (mkRecord 100 1)]>
                           (requests rl);
             configs := configs rl |}))
  ∧ (∃ rl,
       run_calls (replicate 19 (CallCheckLimit (lit "perplexity") (lit "10.0.0.1") 100)
                  ++ [CallCheckLimit (lit "perplexity") (lit "10.0.0.1") 50000])
         new_RateLimiter = Some rl
       ∧ requests rl !! lit "perplexity:10.0.0.1"
         = Some (replicate 19 (mkRecord 100 1) ++ [mkRecord 50000 1])
       ∧ checkLimit (lit "perplexity") (lit "10.0.0.1") 60150 rl
         = (Returned true,
            {| requests := <[lit "perplexity:10.0.0.1" :=
                               [mkRecord 50000 1; mkRecord 60150 1]]> (requests rl);
               configs := configs rl |})).
Proof.
  split.
  - destruct (run_calls (replicate 20 (CallCheckLimit (lit "perplexity") (lit "10.0.0.1") 100))
                new_RateLimiter) as [rl|] eqn:Hrun;
      [|vm_compute in Hrun; discriminate Hrun].
    assert (configs rl !! lit "perplexity" = Some (mkConfig 20 60000 (lit "perplexity"))
            ∧ requests rl !! lit "perplexity:10.0.0.1" = Some (replicate 20 (mkRecord 100 1)))
      as [Hcfg Hstored].
    { vm_compute in Hrun. injection Hrun as <-. split; vm_compute; reflexivity. }
    exists rl. split; [done|]. split; [done|].
    destruct (checkLimit_prunes_then_decides (lit "perplexity") (lit "10.0.0.1") 500
                rl (mkConfig 20 60000 (lit "perplexity")) (replicate 20 (mkRecord 100 1))
                (or_introl Hcfg) (or_introl Hstored))
      as (_ & _ & Hrefuse & _).
    apply Hrefuse. vm_compute. discriminate.
  - destruct (run_calls (replicate 19 (CallCheckLimit (lit "perplexity") (lit "10.0.0.1") 100)
                         ++ [CallCheckLimit (lit "perplexity") (lit "10.0.0.1") 50000])
                new_RateLimiter) as [rl|] eqn:Hrun;
      [|vm_compute in Hrun; discriminate Hrun].
    assert (configs rl !! lit "perplexity" = Some (mkConfig 20 60000 (lit "perplexity"))
            ∧ requests rl !! lit "perplexity:10.0.0.1"
              = Some (replicate 19 (mkRecord 100 1) ++ [mkRecord 50000 1]))
      as [Hcfg Hstored].
    { vm_compute in Hrun. injection Hrun as <-. split; vm_compute; reflexivity. }
    exists rl. split; [done|]. split; [done|].
    destruct (checkLimit_prunes_then_decides (lit "perplexity") (lit "10.0.0.1") 60150
                rl (mkConfig 20 60000 (lit "perplexity"))
                (replicate 19 (mkRecord 100 1) ++ [mkRecord 50000 1])
                (or_introl Hcfg) (or_introl Hstored))
      as (_ & _ & _ & Hadmit).
    apply Hadmit. vm_compute. reflexivity.
Defined.

(** ** getResetTime *)


(** On a window in timestamp order the first record, the one
    [getResetTime] reads, carries the least timestamp. *)
Lemma first_record_is_oldest (oldest : RequestRecord) (rest : list RequestRecord) :
  sorted_by_timestamp (oldest :: rest) →
  ∀ r, r ∈ oldest :: rest → timestamp oldest ≤ timestamp r.
Proof.
  intros Hsorted r Hr. apply StronglySorted_inv in Hsorted as [_ Hall].
  apply elem_of_cons in Hr as [->|Hr]; [lia|].
  by apply (proj1 (Forall_forall _ _) Hall).
Qed.

(** ** cleanup *)

Lemma getConfig_is_Some rl svc :
  is_Some (configs rl !! lit "default") → is_Some (getConfig rl svc).
Proof. unfold getConfig. intros H. by destruct (configs rl !! svc). Qed.

Lemma cleanup_lookup now rl rl' key :
  cleanup now rl = Returned rl' →
  requests rl' !! key = requests rl !! key ≫= cleanup_entry rl now key
  ∧ configs rl' = configs rl.
Proof.
  unfold cleanup. case_decide; [|done]. intros [= <-]. simpl.
  by rewrite map_lookup_imap.
Qed.

Lemma cleanup_returns now rl :
  is_Some (configs rl !! lit "default") → ∃ rl', cleanup now rl = Returned rl'.
Proof.
  intros Hdefault. unfold cleanup. rewrite decide_True; [eauto|].
  intros key reqs _ [_ Hnone].
  destruct (getConfig_is_Some rl (split_colon_head key) Hdefault). congruence.
Qed.

Lemma cleanup_keeps_unexpired_aux now rl :
  is_Some (configs rl !! lit "default") →
  ∃ rl', cleanup now rl = Returned rl' ∧ configs rl' = configs rl
    ∧ ∀ key, requests rl' !! key = requests rl !! key ≫= cleanup_entry rl now key.
Proof.
  intros Hdefault. destruct (cleanup_returns now rl Hdefault) as [rl' Hrl'].
  exists rl'. split; [done|]. split; [by apply (cleanup_lookup now rl rl' [])|].
  intros key. by apply cleanup_lookup.
Qed.

(** C8, as the code has it.  [cleanup()] at clock reading [now] returns
    normally on a limiter that has a default configuration, leaves the
    configuration table as it was and adds no key.  For a key with stored
    records [reqs] and [config] the configuration of the key's service (the
    key up to its first colon): the key is deleted exactly when every record
    has aged past [windowMs]; otherwise its list becomes the list of its
    unexpired records, each unchanged and in the stored order.  That list is
    a suffix of the stored one when the stored timestamps are in
    non-decreasing order. *)
Theorem cleanup_keeps_unexpired (now : Z) (rl : RateLimiter) :
  is_Some (configs rl !! lit "default") →
  ∃ rl',
    cleanup now rl = Returned rl'
    ∧ configs rl' = configs rl
    ∧ (∀ key, requests rl !! key = None → requests rl' !! key = None)
    ∧ (∀ key reqs config,
         requests rl !! key = Some reqs →
         getConfig rl (split_colon_head key) = Some config →
         (requests rl' !! key = None ↔
          Forall (λ r, windowMs config ≤ now - timestamp r) reqs)
         ∧ requests rl' !! key =
             match prune now config reqs with
             | [] => None
             | kept => Some kept
             end
         ∧ prune now config reqs `sublist_of` reqs
         ∧ (∀ r, r ∈ prune now config reqs ↔
                 r ∈ reqs ∧ now - timestamp r < windowMs config)
         ∧ (sorted_by_timestamp reqs → prune now config reqs `suffix_of` reqs)).
Proof.
  intros Hdefault. destruct (cleanup_returns now rl Hdefault) as [rl' Hrl'].
  exists rl'. split; [done|].
  split; [by apply (cleanup_lookup now rl rl' [])|].
  split.
  - intros key Hkey. destruct (cleanup_lookup now rl rl' key Hrl') as [-> _].
    by rewrite Hkey.
  - intros key reqs config Hkey Hcfg.
    destruct (cleanup_lookup now rl rl' key Hrl') as [Hlook _].
    rewrite Hkey in Hlook. simpl in Hlook.
    unfold cleanup_entry, cleanup_valid in Hlook. rewrite Hcfg in Hlook.
    split; [|split; [exact Hlook|split; [apply prune_sublist|split]]].
    + rewrite Hlook, <- prune_nil_iff.
      by destruct (prune now config reqs).
    + apply elem_of_prune.
    + apply prune_suffix_sorted.
Qed.

(** Two requests a minute ago and just now, cleaned up: the old one goes. *)
Lemma cleanup_keeps_unexpired_witness :
  ∃ rl',
    cleanup 66000
      {| requests := {[ lit "claude:10.0.0.1" := [mkRecord 5000 1; mkRecord 65000 1] ]};
         configs := configs new_RateLimiter |} = Returned rl'
    ∧ requests rl' !! lit "claude:10.0.0.1" = Some [mkRecord 65000 1].
Proof.
  destruct (cleanup_keeps_unexpired 66000
              {| requests := {[ lit "claude:10.0.0.1" := [mkRecord 5000 1; mkRecord 65000 1] ]};
                 configs := configs new_RateLimiter |})
    as (rl' & Hrun & _ & _ & Hkeys).
  - vm_compute. eexists. reflexivity.
  - exists rl'. split; [exact Hrun|].
    destruct (Hkeys (lit "claude:10.0.0.1") [mkRecord 5000 1; mkRecord 65000 1]
                (mkConfig 50 60000 (lit "claude"))) as (_ & Hlook & _);
      [vm_compute; reflexivity | vm_compute; reflexivity |].
    exact Hlook.
Defined.

(** C8 as stated fails on a window whose timestamps are out of order, which
    a clock set back between two requests produces: after requests at 70000
    and then at 5000, a clean-up at 66000 keeps the first record and drops
    the second.  What is kept is not a suffix of the stored list. *)
Lemma cleanup_suffix_counterexample :
  (rl ← run_calls [CallCheckLimit (lit "claude") (lit "10.0.0.1") 70000;
                   CallCheckLimit (lit "claude") (lit "10.0.0.1") 5000] new_RateLimiter;
   Some (window rl (lit "claude:10.0.0.1")))
  = Some [mkRecord 70000 1; mkRecord 5000 1]
  ∧ (rl ← run_calls [CallCheckLimit (lit "claude") (lit "10.0.0.1") 70000;
                     CallCheckLimit (lit "claude") (lit "10.0.0.1") 5000;
                     CallCleanup 66000] new_RateLimiter;
     Some (window rl (lit "claude:10.0.0.1")))
    = Some [mkRecord 70000 1]
  ∧ ¬ ([mkRecord 70000 1] `suffix_of` [mkRecord 70000 1; mkRecord 5000 1]).
Proof.
  split; [vm_compute; reflexivity|]. split; [vm_compute; reflexivity|].
  intros [k Hk]. destruct k as [|a [|b [|c k]]]; simplify_eq.
Qed.

(** ** The capacity of a window *)

Lemma getConfig_within_capacity rl svc :
  within_capacity rl →
  ∃ config, getConfig rl svc = Some config ∧ 0 ≤ maxRequests config.
Proof.
  intros [Hcfg _]. destruct (getConfig_new_is_Some svc) as (config & H & Hpos).
  exists config. by rewrite (getConfig_ext new_RateLimiter rl svc Hcfg).
Qed.

Lemma window_within_capacity rl svc identifier config :
  within_capacity rl → colon_free svc → getConfig rl svc = Some config →
  Z.of_nat (length (window rl (make_key svc identifier))) ≤ maxRequests config.
Proof.
  intros Hinv Hfree Hcfg. unfold window.
  destruct (requests rl !! make_key svc identifier) as [reqs|] eqn:Hreqs; simpl.
  - destruct Hinv as [_ Hcap]. apply (Hcap _ _ _ Hreqs).
    by rewrite split_colon_head_key.
  - destruct (getConfig_within_capacity rl svc Hinv) as (c & Hc & Hpos).
    assert (c = config) as -> by congruence. simpl. lia.
Qed.

Lemma new_within_capacity : within_capacity new_RateLimiter.
Proof.
  split; [done|]. intros key reqs config Hkey.
  unfold new_RateLimiter in Hkey. simpl in Hkey. by rewrite lookup_empty in Hkey.
Qed.

Lemma checkLimit_within_capacity svc identifier now rl :
  colon_free svc → within_capacity rl →
  ∃ admitted, (checkLimit svc identifier now rl).1 = Returned admitted
  ∧ within_capacity (checkLimit svc identifier now rl).2.
Proof.
  intros Hfree Hinv.
  destruct (getConfig_within_capacity rl svc Hinv) as (config & Hcfg & Hpos).
  pose proof (window_within_capacity rl svc identifier config Hinv Hfree Hcfg) as Hwin.
  pose proof (prune_length now config (window rl (make_key svc identifier))) as Hprune.
  rewrite (checkLimit_unfold _ _ _ _ _ Hcfg). cbn zeta.
  destruct Hinv as [Hcfgs Hcap].
  case_decide as Hfull; simpl; (eexists; split; [reflexivity|]); (split; [done|]);
    intros key reqs c Hkey Hc; simpl in *;
    change (getConfig rl (split_colon_head key) = Some c) in Hc;
    (destruct (decide (key = make_key svc identifier)) as [->|Hne];
     [ rewrite lookup_insert_eq in Hkey; injection Hkey as <-;
       rewrite split_colon_head_key in Hc by done;
       assert (c = config) as -> by congruence
     | rewrite lookup_insert_ne in Hkey by done; by eapply Hcap ]).
  - lia.
  - rewrite length_app. simpl. lia.
Qed.

Lemma cleanup_within_capacity now rl :
  within_capacity rl →
  ∃ rl', cleanup now rl = Returned rl' ∧ within_capacity rl'.
Proof.
  intros Hinv.
  assert (is_Some (configs rl !! lit "default")) as Hdefault.
  { destruct Hinv as [-> _]. vm_compute. eauto. }
  destruct (cleanup_keeps_unexpired_aux now rl Hdefault) as (rl' & Hrun & Hcfgs & Hlook).
  exists rl'. split; [done|]. destruct Hinv as [Hcfg Hcap].
  split; [congruence|].
  intros key kept config Hkey Hc.
  rewrite (getConfig_ext rl rl' _ Hcfgs) in Hc.
  rewrite Hlook in Hkey.
  destruct (requests rl !! key) as [reqs|] eqn:Hreqs; [|done]. simpl in Hkey.
  unfold cleanup_entry, cleanup_valid in Hkey. rewrite Hc in Hkey.
  assert (kept = prune now config reqs) as ->.
  { destruct (prune now config reqs); congruence. }
  pose proof (prune_length now config reqs). specialize (Hcap _ _ _ Hreqs Hc). lia.
Qed.

Lemma run_calls_within_capacity calls rl :
  Forall call_service_colon_free calls → within_capacity rl →
  ∃ rl', run_calls calls rl = Some rl' ∧ within_capacity rl'.
Proof.
  intros Hcalls. revert rl. induction Hcalls as [|c calls Hc _ IH]; intros rl Hinv.
  - by exists rl.
  - simpl. destruct c as [svc identifier now|now]; simpl in *.
    + destruct (checkLimit_within_capacity svc identifier now rl Hc Hinv)
        as (admitted & Hres & Hinv').
      destruct (checkLimit svc identifier now rl) as [res rl1]. simpl in *. subst res.
      by apply IH.
    + destruct (cleanup_within_capacity now rl Hinv) as (rl1 & -> & Hinv').
      by apply IH.
Qed.

(** C1, as the code has it.  Start from [new RateLimiter()] and make any
    sequence of [checkLimit] calls and clean-up runs, at any clock readings,
    in which every service name is free of [':'] (the names the routes pass
    are).  No call throws, and afterwards, for every colon-free service and
    every identifier, the stored window of that key holds at most the
    [maxRequests] configured for the service; so at any time at most
    [maxRequests] of its timestamps are younger than [windowMs]. *)
Theorem rate_window_capacity (calls : list Call) :
  Forall call_service_colon_free calls →
  ∃ rl,
    run_calls calls new_RateLimiter = Some rl
    ∧ ∀ svc identifier config,
        colon_free svc → getConfig rl svc = Some config →
        Z.of_nat (length (window rl (make_key svc identifier))) ≤ maxRequests config
        ∧ ∀ now,
            Z.of_nat (young now config (window rl (make_key svc identifier)))
            ≤ maxRequests config.
Proof.
  intros Hcalls.
  destruct (run_calls_within_capacity calls new_RateLimiter Hcalls new_within_capacity)
    as (rl & Hrun & Hinv).
  exists rl. split; [done|]. intros svc identifier config Hfree Hcfg.
  pose proof (window_within_capacity rl svc identifier config Hinv Hfree Hcfg) as Hwin.
  split; [done|]. intros now. unfold young.
  pose proof (prune_length now config (window rl (make_key svc identifier))). lia.
Qed.

Lemma colon_free_perplexity : colon_free (lit "perplexity").
Proof. unfold colon_free. apply (bool_decide_unpack _). vm_compute. exact I. Defined.

(** Twenty-five requests of one client of the research service within one
    millisecond: twenty are recorded. *)
Lemma rate_window_capacity_witness :
  ∃ rl,
    run_calls (replicate 25 (CallCheckLimit (lit "perplexity") (lit "10.0.0.1") 7))
      new_RateLimiter = Some rl
    ∧ Z.of_nat (length (window rl (make_key (lit "perplexity") (lit "10.0.0.1")))) ≤ 20.
Proof.
  destruct (rate_window_capacity
              (replicate 25 (CallCheckLimit (lit "perplexity") (lit "10.0.0.1") 7)))
    as (rl & Hrun & Hcap).
  - apply Forall_replicate. exact colon_free_perplexity.
  - exists rl. split; [exact Hrun|].
    refine (proj1 (Hcap (lit "perplexity") (lit "10.0.0.1")
                     (mkConfig 20 60000 (lit "perplexity")) colon_free_perplexity _)).
    vm_compute in Hrun. injection Hrun as <-. vm_compute. reflexivity.
Defined.

Lemma nondecreasing_replicate (n : nat) (t : Z) : nondecreasing (replicate n t).
Proof.
  induction n as [|n IH]; simpl; [done|]. split; [|done].
  apply Forall_replicate. lia.
Qed.

(** C1 as stated, for every service name, fails on a name with a colon in
    it: the key ["claude:b:c"] is the key of service ["claude"] (50 requests
    a minute) with identifier ["b:c"], and also of the unconfigured service
    ["claude:b"] (the default, 100 a minute) with identifier ["c"].  After
    51 admitted requests of the latter at clock reading 0, the window of the
    former holds 51 timestamps younger than its [windowMs]; a request of the
    former is then refused and leaves all 51 in place. *)
Lemma rate_window_capacity_counterexample :
  nondecreasing
    (call_time <$> replicate 51 (CallCheckLimit (lit "claude:b") (lit "c") 0)
                   ++ [CallCheckLimit (lit "claude") (lit "b:c") 0])
  ∧ make_key (lit "claude:b") (lit "c") = make_key (lit "claude") (lit "b:c")
  ∧ getConfig new_RateLimiter (lit "claude") = Some (mkConfig 50 60000 (lit "claude"))
  ∧ (rl ← run_calls (replicate 51 (CallCheckLimit (lit "claude:b") (lit "c") 0))
            new_RateLimiter;
     Some (young 0 (mkConfig 50 60000 (lit "claude"))
             (window rl (make_key (lit "claude") (lit "b:c")))))
    = Some 51%nat
  ∧ (rl ← run_calls (replicate 51 (CallCheckLimit (lit "claude:b") (lit "c") 0)
                     ++ [CallCheckLimit (lit "claude") (lit "b:c") 0])
            new_RateLimiter;
     Some (young 0 (mkConfig 50 60000 (lit "claude"))
             (window rl (make_key (lit "claude") (lit "b:c")))))
    = Some 51%nat.
Proof.
  split.
  - change (nondecreasing (replicate 52 0)). apply nondecreasing_replicate.
  - repeat split; vm_compute; reflexivity.
Qed.

(** ** Windows recorded on a clock that does not go backwards *)

Lemma prune_sorted now config reqs :
  sorted_by_timestamp reqs → sorted_by_timestamp (prune now config reqs).
Proof.
  unfold sorted_by_timestamp.
  induction 1 as [|r reqs Hsorted IH Hall]; [constructor|].
  unfold prune in *. rewrite filter_cons. case_decide; [|done].
  constructor; [done|].
  apply Forall_forall. intros x Hx. apply list_elem_of_filter in Hx as [_ Hx].
  by apply (proj1 (Forall_forall _ _) Hall).
Qed.

Lemma run_call_recorded_before c calls rl rl1 :
  recorded_before (c :: calls) rl →
  Forall (λ u, call_time c ≤ u) (call_time <$> calls) →
  run_call c rl = Some rl1 →
  recorded_before calls rl1.
Proof.
  intros Hinv Hlater Hrun.
  assert (∀ c', c' ∈ calls → call_time c ≤ call_time c') as Hlater'.
  { intros c' Hc'. apply (proj1 (Forall_forall _ _) Hlater).
    apply list_elem_of_fmap. eauto. }
  destruct c as [svc identifier now|now]; simpl in *.
  - destruct (getConfig rl svc) as [config|] eqn:Hcfg;
      [|unfold checkLimit in Hrun; by rewrite Hcfg in Hrun].
    rewrite (checkLimit_unfold _ _ _ _ _ Hcfg) in Hrun. cbn zeta in Hrun.
    assert (sorted_by_timestamp (window rl (make_key svc identifier))
            ∧ ∀ r c, r ∈ window rl (make_key svc identifier) →
                     c ∈ CallCheckLimit svc identifier now :: calls →
                     timestamp r ≤ call_time c) as [Hsorted Hbound].
    { unfold window.
      destruct (requests rl !! make_key svc identifier) as [reqs|] eqn:Hreqs; simpl.
      - exact (Hinv _ _ Hreqs).
      - split; [constructor|]. intros r c Hr. by apply elem_of_nil in Hr. }
    assert (sorted_by_timestamp
              (prune now config (window rl (make_key svc identifier))
               ++ [mkRecord now 1])) as Hsorted'.
    { apply StronglySorted_app_2.
      - intros x1 x2 Hx1 Hx2. apply list_elem_of_singleton in Hx2 as ->. simpl.
        apply elem_of_prune in Hx1 as [Hx1 _].
        apply (Hbound x1 (CallCheckLimit svc identifier now) Hx1). by left.
      - by apply prune_sorted.
      - repeat constructor. }
    case_decide; injection Hrun as <-; intros key reqs Hkey; simpl in Hkey;
      (destruct (decide (key = make_key svc identifier)) as [->|Hne];
       [ rewrite lookup_insert_eq in Hkey; injection Hkey as <-
       | rewrite lookup_insert_ne in Hkey by done;
         destruct (Hinv key reqs Hkey) as [? Hb]; split; [done|];
         intros r c Hr Hc; apply Hb; [done | by right] ]).
    + split; [by apply prune_sorted|].
      intros r c Hr Hc. apply elem_of_prune in Hr as [Hr _].
      apply Hbound; [done | by right].
    + split; [done|].
      intros r c Hr Hc. apply elem_of_app in Hr as [Hr|Hr].
      * apply elem_of_prune in Hr as [Hr _]. apply Hbound; [done | by right].
      * apply list_elem_of_singleton in Hr as ->. simpl.
        by apply (Hlater' c).
  - destruct (cleanup now rl) as [rl'|] eqn:Hclean; [|done]. injection Hrun as <-.
    intros key kept Hkey.
    destruct (cleanup_lookup now rl rl' key Hclean) as [Hlook _].
    rewrite Hlook in Hkey.
    destruct (requests rl !! key) as [reqs|] eqn:Hreqs; [|done]. simpl in Hkey.
    destruct (Hinv key reqs Hreqs) as [Hsorted Hbound].
    unfold cleanup_entry, cleanup_valid in Hkey.
    destruct (getConfig rl (split_colon_head key)) as [config|]; [|done].
    assert (kept = prune now config reqs) as ->.
    { destruct (prune now config reqs); congruence. }
    split; [by apply prune_sorted|].
    intros r c Hr Hc. apply elem_of_prune in Hr as [Hr _].
    apply Hbound; [done | by right].
Qed.

(** From the constructor's state, calls at clock readings that never go
    backwards leave every window in timestamp order: the windows on which
    [cleanup] keeps a suffix. *)
Lemma run_calls_sorted (calls : list Call) (rl : RateLimiter) :
  nondecreasing (call_time <$> calls) →
  run_calls calls new_RateLimiter = Some rl →
  ∀ key reqs, requests rl !! key = Some reqs → sorted_by_timestamp reqs.
Proof.
  assert (∀ calls rl0 rl,
            recorded_before calls rl0 →
            nondecreasing (call_time <$> calls) →
            run_calls calls rl0 = Some rl →
            recorded_before [] rl) as Hgen.
  { clear. induction calls as [|c calls IH]; intros rl0 rl Hinv Hnd Hrun; simpl in *.
    - by injection Hrun as <-.
    - destruct Hnd as [Hlater Hnd].
      destruct (run_call c rl0) as [rl1|] eqn:Hcall; [|done].
      eapply IH; [|done|done].
      by eapply run_call_recorded_before. }
  intros Hnd Hrun key reqs Hkey.
  eapply (Hgen calls new_RateLimiter rl); [|done|done|done].
  intros k r Hk. unfold new_RateLimiter in Hk. simpl in Hk.
  by rewrite lookup_empty in Hk.
Qed.

(** C7.  Let [config] be the configuration that applies to [service] and
    [stored] the list the table holds under the key
    [service + ':' + identifier] (the empty list when it holds none).
    [getResetTime(service, identifier)] returns [null] exactly when [stored]
    is empty, and otherwise the timestamp of the first record of [stored],
    the request recorded first, plus [windowMs].  That timestamp is the
    oldest one whenever the stored timestamps are in non-decreasing order,
    as they are in every limiter reached from the constructor's by calls
    whose clock readings never go backwards.  The method takes no clock
    reading, so an expired record is used like any other, and the limiter
    it leaves is the one it got. *)
Theorem getResetTime_first_record_plus_window (svc identifier : jsstring)
    (rl : RateLimiter) (config : RateLimitConfig) (stored : list RequestRecord) :
  configs rl !! svc = Some config
  ∨ (configs rl !! svc = None ∧ configs rl !! lit "default" = Some config) →
  requests rl !! (svc ++ lit ":" ++ identifier) = Some stored
  ∨ (requests rl !! (svc ++ lit ":" ++ identifier) = None ∧ stored = []) →
  (getResetTime svc identifier rl).2 = rl
  ∧ ((getResetTime svc identifier rl).1 = Returned None ↔ stored = [])
  ∧ (∀ first rest,
       stored = first :: rest →
       (getResetTime svc identifier rl).1
       = Returned (Some (timestamp first + windowMs config))
       ∧ (sorted_by_timestamp stored →
          ∀ r, r ∈ stored → timestamp first ≤ timestamp r)
       ∧ (∀ calls,
            nondecreasing (call_time <$> calls) →
            run_calls calls new_RateLimiter = Some rl →
            ∀ r, r ∈ stored → timestamp first ≤ timestamp r)).
Proof.
  intros Hcfg Hstored.
  pose proof (window_lookup _ _ _ _ Hstored) as Hwindow.
  apply getConfig_lookup in Hcfg.
  unfold getResetTime. rewrite Hcfg, Hwindow.
  destruct stored as [|first rest]; simpl.
  - repeat split; done.
  - split; [done|]. split; [done|]. intros ? ? [= <- <-].
    split; [done|]. split; [apply first_record_is_oldest|].
    intros calls Hclock Hrun. apply first_record_is_oldest.
    destruct Hstored as [Hstored|[_ ?]]; [|done].
    unfold jsstring in *. exact (run_calls_sorted calls rl Hclock Hrun _ _ Hstored).
Qed.

(** Requests of one client recorded at 1000, 2000 and 3000 ms: the reset
    time is 61000, whatever the clock says by then, and 1000 is the oldest
    timestamp on record. *)
Lemma getResetTime_first_record_plus_window_witness :
  ∃ rl,
    run_calls [CallCheckLimit (lit "claude") (lit "10.0.0.1") 1000;
               CallCheckLimit (lit "claude") (lit "10.0.0.1") 2000;
               CallCheckLimit (lit "claude") (lit "10.0.0.1") 3000] new_RateLimiter
    = Some rl
    ∧ requests rl !! lit "claude:10.0.0.1"
      = Some [mkRecord 1000 1; mkRecord 2000 1; mkRecord 3000 1]
    ∧ (getResetTime (lit "claude") (lit "10.0.0.1") rl).1 = Returned (Some 61000)
    ∧ (getResetTime (lit "claude") (lit "10.0.0.1") rl).2 = rl.
Proof.
  destruct (run_calls [CallCheckLimit (lit "claude") (lit "10.0.0.1") 1000;
                       CallCheckLimit (lit "claude") (lit "10.0.0.1") 2000;
                       CallCheckLimit (lit "claude") (lit "10.0.0.1") 3000]
              new_RateLimiter) as [rl|] eqn:Hrun;
    [|vm_compute in Hrun; discriminate Hrun].
  assert (configs rl !! lit "claude" = Some (mkConfig 50 60000 (lit "claude"))
          ∧ requests rl !! lit "claude:10.0.0.1"
            = Some [mkRecord 1000 1; mkRecord 2000 1; mkRecord 3000 1])
    as [Hcfg Hstored].
  { vm_compute in Hrun. injection Hrun as <-. split; vm_compute; reflexivity. }
  exists rl. split; [done|]. split; [done|].
  destruct (getResetTime_first_record_plus_window (lit "claude") (lit "10.0.0.1") rl
              (mkConfig 50 60000 (lit "claude"))
              [mkRecord 1000 1; mkRecord 2000 1; mkRecord 3000 1]
              (or_introl Hcfg) (or_introl Hstored))
    as (Hsame & _ & Hfirst).
  split; [|exact Hsame].
  exact (proj1 (Hfirst _ _ eq_refl)).
Defined.

(** A clock set back between two requests: the list holds 70000, then 5000.
    The reset time is 130000, the first record plus the window; the oldest
    record plus the window is 65000. *)
Lemma getResetTime_oldest_counterexample :
  ∃ rl,
    run_calls [CallCheckLimit (lit "claude") (lit "10.0.0.1") 70000;
               CallCheckLimit (lit "claude") (lit "10.0.0.1") 5000] new_RateLimiter
    = Some rl
    ∧ requests rl !! lit "claude:10.0.0.1" = Some [mkRecord 70000 1; mkRecord 5000 1]
    ∧ getConfig rl (lit "claude") = Some (mkConfig 50 60000 (lit "claude"))
    ∧ (getResetTime (lit "claude") (lit "10.0.0.1") rl).1 = Returned (Some 130000)
    ∧ (getResetTime (lit "claude") (lit "10.0.0.1") rl).1
      ≠ Returned (Some (timestamp (mkRecord 5000 1) + 60000)).
Proof.
  eexists. split; [vm_compute; reflexivity|].
  split; [vm_compute; reflexivity|]. split; [vm_compute; reflexivity|].
  split; [vm_compute; reflexivity|]. vm_compute. discriminate.
Qed.


(** ** withRateLimit *)

(** [ceil_div a b] is the ceiling of [a / b]. *)
Lemma ceil_div_spec (a b : Z) :
  0 < b → b * (ceil_div a b - 1) < a ≤ b * ceil_div a b.
Proof.
  intros Hb. unfold ceil_div.
  pose proof (Z.div_mod (- a) b ltac:(lia)) as Hdiv.
  pose proof (Z.mod_pos_bound (- a) b Hb) as Hmod.
  nia.
Qed.

Lemma getResetTime_after_refusal svc identifier now rl config :
  getConfig rl svc = Some config → 0 ≤ now →
  (checkLimit svc identifier now rl).1 = Returned false →
  (getResetTime svc identifier (checkLimit svc identifier now rl).2).2
  = (checkLimit svc identifier now rl).2
  ∧ ((getResetTime svc identifier (checkLimit svc identifier now rl).2).1 = Returned None
     ∨ ∃ resetTime,
         (getResetTime svc identifier (checkLimit svc identifier now rl).2).1
         = Returned (Some resetTime) ∧ now < resetTime).
Proof.
  intros Hcfg Hnow. rewrite (checkLimit_unfold _ _ _ _ _ Hcfg). cbn zeta.
  case_decide as Hfull; simpl; [intros _|done].
  unfold getResetTime. rewrite window_insert_eq.
  change (getConfig _ svc) with (getConfig rl svc). rewrite Hcfg.
  destruct (prune now config (window rl (make_key svc identifier)))
    as [|oldest rest] eqn:Hpruned; simpl.
  - split; [done | by left].
  - split; [done|]. right. eexists. split; [done|].
    assert (oldest ∈ prune now config (window rl (make_key svc identifier))) as Hin
      by (rewrite Hpruned; by left).
    apply elem_of_prune in Hin as [_ Hin]. lia.
Qed.

(** C3.  With a configuration for [service] and a clock that reads no
    negative time: when [checkLimit] refuses, [withRateLimit] throws an
    [Error] whose message names the service and the wait time, the ceiling
    of [(resetTime - now) / 1000] for the reset time of the key and 60 when
    [getResetTime] returns [null]; the outside world is as it was and the
    result does not depend on the operation, which is not run.  When
    [checkLimit] admits, the outcome is the outcome of the operation. *)
Theorem withRateLimit_refuses_or_runs {Env T : Type} (svc identifier : jsstring)
    (now_check now_error : Z) (operation : Env → Outcome T * Env)
    (rl : RateLimiter) (env : Env) (config : RateLimitConfig) :
  getConfig rl svc = Some config → 0 ≤ now_check →
  ((checkLimit svc identifier now_check rl).1 = Returned false →
   ∃ waitTime,
     withRateLimit svc identifier now_check now_error operation (rl, env)
     = (Threw (PlainError (lit "Rate limit exceeded for " ++ svc ++
                           lit ". Try again in " ++ show_Z waitTime ++
                           lit " seconds.")),
        ((checkLimit svc identifier now_check rl).2, env))
     ∧ match (getResetTime svc identifier (checkLimit svc identifier now_check rl).2).1 with
       | Returned (Some resetTime) =>
           waitTime = ceil_div (resetTime - now_error) 1000
           ∧ 1000 * (waitTime - 1) < resetTime - now_error ≤ 1000 * waitTime
       | Returned None => waitTime = 60
       | Threw _ => False
       end)
  ∧ ((checkLimit svc identifier now_check rl).1 = Returned true →
     withRateLimit svc identifier now_check now_error operation (rl, env)
     = ((operation env).1, ((checkLimit svc identifier now_check rl).2, (operation env).2))).
Proof.
  intros Hcfg Hnow. split; intros Hcheck.
  - destruct (getResetTime_after_refusal svc identifier now_check rl config Hcfg Hnow Hcheck)
      as [Hsame Hreset].
    unfold withRateLimit.
    destruct (checkLimit svc identifier now_check rl) as [res rl1]. simpl in *. subst res.
    destruct (getResetTime svc identifier rl1) as [reset rl2]. simpl in *. subst rl2.
    destruct Hreset as [->|(resetTime & -> & Hlater)].
    + exists 60. done.
    + exists (ceil_div (resetTime - now_error) 1000).
      rewrite decide_False by lia. split; [done|]. split; [done|].
      apply ceil_div_spec. lia.
  - unfold withRateLimit.
    destruct (checkLimit svc identifier now_check rl) as [res rl1]. simpl in *. subst res.
    by destruct (operation env).
Qed.

(** A client at the limit of the research service: refused, and told to
    wait the 60 seconds until its oldest request leaves the window. *)
Lemma withRateLimit_refuses_or_runs_witness :
  withRateLimit (lit "perplexity") (lit "10.0.0.1") 500 600
    (λ n : nat, (Returned tt, S n))
    (default new_RateLimiter
       (run_calls (replicate 20 (CallCheckLimit (lit "perplexity") (lit "10.0.0.1") 100))
          new_RateLimiter), 0%nat)
  = (Threw (PlainError (lit "Rate limit exceeded for perplexity. Try again in 60 seconds.")),
     (default new_RateLimiter
        (run_calls (replicate 20 (CallCheckLimit (lit "perplexity") (lit "10.0.0.1") 100))
           new_RateLimiter), 0%nat)).
Proof.
  destruct (withRateLimit_refuses_or_runs (lit "perplexity") (lit "10.0.0.1") 500 600
              (λ n : nat, (Returned tt, S n))
              (default new_RateLimiter
                 (run_calls (replicate 20 (CallCheckLimit (lit "perplexity") (lit "10.0.0.1") 100))
                    new_RateLimiter))
              0%nat (mkConfig 20 60000 (lit "perplexity")))
    as [Hrefused _]; [vm_compute; reflexivity | lia |].
  destruct Hrefused as (waitTime & Heq & Hwait); [vm_compute; reflexivity|].
  vm_compute in Hwait. destruct Hwait as [-> _].
  rewrite Heq. vm_compute. reflexivity.
Defined.

(** A record that is still young at the time of a call survives the call:
    no colon-free service other than its own shares its key, and the
    clean-up prunes it with its own service's configuration. *)
Lemma run_call_keeps_record c rl rl1 svc identifier config r :
  colon_free svc → call_service_colon_free c →
  getConfig rl svc = Some config →
  call_time c - timestamp r < windowMs config →
  r ∈ window rl (make_key svc identifier) →
  run_call c rl = Some rl1 →
  getConfig rl1 svc = Some config ∧ r ∈ window rl1 (make_key svc identifier).
Proof.
  intros Hfree Hc Hcfg Hyoung Hin Hrun.
  destruct c as [svc' identifier' now|now]; simpl in *.
  - destruct (getConfig rl svc') as [config'|] eqn:Hcfg';
      [|unfold checkLimit in Hrun; by rewrite Hcfg' in Hrun].
    rewrite (checkLimit_unfold _ _ _ _ _ Hcfg') in Hrun. cbn zeta in Hrun.
    destruct (decide (make_key svc' identifier' = make_key svc identifier)) as [Heq|Hne].
    + destruct (make_key_inj _ _ _ _ Hc Hfree Heq) as [-> ->].
      assert (config' = config) as -> by congruence.
      assert (r ∈ prune now config (window rl (make_key svc identifier))) as Hkept
        by (apply elem_of_prune; done).
      case_decide; injection Hrun as <-; (split; [done|]);
        rewrite window_insert_eq; [done|].
      apply elem_of_app. by left.
    + case_decide; injection Hrun as <-; (split; [done|]);
        by rewrite window_insert_ne.
  - destruct (cleanup now rl) as [rl'|] eqn:Hclean; [|done]. injection Hrun as <-.
    destruct (cleanup_lookup now rl rl' (make_key svc identifier) Hclean) as [Hlook Hcfgs].
    split; [by rewrite (getConfig_ext rl rl' svc Hcfgs)|].
    unfold window in *. rewrite Hlook.
    destruct (requests rl !! make_key svc identifier) as [reqs|]; simpl in *;
      [|by apply elem_of_nil in Hin].
    unfold cleanup_entry, cleanup_valid.
    rewrite split_colon_head_key by done. rewrite Hcfg.
    assert (r ∈ prune now config reqs) as Hkept by (apply elem_of_prune; done).
    by destruct (prune now config reqs).
Qed.

Lemma run_calls_keep_record calls rl rl1 svc identifier config r :
  colon_free svc → Forall call_service_colon_free calls →
  getConfig rl svc = Some config →
  Forall (λ c, call_time c - timestamp r < windowMs config) calls →
  r ∈ window rl (make_key svc identifier) →
  run_calls calls rl = Some rl1 →
  getConfig rl1 svc = Some config ∧ r ∈ window rl1 (make_key svc identifier).
Proof.
  intros Hfree Hcalls. revert rl.
  induction Hcalls as [|c calls Hc _ IH]; intros rl Hcfg Hyoung Hin Hrun; simpl in *.
  - by injection Hrun as <-.
  - inversion Hyoung as [|? ? Hyoung1 Hyoung2]; subst.
    destruct (run_call c rl) as [rl0|] eqn:Hcall; [|done].
    destruct (run_call_keeps_record c rl rl0 svc identifier config r) as [Hcfg0 Hin0];
      try done.
    by apply (IH rl0).
Qed.

(** C10.  Once [checkLimit] has admitted a request at clock reading
    [now_check], the outcome of [withRateLimit] is the outcome of the
    operation, an exception included, and the limiter it leaves is the one
    [checkLimit] left: the record [{timestamp: now_check, count: 1}] is in
    the key's window whether or not the operation failed.  It stays there,
    and every later pruning counts it, through all further calls made before
    [windowMs] has passed since [now_check] (service names free of [':']). *)
Theorem admitted_request_keeps_its_slot {Env T : Type} (svc identifier : jsstring)
    (now_check now_error : Z) (operation : Env → Outcome T * Env)
    (rl : RateLimiter) (env : Env) (config : RateLimitConfig) :
  getConfig rl svc = Some config →
  (checkLimit svc identifier now_check rl).1 = Returned true →
  (withRateLimit svc identifier now_check now_error operation (rl, env)).1
  = (operation env).1
  ∧ (withRateLimit svc identifier now_check now_error operation (rl, env)).2.1
    = (checkLimit svc identifier now_check rl).2
  ∧ mkRecord now_check 1
    ∈ window (withRateLimit svc identifier now_check now_error operation (rl, env)).2.1
        (make_key svc identifier)
  ∧ ∀ calls rl1,
      colon_free svc → Forall call_service_colon_free calls →
      Forall (λ c, call_time c - now_check < windowMs config) calls →
      run_calls calls
        (withRateLimit svc identifier now_check now_error operation (rl, env)).2.1
      = Some rl1 →
      mkRecord now_check 1 ∈ window rl1 (make_key svc identifier)
      ∧ ∀ now, now - now_check < windowMs config →
               mkRecord now_check 1 ∈ prune now config (window rl1 (make_key svc identifier)).
Proof.
  intros Hcfg Hadmit.
  assert ((withRateLimit svc identifier now_check now_error operation (rl, env)).1
          = (operation env).1
          ∧ (withRateLimit svc identifier now_check now_error operation (rl, env)).2.1
            = (checkLimit svc identifier now_check rl).2) as [Hres Hst].
  { unfold withRateLimit.
    destruct (checkLimit svc identifier now_check rl) as [res rl1]. simpl in *. subst res.
    by destruct (operation env). }
  assert (mkRecord now_check 1
          ∈ window (checkLimit svc identifier now_check rl).2 (make_key svc identifier)
          ∧ getConfig (checkLimit svc identifier now_check rl).2 svc = Some config)
    as [Hin Hcfg1].
  { revert Hadmit. rewrite (checkLimit_unfold _ _ _ _ _ Hcfg). cbn zeta.
    case_decide; simpl; [done|]. intros _. split; [|done].
    rewrite window_insert_eq. apply elem_of_app. right. by left. }
  rewrite Hres, Hst. split; [done|]. split; [done|]. split; [done|].
  intros calls rl1 Hfree Hcalls Hyoung Hrun.
  destruct (run_calls_keep_record calls _ rl1 svc identifier config
              (mkRecord now_check 1) Hfree Hcalls Hcfg1 Hyoung Hin Hrun) as [_ Hin1].
  split; [done|].
  intros now Hnow. apply elem_of_prune. by split.
Qed.

(** A request of the research service whose operation fails: the exception
    comes out, and the slot is taken. *)
Lemma admitted_request_keeps_its_slot_witness :
  (withRateLimit (lit "perplexity") (lit "10.0.0.1") 500 600
     failing_operation
     (new_RateLimiter, 0%nat)).1
  = Threw (PlainError (lit "Failed to analyze sources with Perplexity"))
  ∧ mkRecord 500 1
    ∈ window
        (withRateLimit (lit "perplexity") (lit "10.0.0.1") 500 600
           failing_operation
           (new_RateLimiter, 0%nat)).2.1
        (make_key (lit "perplexity") (lit "10.0.0.1")).
Proof.
  destruct (admitted_request_keeps_its_slot (lit "perplexity") (lit "10.0.0.1") 500 600
              failing_operation
              new_RateLimiter 0%nat (mkConfig 20 60000 (lit "perplexity")))
    as (Hres & _ & Hin & _); [vm_compute; reflexivity | vm_compute; reflexivity |].
  split; [exact Hres | exact Hin].
Defined.

(** ** Objects and the tag-stripping scan *)

Lemma field_get_set_eq name x fields :
  field_get name (field_set name x fields) = x.
Proof.
  induction fields as [|[k v] fields IH]; simpl.
  - by rewrite decide_True.
  - destruct (decide (k = name)) as [->|Hne]; simpl.
    + by rewrite decide_True.
    + by rewrite decide_False.
Qed.

Lemma field_get_set_ne name name' x fields :
  name ≠ name' → field_get name' (field_set name x fields) = field_get name' fields.
Proof.
  intros Hne. induction fields as [|[k v] fields IH]; simpl.
  - by rewrite decide_False.
  - destruct (decide (k = name)) as [->|Hk]; simpl.
    + by rewrite !decide_False.
    + destruct (decide (k = name')); [done | exact IH].
Qed.

Lemma after_first_gt_shorter s rest :
  after_first_gt s = Some rest → (length rest < length s)%nat.
Proof.
  revert rest. induction s as [|c s IH]; intros rest; simpl; [done|].
  case_decide.
  - intros [= ->]. lia.
  - intros H'. specialize (IH _ H'). lia.
Qed.

(** The scan never runs out of fuel: more fuel than the length of the
    string changes nothing. *)
Lemma strip_tags_fuel_enough (fuel : nat) (s : jsstring) :
  (length s ≤ fuel)%nat → strip_tags_fuel fuel s = strip_tags s.
Proof.
  unfold strip_tags. remember (length s) as n eqn:Hn.
  assert (length s ≤ n)%nat as Hlen by lia. clear Hn.
  revert s fuel Hlen. induction n as [|n IH]; intros s fuel Hlen Hfuel.
  - destruct s; [|simpl in Hlen; lia]. by destruct fuel.
  - destruct fuel as [|fuel]; [lia|].
    destruct s as [|c s]; [done|]. simpl in *.
    case_decide.
    + destruct (after_first_gt s) as [rest|] eqn:Hrest; [|done].
      apply after_first_gt_shorter in Hrest.
      rewrite (IH rest fuel); [done | lia | lia].
    + rewrite (IH s fuel); [done | lia | lia].
Qed.

Example strip_tags_paragraph :
  strip_tags (lit "<p>Hi <b>there</b></p> 1 < 2") = lit "Hi there 1 < 2".
Proof. vm_compute. reflexivity. Qed.

Example strip_tags_cut_tag : strip_tags (lit "text <a href=") = lit "text <a href=".
Proof. vm_compute. reflexivity. Qed.

Example json_match_greedy :
  json_match (lit "Here: {a}{b} done}.") = Some (lit "{a}{b} done}").
Proof. vm_compute. reflexivity. Qed.

Example json_match_none : json_match (lit "} no object {") = None.
Proof. vm_compute. reflexivity. Qed.

(** ** The response parsers *)

Lemma upto_last_close_None s : upto_last_close s = None ↔ close_brace ∉ s.
Proof.
  induction s as [|c s IH]; simpl.
  - split; [intros _; apply not_elem_of_nil | done].
  - destruct (upto_last_close s) as [r|].
    + split; [done|]. intros Hnot. exfalso.
      apply not_elem_of_cons in Hnot as [_ Hnot]. by apply IH in Hnot.
    + case_decide as Hc.
      * split; [done|]. intros Hnot. exfalso. apply Hnot. subst. by left.
      * split; [|done]. intros _. apply not_elem_of_cons. split; [done|].
        by apply IH.
Qed.

(** The regular expression finds nothing exactly on a text without such a
    block. *)
Lemma json_match_None content : json_match content = None ↔ ¬ has_brace_block content.
Proof.
  unfold has_brace_block. induction content as [|c content IH]; simpl.
  - split; [|done]. intros _ (pre & mid & post & H). by destruct pre.
  - case_decide as Hc.
    + subst c. destruct (upto_last_close content) as [r|] eqn:Hr.
      * split; [done|]. intros Hnot. exfalso.
        assert (close_brace ∈ content) as Hin.
        { destruct (decide (close_brace ∈ content)) as [|Hn]; [done|].
          apply upto_last_close_None in Hn. congruence. }
        apply list_elem_of_split in Hin as (mid & post & ->).
        apply Hnot. by exists [], mid, post.
      * split; [|done]. intros _ (pre & mid & post & H).
        apply upto_last_close_None in Hr.
        destruct pre as [|p pre]; simpl in H; inversion H; subst;
          apply Hr; repeat (rewrite elem_of_app || rewrite elem_of_cons); tauto.
    + rewrite IH. split; intros Hnot (pre & mid & post & H); apply Hnot.
      * destruct pre as [|p pre]; simpl in H; inversion H; subst; [done|].
        by exists pre, mid, post.
      * exists (c :: pre), mid, post. simpl. by rewrite H.
Qed.

Lemma try_catch_returns {A : Type} (body : Outcome A) (fallback : A) :
  ∃ a, try_catch body (λ _, Returned fallback) = Returned a.
Proof. destruct body; simpl; eauto. Qed.

Lemma parseBlogResponse_missing_field JSON_parse c jsonMatch parsed :
  json_match (message_text c) = Some jsonMatch →
  JSON_parse jsonMatch = Returned parsed →
  truthy (prop_of parsed "title") = false
  ∨ truthy (prop_of parsed "content") = false
  ∨ truthy (prop_of parsed "metaDescription") = false →
  parseBlogResponse JSON_parse (Some c) = Returned fallback_blog.
Proof.
  intros Hmatch Hparse Hmissing.
  unfold parseBlogResponse, parseBlogResponse_try. rewrite Hmatch, Hparse.
  unfold prop_of in Hmissing.
  destruct parsed; simpl in *; try done.
  destruct Hmissing as [-> | [-> | ->]]; simpl; try done;
    repeat (match goal with |- context [negb ?b] => destruct b end; simpl; try done).
Qed.

Lemma parseAnalysisResponse_invalid JSON_parse choices content jsonMatch parsed :
  first_choice_content (Some choices) = Returned content →
  json_match content = Some jsonMatch →
  JSON_parse jsonMatch = Returned parsed →
  truthy (prop_of parsed "keyInsights") = false
  ∨ isArray (prop_of parsed "keyInsights") = false →
  parseAnalysisResponse JSON_parse (Some choices) = Returned fallback_analysis.
Proof.
  intros Hcontent Hmatch Hparse Hinvalid.
  unfold parseAnalysisResponse, parseAnalysisResponse_try.
  rewrite Hcontent. simpl. rewrite Hmatch, Hparse.
  unfold prop_of in Hinvalid.
  destruct parsed; simpl in *; try done.
  destruct Hinvalid as [-> | ->]; simpl; try done.
  by destruct (truthy _).
Qed.

(** C4.  Neither parser throws: each returns a value on every response.  On
    a response whose text has no brace block, whose matched block
    [JSON.parse] rejects, or whose parsed value lacks a required field
    ([title], [content] or [metaDescription] falsy for the article;
    [keyInsights] falsy or no array for the analysis), [parseBlogResponse]
    returns the fallback article (title 'Blog Post Generation Failed',
    seoScore 0) and [parseAnalysisResponse] the fallback analysis
    (keyInsights ['Analysis failed - manual review needed']). *)
Theorem parsers_fall_back (JSON_parse : jsstring → Outcome JSValue) :
  (∀ response, ∃ v, parseBlogResponse JSON_parse response = Returned v)
  ∧ (∀ response, ∃ v, parseAnalysisResponse JSON_parse response = Returned v)
  ∧ (∀ c,
       ¬ has_brace_block (message_text c)
       ∨ (∃ jsonMatch,
            json_match (message_text c) = Some jsonMatch
            ∧ ((∃ e, JSON_parse jsonMatch = Threw e)
               ∨ ∃ parsed,
                   JSON_parse jsonMatch = Returned parsed
                   ∧ (truthy (prop_of parsed "title") = false
                      ∨ truthy (prop_of parsed "content") = false
                      ∨ truthy (prop_of parsed "metaDescription") = false))) →
       parseBlogResponse JSON_parse (Some c) = Returned fallback_blog)
  ∧ (∀ choices content,
       first_choice_content (Some choices) = Returned content →
       ¬ has_brace_block content
       ∨ (∃ jsonMatch,
            json_match content = Some jsonMatch
            ∧ ((∃ e, JSON_parse jsonMatch = Threw e)
               ∨ ∃ parsed,
                   JSON_parse jsonMatch = Returned parsed
                   ∧ (truthy (prop_of parsed "keyInsights") = false
                      ∨ isArray (prop_of parsed "keyInsights") = false))) →
       parseAnalysisResponse JSON_parse (Some choices) = Returned fallback_analysis)
  ∧ prop_of fallback_blog "title" = JStr (lit "Blog Post Generation Failed")
  ∧ prop_of fallback_blog "seoScore" = JNum (of_Z 0)
  ∧ prop_of fallback_analysis "keyInsights"
    = JArr [JStr (lit "Analysis failed - manual review needed")].
Proof.
  split; [intros; apply try_catch_returns|].
  split; [intros; apply try_catch_returns|].
  split; [|split; [|by vm_compute]].
  - intros c [Hnone|(jsonMatch & Hmatch & [[e He]|(parsed & Hparse & Hmissing)])].
    + apply json_match_None in Hnone.
      unfold parseBlogResponse, parseBlogResponse_try. by rewrite Hnone.
    + unfold parseBlogResponse, parseBlogResponse_try. by rewrite Hmatch, He.
    + by eapply parseBlogResponse_missing_field.
  - intros choices content Hcontent
      [Hnone|(jsonMatch & Hmatch & [[e He]|(parsed & Hparse & Hinvalid)])].
    + apply json_match_None in Hnone.
      unfold parseAnalysisResponse, parseAnalysisResponse_try.
      rewrite Hcontent. simpl. by rewrite Hnone.
    + unfold parseAnalysisResponse, parseAnalysisResponse_try.
      rewrite Hcontent. simpl. by rewrite Hmatch, He.
    + by eapply parseAnalysisResponse_invalid.
Qed.

(** A refusal in prose, with no JSON in it. *)
Lemma parsers_fall_back_witness :
  parseBlogResponse JSON_parse_rejecting
    (Some (ContentBlocks [TextBlock (lit "I cannot write this post.")]))
  = Returned fallback_blog.
Proof.
  refine (proj1 (proj2 (proj2 (parsers_fall_back JSON_parse_rejecting)))
            (ContentBlocks [TextBlock (lit "I cannot write this post.")]) _).
  left. apply json_match_None. vm_compute. reflexivity.
Defined.

Lemma truthy_or_else a b : truthy b = true → truthy (or_else a b) = true.
Proof. unfold or_else. by destruct (truthy a) eqn:Ha. Qed.

(** C9, as the code has it.  When the response text has a brace block that
    [JSON.parse] reads as an object with truthy [title], [content] and
    [metaDescription], and [content] is a string or [excerpt] is truthy,
    [parseBlogResponse] returns that object with three properties set:
    [tags] to its value or, when falsy, the empty list; [seoScore] to its
    value or, when falsy, 75; [excerpt] to its value or, when falsy, the
    first 200 code units of the content with tags stripped, followed by
    ['...'].  Every other property is as parsed.  The returned [seoScore] is
    never falsy: a reported 0 comes out as 75. *)
Theorem parsed_blog_defaults (JSON_parse : jsstring → Outcome JSValue)
    (c : MessageContent) (jsonMatch : jsstring) (fields : list (jsstring * JSValue)) :
  json_match (message_text c) = Some jsonMatch →
  JSON_parse jsonMatch = Returned (JObj fields) →
  truthy (field_get (lit "title") fields) = true →
  truthy (field_get (lit "content") fields) = true →
  truthy (field_get (lit "metaDescription") fields) = true →
  (∃ s, field_get (lit "content") fields = JStr s)
  ∨ truthy (field_get (lit "excerpt") fields) = true →
  ∃ out,
    parseBlogResponse JSON_parse (Some c) = Returned (JObj out)
    ∧ field_get (lit "tags") out = or_else (field_get (lit "tags") fields) (JArr [])
    ∧ field_get (lit "seoScore") out
      = or_else (field_get (lit "seoScore") fields) (JNum (of_Z 75))
    ∧ (truthy (field_get (lit "excerpt") fields) = true →
       field_get (lit "excerpt") out = field_get (lit "excerpt") fields)
    ∧ (truthy (field_get (lit "excerpt") fields) = false →
       ∀ s, field_get (lit "content") fields = JStr s →
            field_get (lit "excerpt") out = JStr (strip_tags (take 200 s) ++ lit "..."))
    ∧ (∀ name, name ∉ [lit "tags"; lit "seoScore"; lit "excerpt"] →
               field_get name out = field_get name fields)
    ∧ (field_get (lit "seoScore") fields = JNum (of_Z 0) →
       field_get (lit "seoScore") out = JNum (of_Z 75))
    ∧ truthy (field_get (lit "seoScore") out) = true.
Proof.
  intros Hmatch Hparse Htitle Hcontent Hmeta Hexcerpt.
  unfold parseBlogResponse, parseBlogResponse_try. rewrite Hmatch, Hparse.
  cbn [mbind Outcome_bind get_prop set_prop].
  rewrite Htitle, Hcontent, Hmeta. cbn [negb orb].
  set (fields1 := field_set (lit "tags")
                    (or_else (field_get (lit "tags") fields) (JArr [])) fields).
  set (fields2 := field_set (lit "seoScore")
                    (or_else (field_get (lit "seoScore") fields1) (JNum (of_Z 75))) fields1).
  assert (field_get (lit "seoScore") fields1 = field_get (lit "seoScore") fields) as Hs1
    by (apply field_get_set_ne; names_differ).
  assert (field_get (lit "excerpt") fields2 = field_get (lit "excerpt") fields) as He2.
  { unfold fields2, fields1. rewrite !field_get_set_ne by names_differ. done. }
  assert (field_get (lit "content") fields2 = field_get (lit "content") fields) as Hc2.
  { unfold fields2, fields1. rewrite !field_get_set_ne by names_differ. done. }
  assert (field_get (lit "tags") fields2
          = or_else (field_get (lit "tags") fields) (JArr [])) as Ht2.
  { unfold fields2. rewrite field_get_set_ne by names_differ.
    unfold fields1. apply field_get_set_eq. }
  assert (field_get (lit "seoScore") fields2
          = or_else (field_get (lit "seoScore") fields) (JNum (of_Z 75))) as Hs2.
  { unfold fields2. rewrite field_get_set_eq. by rewrite Hs1. }
  assert (∀ x, ∃ out,
            out = field_set (lit "excerpt") x fields2
            ∧ field_get (lit "tags") out
              = or_else (field_get (lit "tags") fields) (JArr [])
            ∧ field_get (lit "seoScore") out
              = or_else (field_get (lit "seoScore") fields) (JNum (of_Z 75))
            ∧ field_get (lit "excerpt") out = x
            ∧ (∀ name, name ∉ [lit "tags"; lit "seoScore"; lit "excerpt"] →
                       field_get name out = field_get name fields)) as Hout.
  { intros x. eexists. split; [reflexivity|].
    rewrite !(field_get_set_ne (lit "excerpt")) by names_differ.
    rewrite field_get_set_eq. repeat split; try done.
    intros name Hname.
    apply not_elem_of_cons in Hname as [Ht Hname].
    apply not_elem_of_cons in Hname as [Hs Hname].
    apply not_elem_of_cons in Hname as [He _].
    unfold fields2, fields1. by rewrite !field_get_set_ne. }
  assert (∀ v, truthy (or_else v (JNum (of_Z 75))) = true) as Hscore
    by (intros v; by apply truthy_or_else).
  rewrite He2, Hc2.
  destruct (truthy (field_get (lit "excerpt") fields)) eqn:Hex.
  - destruct (Hout (field_get (lit "excerpt") fields)) as (out & -> & Ht & Hs & He & Hrest).
    eexists. split; [reflexivity|]. rewrite Ht, Hs, He.
    repeat split; try done. by intros ->.
  - destruct Hexcerpt as [[s Hs]|]; [|done]. rewrite Hs. cbn [default_excerpt].
    destruct (Hout (JStr (strip_tags (take 200 s) ++ lit "...")))
      as (out & -> & Ht & Hsc & He & Hrest).
    eexists. split; [reflexivity|]. rewrite Ht, Hsc, He.
    repeat split; try done.
    + intros s' Hs'. congruence.
    + by intros ->.
Qed.

(** An article reported with score 0 and neither tags nor excerpt. *)
Lemma parsed_blog_defaults_witness :
  parseBlogResponse (JSON_parse_knowing scored_zero_text (JObj scored_zero_fields))
    (Some (ContentBlocks [TextBlock (lit "Here you go: "); TextBlock scored_zero_text]))
  = Returned (JObj [ (lit "title", JStr (lit "T"));
                     (lit "content", JStr (lit "<p>Hello</p>"));
                     (lit "metaDescription", JStr (lit "M"));
                     (lit "seoScore", JNum (of_Z 75));
                     (lit "tags", JArr []);
                     (lit "excerpt", JStr (lit "Hello...")) ]).
Proof.
  destruct (parsed_blog_defaults
              (JSON_parse_knowing scored_zero_text (JObj scored_zero_fields))
              (ContentBlocks [TextBlock (lit "Here you go: "); TextBlock scored_zero_text])
              scored_zero_text scored_zero_fields)
    as (out & Hout & _);
    [vm_compute; reflexivity | vm_compute; reflexivity | vm_compute; reflexivity
    | vm_compute; reflexivity | vm_compute; reflexivity
    | left; eexists; vm_compute; reflexivity |].
  vm_compute. reflexivity.
Defined.

(** C9 as stated fails when [content] is present but no string and the
    excerpt is missing: JSON is found, the three required fields are truthy,
    and yet [substring] is no function of the number 5, so the [catch]
    block answers: the fallback article comes out, with the score 0 and no
    default in it. *)
Lemma parsed_blog_defaults_counterexample :
  json_match numeric_content_text = Some numeric_content_text
  ∧ truthy (field_get (lit "title") numeric_content_fields) = true
  ∧ truthy (field_get (lit "content") numeric_content_fields) = true
  ∧ truthy (field_get (lit "metaDescription") numeric_content_fields) = true
  ∧ parseBlogResponse_try
      (JSON_parse_knowing numeric_content_text (JObj numeric_content_fields))
      (Some (ContentString numeric_content_text))
    = Threw (TypeError (lit "parsed.content.substring is not a function"))
  ∧ parseBlogResponse
      (JSON_parse_knowing numeric_content_text (JObj numeric_content_fields))
      (Some (ContentString numeric_content_text))
    = Returned fallback_blog
  ∧ prop_of fallback_blog "seoScore" = JNum (of_Z 0).
Proof. repeat split; vm_compute; reflexivity. Qed.

(** ** POST /api/analyze *)

Lemma trim_start_nil s :
  AnalyzeRoute.trim_start s = [] ↔ Forall (λ c, AnalyzeRoute.is_whitespace c = true) s.
Proof.
  induction s as [|c s IH]; simpl.
  - split; [constructor | done].
  - destruct (AnalyzeRoute.is_whitespace c) eqn:Hc.
    + rewrite IH. split; [by constructor | by inversion 1].
    + split; [done|]. inversion 1; congruence.
Qed.

Lemma trim_start_Forall s :
  Forall (λ c, AnalyzeRoute.is_whitespace c = true) (AnalyzeRoute.trim_start s) →
  Forall (λ c, AnalyzeRoute.is_whitespace c = true) s.
Proof.
  induction s as [|c s IH]; simpl; [done|].
  destruct (AnalyzeRoute.is_whitespace c) eqn:Hc; [|done].
  intros H. constructor; [done | by apply IH].
Qed.

(** [topic.trim().length === 0] holds exactly of a string of white space. *)
Lemma trim_nil s :
  AnalyzeRoute.trim s = [] ↔ Forall (λ c, AnalyzeRoute.is_whitespace c = true) s.
Proof.
  unfold AnalyzeRoute.trim. split.
  - intros H. apply (f_equal reverse) in H. rewrite reverse_involutive in H.
    change (reverse []) with (@nil N) in H.
    apply trim_start_nil in H. rewrite Forall_reverse in H.
    by apply trim_start_Forall.
  - intros H. apply (proj2 (trim_start_nil s)) in H. rewrite H. done.
Qed.

(** The body fails validation exactly when [sources] is no non-empty
    array, or [topic] is no string with something other than white space. *)
Lemma sources_invalid_iff v :
  AnalyzeRoute.sources_invalid v = false ↔ ∃ item items, v = JArr (item :: items).
Proof.
  unfold AnalyzeRoute.sources_invalid. split.
  - intros H.
    destruct v as [| |b|n|s|[|item items]|fields]; cbn -[truthy] in H;
      rewrite ?orb_true_r in H; try discriminate H.
    eauto.
  - by intros (item & items & ->).
Qed.

Lemma whitespace_or_not s :
  Forall (λ c, AnalyzeRoute.is_whitespace c = true) s
  ∨ Exists (λ c, AnalyzeRoute.is_whitespace c = false) s.
Proof.
  induction s as [|c s [IH|IH]].
  - left. constructor.
  - destruct (AnalyzeRoute.is_whitespace c) eqn:Hc.
    + left. by constructor.
    + right. by left.
  - right. by right.
Qed.

Lemma topic_invalid_iff v :
  AnalyzeRoute.topic_invalid v = false ↔
  ∃ s, v = JStr s ∧ Exists (λ c, AnalyzeRoute.is_whitespace c = false) s.
Proof.
  unfold AnalyzeRoute.topic_invalid. split.
  - intros H.
    destruct v as [| |b|n|s| |]; cbn -[truthy AnalyzeRoute.trim] in H;
      rewrite ?orb_true_r in H; try discriminate H.
    apply orb_false_iff in H as [_ H].
    exists s. split; [done|].
    destruct (AnalyzeRoute.trim s) as [|c rest] eqn:Htrim; [done|].
    destruct (whitespace_or_not s) as [Hall|Hex]; [|done].
    apply (proj2 (trim_nil s)) in Hall. congruence.
  - intros (s & -> & Hex). cbn -[AnalyzeRoute.trim].
    destruct (AnalyzeRoute.trim s) as [|c rest] eqn:Htrim.
    + apply trim_nil in Htrim. exfalso.
      apply Exists_exists in Hex as (x & Hx & Hws).
      apply (proj1 (Forall_forall _ _) Htrim) in Hx. congruence.
    + destruct s; [|done]. by inversion Hex.
Qed.

(** The part of C6 the code keeps: a body other than [null] that fails the
    validation is answered with status 400, before the limiter is touched
    and before the analysis is called. *)
Lemma POST_rejects_invalid_body {Env R : Type}
    (analyzeSourcesWithPerplexity : JSValue → Env → Outcome R * Env)
    (request : AnalyzeRoute.NextRequest) (now_check now_error : Z)
    (st : RateLimiter * Env) (body : JSValue) :
  AnalyzeRoute.json request = Returned body →
  body ≠ JNull → body ≠ JUndefined →
  AnalyzeRoute.sources_invalid (prop_of body "sources") = true
  ∨ AnalyzeRoute.topic_invalid (prop_of body "topic") = true →
  AnalyzeRoute.status
    (AnalyzeRoute.POST analyzeSourcesWithPerplexity request now_check now_error st).1 = 400
  ∧ (AnalyzeRoute.POST analyzeSourcesWithPerplexity request now_check now_error st).2 = st.
Proof.
  intros Hjson Hnull Hundef Hinvalid. unfold AnalyzeRoute.POST. rewrite Hjson.
  unfold prop_of in Hinvalid.
  destruct (get_prop body "sources") as [sources|e] eqn:Hsources;
    [|by destruct body].
  destruct (AnalyzeRoute.sources_invalid sources) eqn:Hs; [done|].
  destruct (get_prop body "topic") as [topic|e] eqn:Htopic; [|by destruct body].
  destruct Hinvalid as [|Ht]; [done|]. by rewrite Ht.
Qed.

(** No body, valid or not, that fails the validation or cannot be read
    costs a slot of the window. *)
Lemma POST_invalid_consumes_no_slot {Env R : Type}
    (analyzeSourcesWithPerplexity : JSValue → Env → Outcome R * Env)
    (request : AnalyzeRoute.NextRequest) (now_check now_error : Z)
    (st : RateLimiter * Env) :
  match AnalyzeRoute.json request with
  | Threw _ => True
  | Returned body =>
      AnalyzeRoute.sources_invalid (prop_of body "sources") = true
      ∨ AnalyzeRoute.topic_invalid (prop_of body "topic") = true
  end →
  (AnalyzeRoute.POST analyzeSourcesWithPerplexity request now_check now_error st).2 = st.
Proof.
  unfold AnalyzeRoute.POST, prop_of.
  destruct (AnalyzeRoute.json request) as [body|e]; [|done].
  destruct (get_prop body "sources") as [sources|e] eqn:Hsources; [|done].
  destruct (AnalyzeRoute.sources_invalid sources) eqn:Hs; [done|].
  destruct (get_prop body "topic") as [topic|e] eqn:Htopic; [|done].
  intros [|Ht]; [done|]. by rewrite Ht.
Qed.

(** C6 at the body [null]: [sources] is missing, and the route answers with
    status 500.  Reading [body.sources] throws a [TypeError], which the
    [catch] block turns into an 'Unexpected error': no 400.  No slot of the
    window is used. *)
Theorem POST_null_body_answers_500 {Env R : Type}
    (analyzeSourcesWithPerplexity : JSValue → Env → Outcome R * Env)
    (forwarded real : option jsstring) (now_check now_error : Z)
    (st : RateLimiter * Env) :
  AnalyzeRoute.sources_invalid (prop_of JNull "sources") = true
  ∧ AnalyzeRoute.POST analyzeSourcesWithPerplexity
      (AnalyzeRoute.mkRequest (Returned JNull) forwarded real) now_check now_error st
    = (AnalyzeRoute.mkResponse 500
         (AnalyzeRoute.ErrorBody
            (mkErrorResponse
               (lit "Unexpected error in analyze-api: Cannot read properties of null (reading 'sources')")
               (Some (lit "analyze-api")) (Some 500))),
       st).
Proof. split; reflexivity. Qed.

(** ** The workflow: export only after both stages *)

Section WorkflowInvariant.
Import Workflow.

Lemma no_failure_snoc events e :
  no_failure events →
  (∀ message, e ≠ AnalysisSettled (Failed message)
              ∧ e ≠ GenerationSettled (Failed message)) →
  no_failure (events ++ [e]).
Proof.
  intros Hno He message. destruct (Hno message) as [Ha Hg].
  destruct (He message) as [Hea Heg].
  split; intros Hin; apply elem_of_app in Hin as [Hin|Hin]; try done;
    apply list_elem_of_singleton in Hin; congruence.
Qed.

Lemma analysis_succeeded_snoc events e :
  analysis_succeeded events → analysis_succeeded (events ++ [e]).
Proof. intros [a Ha]. exists a. apply elem_of_app. by left. Qed.

Lemma both_stages_succeeded_snoc events e :
  both_stages_succeeded events → both_stages_succeeded (events ++ [e]).
Proof.
  intros (pre & a & mid & b & post & ->).
  exists pre, a, mid, b, (post ++ [e]).
  by rewrite <- !app_assoc, <- !app_comm_cons, <- !app_assoc.
Qed.

Lemma both_stages_succeeded_now events b :
  analysis_succeeded events →
  both_stages_succeeded (events ++ [GenerationSettled (Succeeded b)]).
Proof.
  intros [a Ha]. apply list_elem_of_split in Ha as (pre & mid & ->).
  exists pre, a, mid, b, []. by rewrite <- app_assoc.
Qed.

Lemma stages_done_snoc events e s :
  stages_done events s → stages_done (events ++ [e]) s.
Proof.
  intros (? & ? & ? & ? & ? & ?).
  split; [done|]. split; [done|].
  split; [by apply both_stages_succeeded_snoc|]. done.
Qed.

(** Every event that can happen preserves the invariant. *)
Lemma step_preserves_invariant events e ed ed1 :
  editor_invariant events ed →
  step e ed = Some ed1 →
  editor_invariant (events ++ [e]) ed1.
Proof.
  intros (Hfail & Hana & Hgen & Hsa & Hdone) Hstep.
  destruct e as [l|t| |r| |r]; simpl in Hstep.
  - (* SetSources *)
    injection Hstep as <-. unfold editor_invariant. store_fields.
    split; [destruct Hfail as [|Hno]; [by left|]; right; by apply no_failure_snoc|].
    split; [done|]. split; [done|].
    split; [intros H; by apply analysis_succeeded_snoc, Hsa|].
    intros H. apply Hdone in H. by apply stages_done_snoc.
  - (* SetTopic *)
    injection Hstep as <-. unfold editor_invariant. store_fields.
    split; [destruct Hfail as [|Hno]; [by left|]; right; by apply no_failure_snoc|].
    split; [done|]. split; [done|].
    split; [intros H; by apply analysis_succeeded_snoc, Hsa|].
    intros H. apply Hdone in H. by apply stages_done_snoc.
  - (* ClickAnalyze *)
    destruct (canAnalyze (store ed) && negb (isAnalyzing ed)) eqn:Hguard; [|done].
    injection Hstep as <-.
    apply andb_prop in Hguard as [Hcan _]. unfold canAnalyze in Hcan.
    apply andb_prop in Hcan as [_ Hidle]. apply bool_decide_eq_true in Hidle.
    unfold editor_invariant. store_fields.
    split; [right; destruct Hfail as [|Hno]; [congruence|]; by apply no_failure_snoc|].
    split; [done|].
    split; [intros H; apply Hgen in H as [H _]; congruence|].
    split; [intros H; by apply analysis_succeeded_snoc, Hsa|].
    intros [H|[H|H]]; try done.
    assert (stages_done events (store ed)) as (? & _) by (apply Hdone; by left).
    congruence.
  - (* AnalysisSettled *)
    destruct (isAnalyzing ed) eqn:Hflag; [|done].
    pose proof (Hana eq_refl) as Hstatus.
    assert (isGenerating ed = true → False) as Hnogen
      by (intros H; apply Hgen in H as [H _]; congruence).
    assert (truthy (blogGeneration (store ed)) = true → False) as Hnoblog.
    { intros H. assert (stages_done events (store ed)) as (? & _)
        by (apply Hdone; by left). congruence. }
    assert (currentStep (store ed) = step_completed → False) as Hnostep.
    { intros H. assert (stages_done events (store ed)) as (? & _)
        by (apply Hdone; right; by left). congruence. }
    destruct r as [a|message]; injection Hstep as <-;
      unfold editor_invariant; store_fields.
    + split; [right; destruct Hfail as [|Hno]; [congruence|]; by apply no_failure_snoc|].
      split; [done|]. split; [intros H; by destruct Hnogen|].
      split; [intros _; exists a; apply elem_of_app; right; by left|].
      intros [H|[H|H]]; try done; by destruct Hnoblog.
    + split; [by left|]. split; [done|]. split; [intros H; by destruct Hnogen|].
      split; [intros H; by apply analysis_succeeded_snoc, Hsa|].
      intros [H|[H|H]]; try done; first [by destruct Hnoblog | by destruct Hnostep].
  - (* ClickGenerate *)
    destruct (canGenerate (store ed) && truthy (sourceAnalysis (store ed))
              && negb (isGenerating ed)) eqn:Hguard; [|done].
    injection Hstep as <-.
    apply andb_prop in Hguard as [Hguard _]. apply andb_prop in Hguard as [Hcan Htruthy].
    unfold canGenerate in Hcan. apply andb_prop in Hcan as [Hcan Hidle].
    apply andb_prop in Hcan as [_ Hclean]. apply negb_true_iff in Hclean.
    apply bool_decide_eq_true in Hidle.
    unfold editor_invariant. store_fields.
    split; [right; destruct Hfail as [|Hno]; [congruence|]; by apply no_failure_snoc|].
    split; [intros H; apply Hana in H; congruence|].
    split; [done|].
    split; [intros H; by apply analysis_succeeded_snoc, Hsa|].
    intros [H|[H|H]]; try done.
    + assert (stages_done events (store ed)) as (? & _) by (apply Hdone; by left).
      congruence.
    + assert (stages_done events (store ed)) as (? & _)
        by (apply Hdone; right; by left). congruence.
  - (* GenerationSettled *)
    destruct (isGenerating ed) eqn:Hflag; [|done].
    destruct (Hgen eq_refl) as (Hstatus & Htruthy & Hclean & Hgenerr).
    assert (isAnalyzing ed = true → False) as Hnoana
      by (intros H; apply Hana in H; congruence).
    assert (truthy (blogGeneration (store ed)) = true → False) as Hnoblog.
    { intros H. assert (stages_done events (store ed)) as (? & _)
        by (apply Hdone; by left). congruence. }
    assert (currentStep (store ed) = step_completed → False) as Hnostep.
    { intros H. assert (stages_done events (store ed)) as (? & _)
        by (apply Hdone; right; by left). congruence. }
    destruct r as [b|message]; injection Hstep as <-;
      unfold editor_invariant; store_fields.
    + split; [right; destruct Hfail as [|Hno]; [congruence|]; by apply no_failure_snoc|].
      split; [intros H; by destruct Hnoana|]. split; [done|].
      split; [intros H; by apply analysis_succeeded_snoc, Hsa|].
      intros _. unfold stages_done. store_fields.
      split; [done|]. split; [done|].
      split; [by apply both_stages_succeeded_now, Hsa|]. done.
    + split; [by left|]. split; [intros H; by destruct Hnoana|]. split; [done|].
      split; [intros H; by apply analysis_succeeded_snoc, Hsa|].
      intros [H|[H|H]]; try done; first [by destruct Hnoblog | by destruct Hnostep].
Qed.

Lemma run_preserves_invariant events pre ed ed1 :
  editor_invariant pre ed →
  run events ed = Some ed1 →
  editor_invariant (pre ++ events) ed1.
Proof.
  revert pre ed. induction events as [|e events IH]; intros pre ed Hinv Hrun; simpl in Hrun.
  - injection Hrun as <-. by rewrite app_nil_r.
  - destruct (step e ed) as [ed0|] eqn:Hstep; [|done].
    replace (pre ++ e :: events) with ((pre ++ [e]) ++ events)
      by (by rewrite <- app_assoc).
    eapply IH; [|done]. by eapply step_preserves_invariant.
Qed.

End WorkflowInvariant.

(** C5.  Let the workflow store start with no analysis and no article, not
    on the last step and not completed, and let the editor mount on it.
    After any sequence of events, if the status card shows 'Ready to
    Publish' as active or completed, or export is offered (an article is
    there and [canPublish()] holds), then the events contain a successful
    analysis followed by a successful generation and no failed request, and
    the store says so: status and step are [completed], the analysis is
    there and neither error is set.  So no state reached while a stage is
    pending, not yet run or failed shows the step or offers export. *)
Theorem export_only_after_both_stages (init : Workflow.WorkflowStore)
    (events : list Workflow.Event) (ed : Workflow.Editor)
    (w : Workflow.WordPressState) :
  truthy (Workflow.sourceAnalysis init) = false →
  truthy (Workflow.blogGeneration init) = false →
  Workflow.currentStep init ≠ Workflow.step_completed →
  Workflow.status init ≠ Workflow.completed →
  Workflow.run events (Workflow.mount init) = Some ed →
  Workflow.ready_to_publish_shown (Workflow.store ed) = true
  ∨ Workflow.export_offered (Workflow.store ed) w = true →
  Workflow.both_stages_succeeded events
  ∧ no_failure events
  ∧ Workflow.status (Workflow.store ed) = Workflow.completed
  ∧ Workflow.currentStep (Workflow.store ed) = Workflow.step_completed
  ∧ truthy (Workflow.sourceAnalysis (Workflow.store ed)) = true
  ∧ Workflow.truthy_message (Workflow.analysisError (Workflow.store ed)) = false
  ∧ Workflow.generationError (Workflow.store ed) = None.
Proof.
  intros Hsa Hblog Hstep Hstatus Hrun Hshown.
  assert (editor_invariant [] (Workflow.mount init)) as Hinit.
  { unfold editor_invariant. simpl.
    split; [right; intros m; split; apply not_elem_of_nil|].
    split; [done|]. split; [done|].
    split; [congruence|]. intros [H|[H|H]]; congruence. }
  pose proof (run_preserves_invariant events [] _ _ Hinit Hrun) as Hinv.
  simpl in Hinv. destruct Hinv as (Hfail & _ & _ & _ & Hdone).
  assert (stages_done events (Workflow.store ed)) as (Hs & Hc & Hboth & Htruthy & Ha & Hg).
  { apply Hdone. destruct Hshown as [Hshown|Hoffer].
    - unfold Workflow.ready_to_publish_shown, Workflow.isActive, Workflow.isCompleted in Hshown.
      apply orb_prop in Hshown as [Hshown|Hshown].
      + apply bool_decide_eq_true in Hshown. right. by left.
      + apply orb_prop in Hshown as [Hshown|Hshown].
        * unfold Workflow.getCurrentStepIndex in Hshown.
          by destruct (Workflow.currentStep (Workflow.store ed)).
        * apply bool_decide_eq_true in Hshown. right. by right.
    - unfold Workflow.export_offered in Hoffer.
      apply andb_prop in Hoffer as [Hoffer _]. by left. }
  split; [done|]. split; [|done].
  destruct Hfail as [Herr|Hno]; [congruence | done].
Qed.

(** Sources and topic, analysis, generation: export is offered, and both
    stages are in the history. *)
Lemma export_only_after_both_stages_witness :
  (ed ← Workflow.run full_run (Workflow.mount fresh_store);
   Some (Workflow.export_offered (Workflow.store ed) connected_site)) = Some true
  ∧ Workflow.both_stages_succeeded full_run.
Proof.
  split; [vm_compute; reflexivity|].
  destruct (Workflow.run full_run (Workflow.mount fresh_store)) as [ed|] eqn:Hrun;
    [|vm_compute in Hrun; discriminate Hrun].
  refine (proj1 (export_only_after_both_stages fresh_store full_run ed connected_site
                   _ _ _ _ Hrun _)); try (vm_compute; reflexivity); try discriminate.
  right. vm_compute in Hrun. injection Hrun as <-. vm_compute. reflexivity.
Defined.

(* ===================================================================== *)
(** * Part III.  Further properties of the code                            *)
(* ===================================================================== *)

(** ** The limiter: remaining requests, recovery, configuration *)

Lemma prune_app now config l1 l2 :
  prune now config (l1 ++ l2) = prune now config l1 ++ prune now config l2.
Proof. unfold prune. apply filter_app. Qed.

Lemma prune_idemp now config reqs :
  prune now config (prune now config reqs) = prune now config reqs.
Proof.
  apply prune_all. apply Forall_forall. intros r Hr.
  by apply elem_of_prune in Hr as [_ Hr].
Qed.

(** X1.  With a configuration for the service, [getRemainingRequests]
    returns a number that is never negative and is 0 exactly when
    [checkLimit], called at the same clock reading, would refuse; above 0 it
    is [maxRequests] minus the number of unexpired records. *)
Theorem remaining_zero_iff_refused (svc identifier : jsstring) (now : Z)
    (rl : RateLimiter) (config : RateLimitConfig) :
  getConfig rl svc = Some config →
  ∃ n,
    getRemainingRequests svc identifier now rl = Returned n
    ∧ 0 ≤ n
    ∧ (n = 0 ↔ (checkLimit svc identifier now rl).1 = Returned false)
    ∧ (n ≠ 0 ↔ (checkLimit svc identifier now rl).1 = Returned true)
    ∧ (0 < n →
       n = maxRequests config
           - Z.of_nat (young now config (window rl (make_key svc identifier)))).
Proof.
  intros Hcfg. unfold getRemainingRequests. rewrite Hcfg.
  rewrite (checkLimit_unfold _ _ _ _ _ Hcfg). cbn zeta. unfold young.
  eexists. split; [reflexivity|]. split; [lia|].
  case_decide as Hfull; simpl.
  - split; [split; [done | lia]|]. split; [split; [lia | done]|]. lia.
  - split; [split; [lia | done]|]. split; [split; [done | lia]|]. lia.
Qed.

Lemma remaining_zero_iff_refused_witness :
  getRemainingRequests (lit "claude") (lit "10.0.0.1") 1000 new_RateLimiter = Returned 50
  ∧ (checkLimit (lit "claude") (lit "10.0.0.1") 1000 new_RateLimiter).1 = Returned true.
Proof.
  destruct (remaining_zero_iff_refused (lit "claude") (lit "10.0.0.1") 1000
              new_RateLimiter (mkConfig 50 60000 (lit "claude")))
    as (n & Hn & _ & _ & Hadmit & _); [vm_compute; reflexivity|].
  split; [vm_compute; reflexivity|].
  apply Hadmit. vm_compute in Hn. injection Hn as <-. discriminate.
Defined.

(** X2.  With a positive [windowMs], an admitted request costs exactly one:
    right after a [checkLimit] that returned [true], [getRemainingRequests]
    at the same clock reading returns one less than it did before. *)
Theorem admitted_request_costs_one (svc identifier : jsstring) (now : Z)
    (rl : RateLimiter) (config : RateLimitConfig) (before : Z) :
  getConfig rl svc = Some config →
  0 < windowMs config →
  (checkLimit svc identifier now rl).1 = Returned true →
  getRemainingRequests svc identifier now rl = Returned before →
  getRemainingRequests svc identifier now (checkLimit svc identifier now rl).2
  = Returned (before - 1).
Proof.
  intros Hcfg Hwindow. rewrite (checkLimit_unfold _ _ _ _ _ Hcfg). cbn zeta.
  case_decide as Hfull; simpl; [done|]. intros _.
  unfold getRemainingRequests.
  change (getConfig _ svc) with (getConfig rl svc). rewrite Hcfg.
  rewrite window_insert_eq. intros [= <-]. f_equal.
  rewrite prune_app, prune_idemp.
  assert (prune now config [mkRecord now 1] = [mkRecord now 1]) as ->.
  { apply prune_all. constructor; [simpl; lia | constructor]. }
  rewrite length_app. simpl. lia.
Qed.

Lemma admitted_request_costs_one_witness :
  getRemainingRequests (lit "claude") (lit "10.0.0.1") 1000
    (checkLimit (lit "claude") (lit "10.0.0.1") 1000 new_RateLimiter).2
  = Returned 49.
Proof.
  apply (admitted_request_costs_one (lit "claude") (lit "10.0.0.1") 1000
           new_RateLimiter (mkConfig 50 60000 (lit "claude")) 50);
    [vm_compute; reflexivity | reflexivity | vm_compute; reflexivity
    | vm_compute; reflexivity].
Defined.

Lemma checkLimit_expired_window (svc identifier : jsstring) (now : Z)
    (rl : RateLimiter) (config : RateLimitConfig) :
  getConfig rl svc = Some config →
  0 < maxRequests config →
  Forall (λ r, windowMs config ≤ now - timestamp r) (window rl (make_key svc identifier)) →
  checkLimit svc identifier now rl
  = (Returned true,
     {| requests := <[make_key svc identifier := [mkRecord now 1]]> (requests rl);
        configs := configs rl |}).
Proof.
  intros Hcfg Hmax Hexpired. rewrite (checkLimit_unfold _ _ _ _ _ Hcfg). cbn zeta.
  apply prune_nil_iff in Hexpired. rewrite Hexpired. simpl.
  by rewrite decide_False by lia.
Qed.

(** X3.  Refusals end on their own: with [maxRequests] above 0, a call made
    at a clock reading at which every stored record of the key has aged past
    [windowMs] is admitted, and the key's window is then the new record
    alone. *)
Theorem expired_window_admits (svc identifier : jsstring) (now : Z)
    (rl : RateLimiter) (config : RateLimitConfig) :
  getConfig rl svc = Some config →
  0 < maxRequests config →
  Forall (λ r, windowMs config ≤ now - timestamp r) (window rl (make_key svc identifier)) →
  checkLimit svc identifier now rl
  = (Returned true,
     {| requests := <[make_key svc identifier := [mkRecord now 1]]> (requests rl);
        configs := configs rl |}).
Proof. apply checkLimit_expired_window. Qed.

Lemma expired_window_admits_witness :
  (checkLimit (lit "perplexity") (lit "10.0.0.1") 60100
     (default new_RateLimiter
        (run_calls (replicate 20 (CallCheckLimit (lit "perplexity") (lit "10.0.0.1") 100))
           new_RateLimiter))).1
  = Returned true.
Proof.
  rewrite (expired_window_admits (lit "perplexity") (lit "10.0.0.1") 60100 _
             (mkConfig 20 60000 (lit "perplexity")));
    [reflexivity | vm_compute; reflexivity | reflexivity |].
  apply (bool_decide_unpack _). vm_compute. exact I.
Defined.

Lemma setConfig_wf svc config rl :
  configs_wf rl → ∃ rl1, setConfig svc config rl = Some rl1 ∧ configs_wf rl1
                         ∧ requests rl1 = requests rl.
Proof.
  intros [Hdefault Hkeys]. unfold setConfig.
  destruct (getConfig_is_Some rl svc Hdefault) as [existing ->]. simpl.
  assert (∃ m w,
            match p_maxRequests config with Some z => Some z | None => Some (maxRequests existing) end
            = Some m
            ∧ match p_windowMs config with Some z => Some z | None => Some (windowMs existing) end
              = Some w) as (m & w & -> & ->).
  { destruct (p_maxRequests config), (p_windowMs config); eauto. }
  eexists. split; [reflexivity|]. split; [|done]. split; simpl.
  - destruct (decide (svc = lit "default")) as [->|Hne].
    + rewrite lookup_insert_eq. eauto.
    + by rewrite lookup_insert_ne.
  - intros key c Hc. destruct (decide (svc = key)) as [->|Hne].
    + rewrite lookup_insert_eq in Hc. by injection Hc as <-.
    + rewrite lookup_insert_ne in Hc by done. by apply Hkeys.
Qed.

Lemma run_method_wf m rl :
  configs_wf rl → ∃ rl1, run_method m rl = Some rl1 ∧ configs_wf rl1.
Proof.
  intros Hwf. pose proof Hwf as [Hdefault Hkeys].
  destruct m as [svc config|svc identifier now|svc identifier now|svc identifier|now]; simpl.
  - destruct (setConfig_wf svc config rl Hwf) as (rl1 & -> & Hwf1 & _). eauto.
  - destruct (getConfig_is_Some rl svc Hdefault) as [config Hcfg].
    rewrite (checkLimit_unfold _ _ _ _ _ Hcfg). cbn zeta.
    case_decide; eexists; (split; [reflexivity|]); done.
  - destruct (getConfig_is_Some rl svc Hdefault) as [config Hcfg].
    unfold getRemainingRequests. rewrite Hcfg. eauto.
  - destruct (getConfig_is_Some rl svc Hdefault) as [config Hcfg].
    unfold getResetTime. rewrite Hcfg.
    destruct (window rl (make_key svc identifier)); eauto.
  - destruct (cleanup_keeps_unexpired_aux now rl Hdefault) as (rl1 & -> & Hcfgs & _).
    exists rl1. split; [done|]. unfold configs_wf. by rewrite Hcfgs.
Qed.

(** X4.  The non-null assertion on the default configuration is safe: from
    [new RateLimiter()], whatever sequence of [setConfig], [checkLimit],
    [getRemainingRequests], [getResetTime] and [cleanup] calls is made, with
    whatever arguments, no call throws; the default configuration is always
    there and every stored configuration carries the name of the service it
    is stored under. *)
Theorem limiter_methods_never_throw (ms : list Method) :
  ∃ rl,
    run_methods ms new_RateLimiter = Some rl
    ∧ is_Some (configs rl !! lit "default")
    ∧ (∀ svc, is_Some (getConfig rl svc))
    ∧ ∀ key config, configs rl !! key = Some config → service config = key.
Proof.
  assert (∀ ms rl, configs_wf rl →
                   ∃ rl1, run_methods ms rl = Some rl1 ∧ configs_wf rl1) as Hgen.
  { clear. induction ms as [|m ms IH]; intros rl Hwf; simpl; [eauto|].
    destruct (run_method_wf m rl Hwf) as (rl1 & -> & Hwf1). by apply IH. }
  destruct (Hgen ms new_RateLimiter) as (rl & Hrun & Hdefault & Hkeys).
  - split; [vm_compute; eauto|]. intros key config Hc.
    unfold new_RateLimiter in Hc. simpl in Hc.
    repeat (apply lookup_insert_Some in Hc as [[<- <-]|[_ Hc]]; [done|]).
    by rewrite lookup_empty in Hc.
  - exists rl. split; [done|]. split; [done|]. split; [|done].
    intros svc. by apply getConfig_is_Some.
Qed.

(** ** The limiter: at most [maxRequests] admissions in a window *)

Lemma admitted_bound calls rl svc identifier config T :
  colon_free svc → Forall call_service_colon_free calls →
  within_capacity rl → getConfig rl svc = Some config →
  Forall (λ c, T ≤ call_time c < T + windowMs config) calls →
  Forall (λ r, T ≤ timestamp r) (window rl (make_key svc identifier)) →
  Z.of_nat (admissions (make_key svc identifier) calls rl)
  + Z.of_nat (length (window rl (make_key svc identifier))) ≤ maxRequests config.
Proof.
  intros Hfree Hcalls. revert rl.
  induction Hcalls as [|c calls Hc _ IH]; intros rl Hinv Hcfg Htimes Hafter; simpl.
  - pose proof (window_within_capacity rl svc identifier config Hinv Hfree Hcfg). lia.
  - inversion Htimes as [|? ? Htime Htimes']; subst.
    assert (prune (call_time c) config (window rl (make_key svc identifier))
            = window rl (make_key svc identifier)) as Hkeep.
    { apply prune_all. eapply Forall_impl; [exact Hafter|]. simpl. intros r Hr. lia. }
    destruct c as [svc' identifier' now|now]; simpl in *.
    + destruct (checkLimit_within_capacity svc' identifier' now rl Hc Hinv)
        as (b & Hres & Hinv1).
      destruct (getConfig_within_capacity rl svc' Hinv) as (config' & Hcfg' & _).
      revert Hres Hinv1. rewrite (checkLimit_unfold _ _ _ _ _ Hcfg'). cbn zeta.
      destruct (decide (make_key svc' identifier' = make_key svc identifier)) as [Heq|Hne].
      * destruct (make_key_inj _ _ _ _ Hc Hfree Heq) as [-> ->].
        assert (config' = config) as -> by congruence. rewrite Hkeep.
        case_decide as Hfull; simpl; intros [= <-] Hinv1.
        -- specialize (IH _ Hinv1 Hcfg Htimes'). rewrite window_insert_eq in IH.
           specialize (IH Hafter). lia.
        -- rewrite bool_decide_eq_true_2 by done.
           specialize (IH _ Hinv1 Hcfg Htimes'). rewrite window_insert_eq in IH.
           rewrite length_app in IH. simpl in IH.
           assert (Forall (λ r, T ≤ timestamp r)
                     (window rl (make_key svc identifier) ++ [mkRecord now 1])) as Hafter1.
           { apply Forall_app. split; [done|]. constructor; [simpl; lia | constructor]. }
           specialize (IH Hafter1). lia.
      * case_decide as Hfull; simpl; intros [= <-] Hinv1;
          rewrite ?bool_decide_eq_false_2 by done; rewrite ?andb_false_r;
          specialize (IH _ Hinv1 Hcfg Htimes');
          rewrite window_insert_ne in IH by done; specialize (IH Hafter); simpl; lia.
    + destruct (cleanup_within_capacity now rl Hinv) as (rl1 & Hclean & Hinv1).
      rewrite Hclean.
      destruct (cleanup_lookup now rl rl1 (make_key svc identifier) Hclean) as [Hlook Hcfgs].
      assert (window rl1 (make_key svc identifier) = window rl (make_key svc identifier))
        as Hsame.
      { unfold window in *. rewrite Hlook.
        destruct (requests rl !! make_key svc identifier) as [reqs|]; simpl in *; [|done].
        unfold cleanup_entry, cleanup_valid.
        rewrite split_colon_head_key by done. rewrite Hcfg, Hkeep.
        by destruct reqs. }
      specialize (IH rl1 Hinv1). rewrite Hsame in IH.
      apply IH; [by rewrite (getConfig_ext rl rl1 svc Hcfgs) | done | done].
Qed.

(** X5.  The limit holds per window.  From [new RateLimiter()], take any
    calls of [checkLimit] and [cleanup] (service names free of [':']) whose
    clock readings all lie within one span shorter than the [windowMs] of a
    service: of the [checkLimit] calls for that service and one identifier,
    at most [maxRequests] come back [true]. *)
Theorem at_most_maxRequests_admitted (calls : list Call) (svc identifier : jsstring)
    (config : RateLimitConfig) (T : Z) :
  colon_free svc → Forall call_service_colon_free calls →
  getConfig new_RateLimiter svc = Some config →
  Forall (λ c, T ≤ call_time c < T + windowMs config) calls →
  Z.of_nat (admissions (make_key svc identifier) calls new_RateLimiter)
  ≤ maxRequests config.
Proof.
  intros Hfree Hcalls Hcfg Htimes.
  pose proof (admitted_bound calls new_RateLimiter svc identifier config T Hfree Hcalls
                new_within_capacity Hcfg Htimes) as H.
  assert (window new_RateLimiter (make_key svc identifier) = []) as Hempty.
  { unfold window, new_RateLimiter. simpl. by rewrite lookup_empty. }
  rewrite Hempty in H. specialize (H ltac:(constructor)). simpl in H. lia.
Qed.

(** Thirty requests of one client of the research service in one second:
    twenty are admitted. *)
Lemma at_most_maxRequests_admitted_witness :
  admissions (make_key (lit "perplexity") (lit "10.0.0.1"))
    (replicate 30 (CallCheckLimit (lit "perplexity") (lit "10.0.0.1") 1000))
    new_RateLimiter = 20%nat
  ∧ Z.of_nat (admissions (make_key (lit "perplexity") (lit "10.0.0.1"))
                (replicate 30 (CallCheckLimit (lit "perplexity") (lit "10.0.0.1") 1000))
                new_RateLimiter) ≤ 20.
Proof.
  split; [vm_compute; reflexivity|].
  apply (at_most_maxRequests_admitted
           (replicate 30 (CallCheckLimit (lit "perplexity") (lit "10.0.0.1") 1000))
           (lit "perplexity") (lit "10.0.0.1") (mkConfig 20 60000 (lit "perplexity")) 1000).
  - exact colon_free_perplexity.
  - apply Forall_replicate. exact colon_free_perplexity.
  - vm_compute. reflexivity.
  - apply Forall_replicate. vm_compute. split; [discriminate | reflexivity].
Defined.

(** ** waitForLimit *)

Lemma wait_round_bounds svc identifier config now rl delay :
  wait_round svc identifier config now rl = Some delay → 0 < delay ≤ 1000.
Proof.
  unfold wait_round. destruct (window rl (make_key svc identifier)) as [|oldest ?].
  - intros [= <-]. lia.
  - case_decide; [|done]. intros [= <-]. lia.
Qed.

(** X6.  Whatever the clock reads, whatever the limiter holds and whatever
    other requests and the clean-up timer do in between, every delay
    [waitForLimit] hands to [setTimeout] is positive and at most one
    second. *)
Theorem waitForLimit_sleeps_at_most_a_second (svc identifier : jsstring)
    (rounds : list Round) (rl : RateLimiter) :
  Forall (λ d, 0 < d ≤ 1000) (sleeps_of (waitForLimit svc identifier rounds rl)).
Proof.
  unfold waitForLimit. generalize (getConfig rl svc) as config. intros config.
  revert rl. induction rounds as [|round rest IH]; intros rl; simpl.
  - constructor.
  - destruct (checkLimit svc identifier (check_time round) rl) as [[[|]|e] rl1]; simpl;
      try constructor.
    destruct (meanwhile (others_after_check round) rl1) as [rl2|]; simpl; [|constructor].
    destruct config as [config|]; simpl; [|constructor].
    destruct (wait_round svc identifier config (wait_time round) rl2) as [delay|] eqn:Hdelay;
      [|apply IH].
    apply wait_round_bounds in Hdelay.
    destruct (meanwhile (others_during_sleep round) rl2) as [rl3|]; simpl.
    + specialize (IH rl3).
      destruct (waitForLimit_loop svc identifier (Some config) rest rl3); simpl in *;
        try constructor; done.
    + constructor; [done | constructor].
Qed.

Lemma refusal_prunes svc identifier now rl config :
  getConfig rl svc = Some config →
  (checkLimit svc identifier now rl).1 = Returned false →
  getConfig (checkLimit svc identifier now rl).2 svc = Some config
  ∧ window (checkLimit svc identifier now rl).2 (make_key svc identifier)
    = prune now config (window rl (make_key svc identifier))
  ∧ maxRequests config
    ≤ Z.of_nat (length (prune now config (window rl (make_key svc identifier)))).
Proof.
  intros Hcfg. rewrite (checkLimit_unfold _ _ _ _ _ Hcfg). cbn zeta.
  case_decide; simpl; [|done]. intros _.
  split; [done|]. by rewrite window_insert_eq.
Qed.

Lemma other_call_configs c rl rl' : other_call c rl = Some rl' → configs rl' = configs rl.
Proof.
  destruct c as [svc identifier now|now]; simpl.
  - intros [= <-]. apply checkLimit_configs.
  - destruct (cleanup now rl) as [rl1|] eqn:Hclean; [|done]. intros [= <-].
    by destruct (cleanup_lookup now rl rl1 [] Hclean).
Qed.

Lemma meanwhile_configs calls rl rl' : meanwhile calls rl = Some rl' → configs rl' = configs rl.
Proof.
  revert rl. induction calls as [|c calls IH]; intros rl; simpl; [by intros [= <-]|].
  destruct (other_call c rl) as [rl1|] eqn:Hcall; [|done]. intros Hrest.
  rewrite (IH _ Hrest). by apply other_call_configs in Hcall.
Qed.

Lemma meanwhile_returns calls rl :
  is_Some (configs rl !! lit "default") → is_Some (meanwhile calls rl).
Proof.
  revert rl. induction calls as [|c calls IH]; intros rl Hdefault; simpl; [eauto|].
  destruct (other_call c rl) as [rl1|] eqn:Hcall.
  - apply IH. by rewrite (other_call_configs _ _ _ Hcall).
  - destruct c as [svc identifier now|now]; simpl in Hcall; [done|].
    destruct (cleanup_returns now rl Hdefault) as [rl1 Hclean]. by rewrite Hclean in Hcall.
Qed.

(** A call that does not admit a request on [key] adds no record to the
    window of [key]. *)
Lemma other_call_shrinks key c rl rl' :
  other_call c rl = Some rl' →
  (∀ svc identifier now,
     c = CallCheckLimit svc identifier now → make_key svc identifier = key →
     (checkLimit svc identifier now rl).1 ≠ Returned true) →
  ∀ r, r ∈ window rl' key → r ∈ window rl key.
Proof.
  destruct c as [svc identifier now|now]; simpl.
  - intros [= <-] Hrefused r. specialize (Hrefused svc identifier now eq_refl).
    revert Hrefused. unfold checkLimit.
    destruct (getConfig rl svc) as [config|]; [|done]. cbn zeta.
    destruct (decide (make_key svc identifier = key)) as [<-|Hne].
    + case_decide; simpl; intros Hrefused; [|by destruct (Hrefused eq_refl)].
      rewrite window_insert_eq. intros Hr. by apply elem_of_prune in Hr as [Hr _].
    + intros _. case_decide; simpl; by rewrite window_insert_ne.
  - destruct (cleanup now rl) as [rl1|] eqn:Hclean; [|done]. intros [= <-] _ r.
    destruct (cleanup_lookup now rl rl1 key Hclean) as [Hlook _].
    unfold window. rewrite Hlook.
    destruct (requests rl !! key) as [reqs|]; simpl; [|done].
    unfold cleanup_entry, cleanup_valid.
    destruct (getConfig rl (split_colon_head key)) as [config|]; simpl;
      [|intros Hr; by apply elem_of_nil in Hr].
    destruct (prune now config reqs) as [|r0 kept] eqn:Hkept; simpl;
      [intros Hr; by apply elem_of_nil in Hr|].
    rewrite <- Hkept. intros Hr. by apply elem_of_prune in Hr as [Hr _].
Qed.

Lemma meanwhile_leaves_key_alone key calls rl rl' :
  meanwhile calls rl = Some rl' →
  Forall (leaves_key_alone key) calls →
  ∀ r, r ∈ window rl' key → r ∈ window rl key.
Proof.
  revert rl. induction calls as [|c calls IH]; intros rl; simpl; [by intros [= <-]|].
  destruct (other_call c rl) as [rl1|] eqn:Hcall; [|done].
  intros Hrest Halone r Hr. inversion Halone as [|? ? Hc Hcalls]; subst.
  apply (other_call_shrinks key c rl rl1 Hcall).
  - intros svc identifier now -> Hkey. by destruct Hc.
  - by apply (IH rl1).
Qed.

Lemma waitForLimit_loop_returns_after_expiry (svc identifier : jsstring)
    (pre post : list Round) (round : Round)
    (rl : RateLimiter) (config : RateLimitConfig) :
  getConfig rl svc = Some config →
  is_Some (configs rl !! lit "default") →
  0 < maxRequests config →
  Forall (λ earlier, Forall (leaves_key_alone (make_key svc identifier)) (others_of earlier))
    pre →
  Forall (λ r, windowMs config ≤ check_time round - timestamp r)
    (window rl (make_key svc identifier)) →
  ∃ sleeps rl1,
    waitForLimit_loop svc identifier (Some config) (pre ++ round :: post) rl
    = CameBack sleeps rl1
    ∧ (length sleeps ≤ length pre)%nat.
Proof.
  intros Hcfg Hdefault Hmax Halone. revert rl Hcfg Hdefault.
  induction Halone as [|earlier pre Hearlier _ IH]; intros rl Hcfg Hdefault Hexpired; simpl.
  - rewrite (checkLimit_expired_window _ _ _ _ _ Hcfg Hmax Hexpired). eauto.
  - apply Forall_app in Hearlier as [Hafter Hduring].
    destruct (checkLimit svc identifier (check_time earlier) rl) as [[[|]|e] rl1] eqn:Hcheck.
    + exists [], rl1. split; [done | simpl; lia].
    + destruct (refusal_prunes svc identifier (check_time earlier) rl config Hcfg)
        as (Hcfg1 & Hwin & _); [by rewrite Hcheck|].
      rewrite Hcheck in Hcfg1, Hwin. simpl in Hcfg1, Hwin.
      assert (configs rl1 = configs rl) as Hconfigs1.
      { pose proof (checkLimit_configs svc identifier (check_time earlier) rl) as H.
        by rewrite Hcheck in H. }
      assert (is_Some (configs rl1 !! lit "default")) as Hdefault1 by (by rewrite Hconfigs1).
      destruct (meanwhile_returns (others_after_check earlier) rl1 Hdefault1) as [rl2 Hrl2].
      rewrite Hrl2.
      pose proof (meanwhile_configs _ _ _ Hrl2) as Hconfigs2.
      assert (∀ r, r ∈ window rl2 (make_key svc identifier) →
                   r ∈ window rl (make_key svc identifier)) as Hsub2.
      { intros r Hr. apply (meanwhile_leaves_key_alone _ _ _ _ Hrl2 Hafter) in Hr.
        rewrite Hwin in Hr. by apply elem_of_prune in Hr as [Hr _]. }
      assert (is_Some (configs rl2 !! lit "default")) as Hdefault2 by (by rewrite Hconfigs2).
      assert (getConfig rl2 svc = Some config) as Hcfg2
        by (by rewrite (getConfig_ext rl1 rl2 svc Hconfigs2)).
      destruct (wait_round svc identifier config (wait_time earlier) rl2) as [delay|].
      * destruct (meanwhile_returns (others_during_sleep earlier) rl2 Hdefault2) as [rl3 Hrl3].
        rewrite Hrl3.
        pose proof (meanwhile_configs _ _ _ Hrl3) as Hconfigs3.
        destruct (IH rl3) as (sleeps & rl4 & -> & Hlen).
        -- by rewrite (getConfig_ext rl2 rl3 svc Hconfigs3).
        -- by rewrite Hconfigs3.
        -- apply Forall_forall. intros r Hr.
           apply (meanwhile_leaves_key_alone _ _ _ _ Hrl3 Hduring) in Hr.
           by apply (proj1 (Forall_forall _ _) Hexpired), Hsub2.
        -- eexists _, _. split; [reflexivity|]. simpl. lia.
      * destruct (IH rl2 Hcfg2 Hdefault2) as (sleeps & rl4 & -> & Hlen).
        -- apply Forall_forall. intros r Hr.
           by apply (proj1 (Forall_forall _ _) Hexpired), Hsub2.
        -- eexists _, _. split; [reflexivity|]. lia.
    + exfalso. unfold checkLimit in Hcheck. rewrite Hcfg in Hcheck.
      simpl in Hcheck. by case_decide.
Qed.

(** X7.  [waitForLimit] comes back once the window has run out, as long as
    nobody else uses the key.  With [maxRequests] above 0 and a default
    configuration in place, take the rounds of the loop up to one at whose
    clock reading every record the key held at the start has aged past
    [windowMs].  If in the rounds before it the calls others made in
    between, of [checkLimit] for other keys and of [cleanup], include no
    [checkLimit] on this key, the loop ends in that round at the latest,
    with the request admitted and at most one sleep per earlier round. *)
Theorem waitForLimit_returns_after_expiry (svc identifier : jsstring)
    (pre post : list Round) (round : Round)
    (rl : RateLimiter) (config : RateLimitConfig) :
  getConfig rl svc = Some config →
  is_Some (configs rl !! lit "default") →
  0 < maxRequests config →
  Forall (λ earlier, Forall (leaves_key_alone (make_key svc identifier)) (others_of earlier))
    pre →
  Forall (λ r, windowMs config ≤ check_time round - timestamp r)
    (window rl (make_key svc identifier)) →
  ∃ sleeps rl1,
    waitForLimit svc identifier (pre ++ round :: post) rl = CameBack sleeps rl1
    ∧ (length sleeps ≤ length pre)%nat.
Proof.
  intros Hcfg. unfold waitForLimit. rewrite Hcfg.
  by apply waitForLimit_loop_returns_after_expiry.
Qed.

(** A client at the limit, polled at 59.1 s and at 60.1 s, while another
    client of the same service makes a request during the sleep and the
    clean-up runs. *)
Lemma waitForLimit_returns_after_expiry_witness :
  ∃ rl1,
    waitForLimit (lit "perplexity") (lit "10.0.0.1")
      [ mkRound 59100 [] 59100
          [CallCheckLimit (lit "perplexity") (lit "10.0.0.2") 60000; CallCleanup 60050];
        mkRound 60100 [] 60100 [] ]
      (default new_RateLimiter
         (run_calls (replicate 20 (CallCheckLimit (lit "perplexity") (lit "10.0.0.1") 100))
            new_RateLimiter))
    = CameBack [1000] rl1.
Proof.
  destruct (waitForLimit_returns_after_expiry (lit "perplexity") (lit "10.0.0.1")
              [ mkRound 59100 [] 59100
                  [CallCheckLimit (lit "perplexity") (lit "10.0.0.2") 60000;
                   CallCleanup 60050] ]
              [] (mkRound 60100 [] 60100 [])
              (default new_RateLimiter
                 (run_calls (replicate 20 (CallCheckLimit (lit "perplexity") (lit "10.0.0.1") 100))
                    new_RateLimiter))
              (mkConfig 20 60000 (lit "perplexity")))
    as (sleeps & rl1 & Hwait & _).
  - vm_compute. reflexivity.
  - vm_compute. eauto.
  - reflexivity.
  - repeat constructor. simpl. intros H. vm_compute in H. discriminate H.
  - apply (bool_decide_unpack _). vm_compute. exact I.
  - exists rl1. simpl app in Hwait. rewrite Hwait. f_equal.
    vm_compute in Hwait. by injection Hwait as <- _.
Defined.

(** The condition on the key is needed.  With a limit of one request a
    minute and a request on record at 0 s, another request on the same key
    let through during the sleep, at 60 s, leaves the round at 60.001 s
    refused, although the record the key held at the start has expired. *)
Example waitForLimit_delayed_by_the_same_key :
  match
    waitForLimit (lit "imagen") (lit "10.0.0.1")
      [ mkRound 59100 [] 59100 [CallCheckLimit (lit "imagen") (lit "10.0.0.1") 60000];
        mkRound 60001 [] 60001 [] ]
      (default new_RateLimiter
         (rl0 ← setConfig (lit "imagen") (mkPartial (Some 1) None None) new_RateLimiter;
          run_calls [CallCheckLimit (lit "imagen") (lit "10.0.0.1") 0] rl0))
  with
  | StillWaiting sleeps rl1 =>
      sleeps = [900; 1000]
      ∧ window rl1 (lit "imagen:10.0.0.1") = [mkRecord 60000 1]
  | _ => False
  end.
Proof. vm_compute. split; reflexivity. Qed.

Lemma waitForLimit_loop_never_returns (svc identifier : jsstring)
    (rounds : list Round) (rl : RateLimiter) (config : RateLimitConfig) :
  getConfig rl svc = Some config →
  maxRequests config ≤ 0 →
  ∃ sleeps rl1,
    waitForLimit_loop svc identifier (Some config) rounds rl = StillWaiting sleeps rl1
    ∧ (Forall (λ round, Forall (on_key_for_service svc (make_key svc identifier))
                          (others_of round)) rounds →
       ∀ r, r ∈ window rl1 (make_key svc identifier)
            → r ∈ window rl (make_key svc identifier)).
Proof.
  intros Hcfg Hmax. revert rl Hcfg.
  assert (∀ calls rl rl',
            getConfig rl svc = Some config →
            meanwhile calls rl = Some rl' →
            Forall (on_key_for_service svc (make_key svc identifier)) calls →
            ∀ r, r ∈ window rl' (make_key svc identifier)
                 → r ∈ window rl (make_key svc identifier)) as Hothers.
  { induction calls as [|c calls IHc]; intros rl rl' Hcfg; simpl; [by intros [= <-]|].
    destruct (other_call c rl) as [rl1|] eqn:Hcall; [|done].
    intros Hrest Hmine r Hr. inversion Hmine as [|? ? Hc Hcalls]; subst.
    apply (other_call_shrinks _ c rl rl1 Hcall).
    - intros svc' identifier' now -> Hkey. rewrite (Hc Hkey).
      rewrite (checkLimit_unfold _ _ _ _ _ Hcfg). cbn zeta. case_decide; [done | lia].
    - apply (IHc rl1 rl'); try done.
      by rewrite (getConfig_ext rl rl1 svc (other_call_configs _ _ _ Hcall)). }
  induction rounds as [|round rest IH]; intros rl Hcfg; simpl; [eauto|].
  assert ((checkLimit svc identifier (check_time round) rl).1 = Returned false) as Hrefused.
  { rewrite (checkLimit_unfold _ _ _ _ _ Hcfg). cbn zeta. case_decide; [done | lia]. }
  destruct (refusal_prunes svc identifier (check_time round) rl config Hcfg Hrefused)
    as (Hcfg1 & Hwin & _).
  destruct (checkLimit svc identifier (check_time round) rl) as [res rl1].
  simpl in *. subst res.
  assert (∀ r, r ∈ window rl1 (make_key svc identifier)
               → r ∈ window rl (make_key svc identifier)) as Hsub1.
  { intros r Hr. rewrite Hwin in Hr. by apply elem_of_prune in Hr as [Hr _]. }
  destruct (meanwhile (others_after_check round) rl1) as [rl2|] eqn:Hrl2;
    [|exists [], rl1; split; [done|]; intros _; exact Hsub1].
  assert (getConfig rl2 svc = Some config) as Hcfg2
    by (by rewrite (getConfig_ext rl1 rl2 svc (meanwhile_configs _ _ _ Hrl2))).
  destruct (wait_round svc identifier config (wait_time round) rl2) as [delay|].
  - destruct (meanwhile (others_during_sleep round) rl2) as [rl3|] eqn:Hrl3.
    + assert (getConfig rl3 svc = Some config) as Hcfg3
        by (by rewrite (getConfig_ext rl2 rl3 svc (meanwhile_configs _ _ _ Hrl3))).
      destruct (IH rl3 Hcfg3) as (sleeps & rl4 & -> & Hsub).
      eexists _, _. split; [reflexivity|].
      intros Hmine r Hr. inversion Hmine as [|? ? Hround Hrest]; subst.
      apply Forall_app in Hround as [Hafter Hduring].
      apply Hsub1, (Hothers _ _ _ Hcfg1 Hrl2 Hafter), (Hothers _ _ _ Hcfg2 Hrl3 Hduring).
      by apply Hsub.
    + eexists _, _. split; [reflexivity|].
      intros Hmine r Hr. inversion Hmine as [|? ? Hround Hrest]; subst.
      apply Forall_app in Hround as [Hafter Hduring].
      by apply Hsub1, (Hothers _ _ _ Hcfg1 Hrl2 Hafter).
  - destruct (IH rl2 Hcfg2) as (sleeps & rl4 & -> & Hsub).
    eexists _, _. split; [reflexivity|].
    intros Hmine r Hr. inversion Hmine as [|? ? Hround Hrest]; subst.
    apply Forall_app in Hround as [Hafter Hduring].
    apply Hsub1, (Hothers _ _ _ Hcfg1 Hrl2 Hafter). by apply Hsub.
Qed.

(** X8.  With a [maxRequests] of 0 or less [waitForLimit] never comes back:
    whatever the clock reads, for however many rounds and whatever others
    do in between, every [checkLimit] refuses and the loop is still
    waiting.  The key's window only loses records on the way, as long as
    every [checkLimit] others make on this key is one for this service (as
    all are when the loop runs alone). *)
Theorem waitForLimit_never_returns_without_capacity (svc identifier : jsstring)
    (rounds : list Round) (rl : RateLimiter) (config : RateLimitConfig) :
  getConfig rl svc = Some config →
  maxRequests config ≤ 0 →
  ∃ sleeps rl1,
    waitForLimit svc identifier rounds rl = StillWaiting sleeps rl1
    ∧ (Forall (λ round, Forall (on_key_for_service svc (make_key svc identifier))
                          (others_of round)) rounds →
       ∀ r, r ∈ window rl1 (make_key svc identifier)
            → r ∈ window rl (make_key svc identifier)).
Proof.
  intros Hcfg. unfold waitForLimit. rewrite Hcfg.
  by apply waitForLimit_loop_never_returns.
Qed.

Lemma waitForLimit_never_returns_without_capacity_witness :
  ∃ sleeps rl1,
    waitForLimit (lit "imagen") (lit "10.0.0.1")
      [ mkRound 0 [] 0 [CallCheckLimit (lit "imagen") (lit "10.0.0.2") 500];
        mkRound 1000 [] 1000 [CallCleanup 1500];
        mkRound 2000 [] 2000 [] ]
      (default new_RateLimiter
         (setConfig (lit "imagen") (mkPartial (Some 0) None None) new_RateLimiter))
    = StillWaiting sleeps rl1
    ∧ sleeps = [1000; 1000; 1000].
Proof.
  destruct (waitForLimit_never_returns_without_capacity (lit "imagen") (lit "10.0.0.1")
              [ mkRound 0 [] 0 [CallCheckLimit (lit "imagen") (lit "10.0.0.2") 500];
                mkRound 1000 [] 1000 [CallCleanup 1500];
                mkRound 2000 [] 2000 [] ]
              (default new_RateLimiter
                 (setConfig (lit "imagen") (mkPartial (Some 0) None None) new_RateLimiter))
              (mkConfig 0 60000 (lit "imagen")))
    as (sleeps & rl1 & Hwait & _); [vm_compute; reflexivity | reflexivity |].
  exists sleeps, rl1. split; [exact Hwait|].
  vm_compute in Hwait. by injection Hwait as <- _.
Defined.

(** ** POST /api/analyze behind the limiter *)

Lemma withRateLimit_refused {Env T : Type} svc identifier now_check now_error
    (operation : Env → Outcome T * Env) rl env config :
  getConfig rl svc = Some config → 0 ≤ now_check →
  (checkLimit svc identifier now_check rl).1 = Returned false →
  ∃ waitTime,
    withRateLimit svc identifier now_check now_error operation (rl, env)
    = (Threw (PlainError (lit "Rate limit exceeded for " ++ svc ++
                          lit ". Try again in " ++ show_Z waitTime ++ lit " seconds.")),
       ((checkLimit svc identifier now_check rl).2, env)).
Proof.
  intros Hcfg Hnow Hcheck.
  destruct (getResetTime_after_refusal svc identifier now_check rl config Hcfg Hnow Hcheck)
    as [Hsame Hreset].
  unfold withRateLimit.
  destruct (checkLimit svc identifier now_check rl) as [res rl1]. simpl in *. subst res.
  destruct (getResetTime svc identifier rl1) as [reset rl2]. simpl in *. subst rl2.
  destruct Hreset as [->|(resetTime & -> & Hlater)]; [by eexists|].
  eexists. by rewrite decide_False by lia.
Qed.

Lemma withRateLimit_admitted {Env T : Type} svc identifier now_check now_error
    (operation : Env → Outcome T * Env) rl env :
  (checkLimit svc identifier now_check rl).1 = Returned true →
  withRateLimit svc identifier now_check now_error operation (rl, env)
  = ((operation env).1, ((checkLimit svc identifier now_check rl).2, (operation env).2)).
Proof.
  intros Hcheck. unfold withRateLimit.
  destruct (checkLimit svc identifier now_check rl) as [res rl1]. simpl in *. subst res.
  by destruct (operation env).
Qed.

Lemma POST_valid_body {Env R : Type}
    (analyzeSourcesWithPerplexity : JSValue → Env → Outcome R * Env)
    (request : AnalyzeRoute.NextRequest) (now_check now_error : Z)
    (st : RateLimiter * Env) (body : JSValue) :
  AnalyzeRoute.json request = Returned body →
  AnalyzeRoute.sources_invalid (prop_of body "sources") = false →
  AnalyzeRoute.topic_invalid (prop_of body "topic") = false →
  AnalyzeRoute.POST analyzeSourcesWithPerplexity request now_check now_error st
  = match withRateLimit (lit "perplexity") (AnalyzeRoute.clientIP request)
            now_check now_error (analyzeSourcesWithPerplexity body) st with
    | (Returned result, st1) =>
        (AnalyzeRoute.mkResponse 200 (AnalyzeRoute.SuccessBody result), st1)
    | (Threw e, st1) => (AnalyzeRoute.error_response e, st1)
    end.
Proof.
  intros Hjson Hsources Htopic. unfold AnalyzeRoute.POST. rewrite Hjson.
  unfold prop_of in *.
  destruct (get_prop body "sources") as [sources|]; [|done]. rewrite Hsources.
  destruct (get_prop body "topic") as [topic|]; [|done]. by rewrite Htopic.
Qed.

(** X9.  A request the limiter refuses is answered with status 500, not
    429: for a body that passes the validation, when [checkLimit] refuses,
    [withRateLimit] throws a plain [Error], which [handleAPIError] files
    under 'Unexpected error' with status 500.  The analysis is not called
    and the outside world is as it was. *)
Theorem POST_rate_limited_answers_500 {Env R : Type}
    (analyzeSourcesWithPerplexity : JSValue → Env → Outcome R * Env)
    (request : AnalyzeRoute.NextRequest) (now_check now_error : Z)
    (rl : RateLimiter) (env : Env) (body : JSValue) (config : RateLimitConfig) :
  AnalyzeRoute.json request = Returned body →
  AnalyzeRoute.sources_invalid (prop_of body "sources") = false →
  AnalyzeRoute.topic_invalid (prop_of body "topic") = false →
  getConfig rl (lit "perplexity") = Some config → 0 ≤ now_check →
  (checkLimit (lit "perplexity") (AnalyzeRoute.clientIP request) now_check rl).1
  = Returned false →
  ∃ waitTime,
    AnalyzeRoute.POST analyzeSourcesWithPerplexity request now_check now_error (rl, env)
    = (AnalyzeRoute.mkResponse 500
         (AnalyzeRoute.ErrorBody
            (mkErrorResponse
               (lit "Unexpected error in analyze-api: Rate limit exceeded for perplexity. Try again in "
                ++ show_Z waitTime ++ lit " seconds.")
               (Some (lit "analyze-api")) (Some 500))),
       ((checkLimit (lit "perplexity") (AnalyzeRoute.clientIP request) now_check rl).2, env)).
Proof.
  intros Hjson Hsources Htopic Hcfg Hnow Hrefused.
  rewrite (POST_valid_body _ _ _ _ _ body Hjson Hsources Htopic).
  destruct (withRateLimit_refused (lit "perplexity") (AnalyzeRoute.clientIP request)
              now_check now_error (analyzeSourcesWithPerplexity body) rl env config
              Hcfg Hnow Hrefused) as [waitTime ->].
  exists waitTime. reflexivity.
Qed.

Lemma POST_rate_limited_answers_500_witness :
  ∃ waitTime,
    AnalyzeRoute.POST counting_analysis valid_analyze_request 500 600
      (unknown_client_at_limit, 0%nat)
    = (AnalyzeRoute.mkResponse 500
         (AnalyzeRoute.ErrorBody
            (mkErrorResponse
               (lit "Unexpected error in analyze-api: Rate limit exceeded for perplexity. Try again in "
                ++ show_Z waitTime ++ lit " seconds.")
               (Some (lit "analyze-api")) (Some 500))),
       ((checkLimit (lit "perplexity") (AnalyzeRoute.clientIP valid_analyze_request) 500
           unknown_client_at_limit).2, 0%nat)).
Proof.
  apply (POST_rate_limited_answers_500 counting_analysis valid_analyze_request 500 600
           unknown_client_at_limit 0%nat valid_analyze_body
           (mkConfig 20 60000 (lit "perplexity")));
    first [discriminate | vm_compute; reflexivity].
Defined.

(** X10.  A request the limiter admits, with a body that passes the
    validation: the answer is 200 with the result of the analysis, or, when
    the analysis throws, the status [handleAPIError] gives its exception.
    Either way the limiter is the one [checkLimit] left: the slot is taken,
    only the window of the key ['perplexity:' + clientIP] has changed, and
    the configuration table has not. *)
Theorem POST_admitted_runs_the_analysis {Env R : Type}
    (analyzeSourcesWithPerplexity : JSValue → Env → Outcome R * Env)
    (request : AnalyzeRoute.NextRequest) (now_check now_error : Z)
    (rl : RateLimiter) (env : Env) (body : JSValue) :
  AnalyzeRoute.json request = Returned body →
  AnalyzeRoute.sources_invalid (prop_of body "sources") = false →
  AnalyzeRoute.topic_invalid (prop_of body "topic") = false →
  (checkLimit (lit "perplexity") (AnalyzeRoute.clientIP request) now_check rl).1
  = Returned true →
  (AnalyzeRoute.POST analyzeSourcesWithPerplexity request now_check now_error (rl, env)).1
  = match (analyzeSourcesWithPerplexity body env).1 with
    | Returned result => AnalyzeRoute.mkResponse 200 (AnalyzeRoute.SuccessBody result)
    | Threw e =>
        AnalyzeRoute.mkResponse (api_statusCode (handleAPIError e (lit "analyze-api")))
          (AnalyzeRoute.ErrorBody
             (createErrorResponse (APIError (handleAPIError e (lit "analyze-api")))))
    end
  ∧ (AnalyzeRoute.POST analyzeSourcesWithPerplexity request now_check now_error (rl, env)).2
    = ((checkLimit (lit "perplexity") (AnalyzeRoute.clientIP request) now_check rl).2,
       (analyzeSourcesWithPerplexity body env).2)
  ∧ mkRecord now_check 1
    ∈ window (AnalyzeRoute.POST analyzeSourcesWithPerplexity request
                now_check now_error (rl, env)).2.1
        (make_key (lit "perplexity") (AnalyzeRoute.clientIP request))
  ∧ (∀ key, key ≠ make_key (lit "perplexity") (AnalyzeRoute.clientIP request) →
            requests (AnalyzeRoute.POST analyzeSourcesWithPerplexity request
                        now_check now_error (rl, env)).2.1 !! key
            = requests rl !! key)
  ∧ configs (AnalyzeRoute.POST analyzeSourcesWithPerplexity request
               now_check now_error (rl, env)).2.1
    = configs rl.
Proof.
  intros Hjson Hsources Htopic Hadmit.
  rewrite (POST_valid_body _ _ _ _ _ body Hjson Hsources Htopic).
  rewrite (withRateLimit_admitted _ _ _ _ _ _ _ Hadmit).
  split; [by destruct (analyzeSourcesWithPerplexity body env).1|].
  split; [by destruct (analyzeSourcesWithPerplexity body env).1|].
  assert ((let (o, st1) := ((analyzeSourcesWithPerplexity body env).1,
                  ((checkLimit (lit "perplexity") (AnalyzeRoute.clientIP request) now_check rl).2,
                   (analyzeSourcesWithPerplexity body env).2)) in
           match o with
           | Returned result =>
               (AnalyzeRoute.mkResponse 200 (AnalyzeRoute.SuccessBody result), st1)
           | Threw e => (AnalyzeRoute.error_response e, st1)
           end).2.1
          = (checkLimit (lit "perplexity") (AnalyzeRoute.clientIP request) now_check rl).2)
    as -> by (by destruct (analyzeSourcesWithPerplexity body env).1).
  revert Hadmit. unfold checkLimit.
  destruct (getConfig rl (lit "perplexity")) as [config|]; [|done]. cbn zeta.
  case_decide; simpl; [done|]. intros _.
  split; [rewrite window_insert_eq; apply elem_of_app; right; by left|].
  split; [|done]. intros key Hkey. by rewrite lookup_insert_ne.
Qed.

Lemma POST_admitted_runs_the_analysis_witness :
  AnalyzeRoute.POST counting_analysis valid_analyze_request 500 600 (new_RateLimiter, 0%nat)
  = (AnalyzeRoute.mkResponse 200 (AnalyzeRoute.SuccessBody fallback_analysis),
     ((checkLimit (lit "perplexity") (lit "unknown") 500 new_RateLimiter).2, 1%nat)).
Proof.
  destruct (POST_admitted_runs_the_analysis counting_analysis valid_analyze_request 500 600
              new_RateLimiter 0%nat valid_analyze_body
              eq_refl eq_refl eq_refl eq_refl)
    as (Hres & Hst & _).
  destruct (AnalyzeRoute.POST counting_analysis valid_analyze_request 500 600
              (new_RateLimiter, 0%nat)) as [res st].
  simpl in Hres, Hst. by rewrite Hres, Hst.
Defined.

(** ** The two regular expressions *)

Lemma upto_last_close_Some s r :
  upto_last_close s = Some r →
  ∃ inner post, s = r ++ post ∧ r = inner ++ [close_brace] ∧ close_brace ∉ post.
Proof.
  revert r. induction s as [|c s IH]; intros r; simpl; [done|].
  destruct (upto_last_close s) as [r'|] eqn:Hr'.
  - intros [= <-]. destruct (IH r' eq_refl) as (inner & post & -> & -> & Hpost).
    by exists (c :: inner), post.
  - case_decide as Hc; [|done]. intros [= <-]. subst c.
    exists [], s. by apply upto_last_close_None in Hr'.
Qed.

(** X11.  What [content.match(/\{[\s\S]*\}/)] finds: the match starts at
    the first opening brace of the text and ends at its last closing brace
    -- text before the object and after it is cut off, and so is nothing in
    between, two objects in a row included.  There is no match exactly when
    no opening brace has a closing brace after it. *)
Theorem json_match_first_open_to_last_close (content : jsstring) :
  match json_match content with
  | Some block =>
      ∃ before inner after,
        content = before ++ block ++ after
        ∧ block = open_brace :: inner ++ [close_brace]
        ∧ (open_brace ∉ before)
        ∧ (close_brace ∉ after)
  | None =>
      ∀ before after, content = before ++ open_brace :: after → close_brace ∉ after
  end.
Proof.
  induction content as [|c content IH]; simpl.
  - intros before after H. by destruct before.
  - case_decide as Hc.
    + subst c. destruct (upto_last_close content) as [r|] eqn:Hr.
      * destruct (upto_last_close_Some _ _ Hr) as (inner & post & -> & -> & Hpost).
        exists [], inner, post. split; [done|]. split; [done|].
        split; [apply not_elem_of_nil | done].
      * apply upto_last_close_None in Hr. intros before after H.
        destruct before as [|b before]; simpl in H; inversion H; subst; [done|].
        intros Hin. apply Hr. rewrite elem_of_app, elem_of_cons. tauto.
    + destruct (json_match content) as [block|].
      * destruct IH as (before & inner & after & -> & -> & Hbefore & Hafter).
        exists (c :: before), inner, after. split; [done|]. split; [done|].
        split; [|done]. apply not_elem_of_cons. split; [congruence | done].
      * intros before after H.
        destruct before as [|b before]; simpl in H; inversion H; subst; [done|].
        by eapply IH.
Qed.

Lemma after_first_gt_None s : after_first_gt s = None → greater_than ∉ s.
Proof.
  induction s as [|c s IH]; simpl; [intros _; apply not_elem_of_nil|].
  case_decide as Hc; [done|]. intros H. apply not_elem_of_cons. split; [congruence | auto].
Qed.

Lemma after_first_gt_suffix s rest : after_first_gt s = Some rest → rest `suffix_of` s.
Proof.
  revert rest. induction s as [|c s IH]; intros rest; simpl; [done|].
  case_decide.
  - intros [= ->]. by apply suffix_cons_r.
  - intros H'. apply suffix_cons_r. auto.
Qed.

Lemma strip_tags_fuel_spec (fuel : nat) (s : jsstring) :
  (length s ≤ fuel)%nat →
  strip_tags_fuel fuel s `sublist_of` s
  ∧ ¬ has_tag (strip_tags_fuel fuel s)
  ∧ (less_than ∉ s → strip_tags_fuel fuel s = s).
Proof.
  revert s. induction fuel as [|fuel IH]; intros s Hlen.
  - destruct s; [|simpl in Hlen; lia]. simpl. split; [done|]. split; [|done].
    intros (before & after & H & _). by destruct before.
  - destruct s as [|c s]; simpl.
    { split; [done|]. split; [|done]. intros (before & after & H & _). by destruct before. }
    simpl in Hlen. case_decide as Hc.
    + subst c. destruct (after_first_gt s) as [rest|] eqn:Hrest.
      * pose proof (after_first_gt_shorter _ _ Hrest) as Hshort.
        destruct (IH rest ltac:(lia)) as (Hsub & Hnone & _).
        split.
        { destruct (after_first_gt_suffix _ _ Hrest) as [k Hk]. rewrite Hk.
          apply sublist_cons. by apply sublist_inserts_l. }
        split; [done|]. intros Hnot. exfalso. apply Hnot. by left.
      * apply after_first_gt_None in Hrest.
        split; [done|]. split; [|done].
        intros (before & after & H & Hgt).
        destruct before as [|b before]; simpl in H; inversion H; subst; [done|].
        apply Hrest. rewrite elem_of_app, elem_of_cons. tauto.
    + destruct (IH s ltac:(lia)) as (Hsub & Hnone & Hsame).
      split; [by apply sublist_skip|]. split.
      * intros (before & after & H & Hgt).
        destruct before as [|b before]; simpl in H; inversion H; subst; [done|].
        apply Hnone. by exists before, after.
      * intros Hnot. apply not_elem_of_cons in Hnot as [_ Hnot]. by rewrite Hsame.
Qed.

(** X12.  What [s.replace(/<[^>]*>/g, '')] leaves: the result is the text
    with some code units taken out, in the same order; no complete tag (a
    [<] with a [>] after it) remains in it; and a text without [<] comes
    back unchanged. *)
Theorem strip_tags_leaves_no_tag (s : jsstring) :
  strip_tags s `sublist_of` s
  ∧ ¬ has_tag (strip_tags s)
  ∧ (less_than ∉ s → strip_tags s = s).
Proof. apply strip_tags_fuel_spec. done. Qed.

(** ** The two services *)

Lemma parseBlogResponse_try_complete JSON_parse response v :
  parseBlogResponse_try JSON_parse response = Returned v →
  ∃ fields, v = JObj fields ∧ complete_article fields
            ∧ truthy (field_get (lit "seoScore") fields) = true.
Proof.
  unfold parseBlogResponse_try. destruct response as [c|]; [|done].
  destruct (json_match (message_text c)) as [jsonMatch|]; [|done].
  destruct (JSON_parse jsonMatch) as [parsed|]; [|done].
  cbn [mbind Outcome_bind].
  destruct parsed as [| |b|n|s|items|fields]; try done.
  cbn [get_prop set_prop mbind Outcome_bind].
  destruct (truthy (field_get (lit "title") fields)) eqn:Htitle; [|done].
  destruct (truthy (field_get (lit "content") fields)) eqn:Hcontent; [|done].
  destruct (truthy (field_get (lit "metaDescription") fields)) eqn:Hmeta; [|done].
  cbn [negb orb].
  set (fields1 := field_set (lit "tags")
                    (or_else (field_get (lit "tags") fields) (JArr [])) fields).
  set (fields2 := field_set (lit "seoScore")
                    (or_else (field_get (lit "seoScore") fields1) (JNum (of_Z 75))) fields1).
  assert (∀ x, truthy x = true →
               complete_article (field_set (lit "excerpt") x fields2)
               ∧ truthy (field_get (lit "seoScore") (field_set (lit "excerpt") x fields2))
                 = true) as Hout.
  { intros x Hx. unfold complete_article.
    rewrite field_get_set_eq.
    rewrite !(field_get_set_ne (lit "excerpt")) by names_differ.
    unfold fields2. rewrite field_get_set_eq.
    rewrite !(field_get_set_ne (lit "seoScore")) by names_differ.
    unfold fields1. rewrite field_get_set_eq.
    rewrite !(field_get_set_ne (lit "tags")) by names_differ.
    repeat split; try done; by apply truthy_or_else. }
  destruct (truthy (field_get (lit "excerpt") fields2)) eqn:Hexcerpt.
  - intros [= <-]. eexists. split; [done|]. by apply Hout.
  - destruct (field_get (lit "content") fields2) as [| |b|n|s|items|o]; try done.
    cbn [default_excerpt mbind Outcome_bind].
    intros [= <-]. eexists. split; [done|]. apply Hout.
    by destruct (strip_tags (take 200 s)).
Qed.

Lemma parseBlogResponse_complete JSON_parse response :
  ∃ fields,
    parseBlogResponse JSON_parse response = Returned (JObj fields)
    ∧ complete_article fields
    ∧ (JObj fields = fallback_blog ∨ truthy (field_get (lit "seoScore") fields) = true).
Proof.
  unfold parseBlogResponse.
  destruct (parseBlogResponse_try JSON_parse response) as [v|e] eqn:Htry; simpl.
  - destruct (parseBlogResponse_try_complete _ _ _ Htry) as (fields & -> & Hc & Hs).
    exists fields. auto.
  - eexists. split; [reflexivity|]. split; [|by left].
    by vm_compute.
Qed.

Lemma parseAnalysisResponse_keyInsights JSON_parse response :
  ∃ fields items,
    parseAnalysisResponse JSON_parse response = Returned (JObj fields)
    ∧ field_get (lit "keyInsights") fields = JArr items.
Proof.
  unfold parseAnalysisResponse, parseAnalysisResponse_try.
  destruct (first_choice_content response) as [content|]; simpl;
    [|by eexists _, _].
  destruct (json_match content) as [jsonMatch|]; simpl; [|by eexists _, _].
  destruct (JSON_parse jsonMatch) as [parsed|]; simpl; [|by eexists _, _].
  destruct parsed as [| |b|n|s|items|fields]; simpl; try by eexists _, _.
  destruct (field_get (lit "keyInsights") fields) as [| |b|n|s|items|o] eqn:Hk;
    simpl; try by eexists _, _.
  - destruct b; simpl; by eexists _, _.
  - destruct n as [q|negative|]; simpl; try destruct (Qnum q =? 0); simpl; by eexists _, _.
  - destruct s; simpl; by eexists _, _.
Qed.

(** X13.  [generateBlogPost] has two outcomes.  When building the prompt
    or the call of the model fails, whatever the failure, it throws the one
    [Error] 'Failed to generate blog post with Claude'.  Once the model has
    answered, it returns, and always a complete article: an object whose
    [title], [content], [metaDescription], [tags] and [excerpt] are truthy,
    and whose [seoScore] is truthy unless the article is the fallback --
    whatever the response holds and whatever [JSON.parse] does with it. *)
Theorem generateBlogPost_fails_one_way_or_is_complete {Env : Type}
    (JSON_parse : jsstring → Outcome JSValue)
    (messages_create : ClaudeRequest → Env → Outcome (option MessageContent) * Env)
    (request : ClaudeRequest) (env : Env) :
  (generateBlogPost JSON_parse messages_create request env).2
  = (messages_create request env).2
  ∧ match (messages_create request env).1 with
    | Threw _ =>
        (generateBlogPost JSON_parse messages_create request env).1
        = Threw failed_to_generate
    | Returned response =>
        ∃ fields,
          (generateBlogPost JSON_parse messages_create request env).1
          = Returned (JObj fields)
          ∧ parseBlogResponse JSON_parse response = Returned (JObj fields)
          ∧ complete_article fields
          ∧ (JObj fields = fallback_blog
             ∨ truthy (field_get (lit "seoScore") fields) = true)
    end.
Proof.
  unfold generateBlogPost.
  destruct (messages_create request env) as [[response|e] env1]; simpl; [|done].
  split; [done|].
  destruct (parseBlogResponse_complete JSON_parse response) as (fields & Hp & Hc & Hs).
  exists fields. by rewrite Hp.
Qed.

(** X14.  [analyzeSources] likewise: a failure of the request to the
    research service, whatever it is (a refusal with a status code
    included), comes out as the one [Error] 'Failed to analyze sources with
    Perplexity'; once the service has answered, the result is returned and
    is always an object whose [keyInsights] is an array. *)
Theorem analyzeSources_fails_one_way_or_has_insights {Env R : Type}
    (JSON_parse : jsstring → Outcome JSValue)
    (axios_post : R → Env → Outcome PerplexityResponse * Env)
    (request : R) (env : Env) :
  (analyzeSources JSON_parse axios_post request env).2 = (axios_post request env).2
  ∧ match (axios_post request env).1 with
    | Threw _ =>
        (analyzeSources JSON_parse axios_post request env).1 = Threw failed_to_analyze
    | Returned data =>
        ∃ fields items,
          (analyzeSources JSON_parse axios_post request env).1 = Returned (JObj fields)
          ∧ parseAnalysisResponse JSON_parse data = Returned (JObj fields)
          ∧ field_get (lit "keyInsights") fields = JArr items
    end.
Proof.
  unfold analyzeSources.
  destruct (axios_post request env) as [[data|e] env1]; simpl; [|done].
  split; [done|].
  destruct (parseAnalysisResponse_keyInsights JSON_parse data) as (fields & items & Hp & Hk).
  exists fields, items. by rewrite Hp.
Qed.

(** ** POST /api/generate *)

Lemma get_prop_throws v name e : get_prop v name = Threw e → ordinary_error e.
Proof. destruct v; simpl; try done; by intros [= <-]. Qed.

Lemma generate_error_response_ordinary e :
  ordinary_error e →
  GenerateRoute.status (GenerateRoute.error_response e) = 500.
Proof. by destruct e. Qed.

Lemma check_generation_cases v :
  match check_generation v with
  | Returned v' =>
      v' = v
      ∧ ∃ text, prop_of v "content" = JStr text ∧ (200 ≤ count_words text)%nat
  | Threw e =>
      (∀ fields, v = JObj fields → complete_article fields →
                 e = content_too_short ∨ e = split_not_a_function)
      ∧ ordinary_error e
  end.
Proof.
  unfold check_generation, prop_of.
  destruct v as [| |b|n|s|items|fields]; simpl; try done.
  destruct (truthy (field_get (lit "title") fields)) eqn:Htitle; simpl.
  - destruct (truthy (field_get (lit "content") fields)) eqn:Hcontent; simpl.
    + destruct (field_get (lit "content") fields) as [| |b|n|s|items|o]; simpl;
        try (split; [intros ? _ _; by right | done]).
      case_decide as Hwords; simpl.
      * split; [intros ? _ _; by left | done].
      * split; [done|]. exists s. split; [done | lia].
    + split; [|done]. intros fields' [= <-] (_ & Hc & _). congruence.
  - split; [|done]. intros fields' [= <-] (Ht & _). congruence.
Qed.

Lemma generateBlogWithClaude_cases {Env : Type}
    (JSON_parse : jsstring → Outcome JSValue)
    (messages_create : ClaudeRequest → Env → Outcome (option MessageContent) * Env)
    (request : ClaudeRequest) (env : Env) :
  (generateBlogWithClaude JSON_parse messages_create request env).2
  = (messages_create request env).2
  ∧ match (generateBlogWithClaude JSON_parse messages_create request env).1 with
    | Returned blog =>
        ∃ response fields text,
          (messages_create request env).1 = Returned response
          ∧ parseBlogResponse JSON_parse response = Returned blog
          ∧ blog = JObj fields
          ∧ complete_article fields
          ∧ field_get (lit "content") fields = JStr text
          ∧ (200 ≤ count_words text)%nat
    | Threw e =>
        (e = failed_to_generate ∧ ∃ e0, (messages_create request env).1 = Threw e0)
        ∨ e = content_too_short
        ∨ e = split_not_a_function
    end.
Proof.
  unfold generateBlogWithClaude, generateBlogPost.
  destruct (messages_create request env) as [[response|e0] env1]; simpl;
    [|split; [done|]; left; eauto].
  split; [done|].
  destruct (parseBlogResponse_complete JSON_parse response) as (fields & Hp & Hc & _).
  rewrite Hp. simpl.
  pose proof (check_generation_cases (JObj fields)) as Hcheck.
  destruct (check_generation (JObj fields)) as [v|e].
  - destruct Hcheck as (-> & text & Htext & Hwords).
    exists response, fields, text. done.
  - right. by apply (proj1 Hcheck fields).
Qed.


(** X15.  What [generateBlogWithClaude] lets through.  An article it
    returns is the one [parseBlogResponse] made of the model's answer, is
    complete, and has a string as [content] with at least 200 words.  An
    exception is one of three: the [Error] of a failed model call, 'Generated
    content too short (minimum 200 words required)', or the [TypeError] of
    calling [split] on a [content] that is no string.  The [Error] 'Claude
    generation incomplete - missing title or content' is never thrown. *)
Theorem generateBlogWithClaude_outcomes {Env : Type}
    (JSON_parse : jsstring → Outcome JSValue)
    (messages_create : ClaudeRequest → Env → Outcome (option MessageContent) * Env)
    (request : ClaudeRequest) (env : Env) :
  (generateBlogWithClaude JSON_parse messages_create request env).2
  = (messages_create request env).2
  ∧ match (generateBlogWithClaude JSON_parse messages_create request env).1 with
    | Returned blog =>
        ∃ response fields text,
          (messages_create request env).1 = Returned response
          ∧ parseBlogResponse JSON_parse response = Returned blog
          ∧ blog = JObj fields
          ∧ complete_article fields
          ∧ field_get (lit "content") fields = JStr text
          ∧ (200 ≤ count_words text)%nat
    | Threw e =>
        (e = failed_to_generate ∧ ∃ e0, (messages_create request env).1 = Threw e0)
        ∨ e = content_too_short
        ∨ e = split_not_a_function
    end.
Proof. apply generateBlogWithClaude_cases. Qed.

Example generateBlogWithClaude_accepts_200_words :
  ∃ fields,
    generateBlogWithClaude (JSON_parse_knowing (lit "{article}") (JObj (article_of_words 200)))
      model_with_article sample_request 0%nat
    = (Returned (JObj fields), 1%nat)
    ∧ field_get (lit "title") fields = JStr (lit "T")
    ∧ field_get (lit "seoScore") fields = JNum (of_Z 75).
Proof. eexists. vm_compute. repeat split; reflexivity. Qed.

Example generateBlogWithClaude_rejects_199_words :
  generateBlogWithClaude (JSON_parse_knowing (lit "{article}") (JObj (article_of_words 199)))
    model_with_article sample_request 0%nat
  = (Threw content_too_short, 1%nat).
Proof. vm_compute. reflexivity. Qed.

(** X16.  The fallback article never reaches the client of the generate
    route.  When the model has answered and [parseBlogResponse] returns its
    fallback article 'Blog Post Generation Failed' (no JSON in the answer,
    JSON that does not parse, a required field missing), the 16 words of the
    fallback fail the 200-word check: [generateBlogWithClaude] throws
    'Generated content too short (minimum 200 words required)'. *)
Theorem fallback_article_is_never_served {Env : Type}
    (JSON_parse : jsstring → Outcome JSValue)
    (messages_create : ClaudeRequest → Env → Outcome (option MessageContent) * Env)
    (request : ClaudeRequest) (env : Env) (response : option MessageContent) :
  (messages_create request env).1 = Returned response →
  parseBlogResponse JSON_parse response = Returned fallback_blog →
  generateBlogWithClaude JSON_parse messages_create request env
  = (Threw content_too_short, (messages_create request env).2).
Proof.
  intros Hcreate Hparse. unfold generateBlogWithClaude, generateBlogPost.
  destruct (messages_create request env) as [created env1]. simpl in *. subst created.
  simpl. rewrite Hparse. reflexivity.
Qed.

Lemma fallback_article_is_never_served_witness :
  parseBlogResponse JSON_parse_rejecting
    (Some (ContentBlocks [TextBlock (lit "I am sorry, I cannot write this.")]))
  = Returned fallback_blog
  ∧ generateBlogWithClaude JSON_parse_rejecting model_without_json sample_request 0%nat
    = (Threw content_too_short, 1%nat).
Proof.
  split; [reflexivity|].
  exact (fallback_article_is_never_served JSON_parse_rejecting model_without_json
           sample_request 0%nat _ eq_refl eq_refl).
Defined.

Lemma checkLimit_throws_ordinary svc identifier now rl e :
  (checkLimit svc identifier now rl).1 = Threw e → ordinary_error e.
Proof.
  unfold checkLimit. destruct (getConfig rl svc); simpl.
  - by case_decide.
  - by intros [= <-].
Qed.

Lemma getResetTime_throws_ordinary svc identifier rl e :
  (getResetTime svc identifier rl).1 = Threw e → ordinary_error e.
Proof.
  unfold getResetTime. destruct (window rl (make_key svc identifier)); [done|].
  destruct (getConfig rl svc); simpl; [done|]. by intros [= <-].
Qed.

(** What [withRateLimit] hands back: the outcome of the operation after an
    admitting check, and otherwise an exception without status code. *)
Lemma withRateLimit_cases {Env T : Type} svc identifier now_check now_error
    (operation : Env → Outcome T * Env) rl env :
  ((checkLimit svc identifier now_check rl).1 = Returned true
   ∧ withRateLimit svc identifier now_check now_error operation (rl, env)
     = ((operation env).1, ((checkLimit svc identifier now_check rl).2, (operation env).2)))
  ∨ ∃ e, ordinary_error e
         ∧ (withRateLimit svc identifier now_check now_error operation (rl, env)).1
           = Threw e.
Proof.
  destruct (checkLimit svc identifier now_check rl) as [[[|]|e] rl1] eqn:Hcheck.
  - left. split; [done|].
    rewrite <- Hcheck. apply withRateLimit_admitted. by rewrite Hcheck.
  - right. unfold withRateLimit. rewrite Hcheck.
    destruct (getResetTime svc identifier rl1) as [[reset|e] rl2] eqn:Hreset.
    + eexists. split; [|simpl; reflexivity]. exact I.
    + exists e. split; [|done].
      apply (getResetTime_throws_ordinary svc identifier rl1). by rewrite Hreset.
  - right. unfold withRateLimit. rewrite Hcheck. exists e. split; [|done].
    apply (checkLimit_throws_ordinary svc identifier now_check rl). by rewrite Hcheck.
Qed.

(** X17.  The answers of [POST /api/generate] to a request whose body was
    read.  The status is 400, 500 or 200, never 429 or 503, whatever the
    model call throws.  With 400 the body failed the validation and neither
    the limiter nor the outside world was touched.  With 200 the limiter
    admitted the request and the article sent is complete, its [content] a
    string of at least 200 words; the topic sent back is the trimmed one. *)
Theorem POST_generate_answers_400_500_or_200 {Env : Type}
    (JSON_parse : jsstring → Outcome JSValue)
    (messages_create : ClaudeRequest → Env → Outcome (option MessageContent) * Env)
    (request : AnalyzeRoute.NextRequest) (now_check now_error : Z)
    (rl : RateLimiter) (env : Env) (body : JSValue) :
  AnalyzeRoute.json request = Returned body →
  let answer :=
    GenerateRoute.POST JSON_parse messages_create request now_check now_error (rl, env) in
  (GenerateRoute.status answer.1 = 400
   ∧ answer.2 = (rl, env)
   ∧ (truthy (prop_of body "sourceAnalysis") = false
      ∨ AnalyzeRoute.topic_invalid (prop_of body "topic") = true))
  ∨ GenerateRoute.status answer.1 = 500
  ∨ (GenerateRoute.status answer.1 = 200
     ∧ (checkLimit (lit "claude") (AnalyzeRoute.clientIP request) now_check rl).1
       = Returned true
     ∧ answer.2.1 = (checkLimit (lit "claude") (AnalyzeRoute.clientIP request) now_check rl).2
     ∧ ∃ fields text topic_text wordCount tone targetAudience,
         GenerateRoute.body answer.1
         = GenerateRoute.SuccessBody (JObj fields) (AnalyzeRoute.trim topic_text)
             wordCount tone targetAudience
         ∧ prop_of body "topic" = JStr topic_text
         ∧ complete_article fields
         ∧ field_get (lit "content") fields = JStr text
         ∧ (200 ≤ count_words text)%nat).
Proof.
  intros Hjson answer. subst answer. unfold GenerateRoute.POST, GenerateRoute.catching.
  rewrite Hjson. unfold prop_of.
  destruct (get_prop body "sourceAnalysis") as [body_sourceAnalysis|e] eqn:Hsa;
    [|right; left; apply generate_error_response_ordinary; by apply (get_prop_throws body "sourceAnalysis")].
  destruct (truthy body_sourceAnalysis) eqn:Htruthy; cbn [negb]; [|left; auto].
  destruct (get_prop body "topic") as [body_topic|e] eqn:Htopic;
    [|right; left; apply generate_error_response_ordinary; by apply (get_prop_throws body "topic")].
  destruct (AnalyzeRoute.topic_invalid body_topic) eqn:Hinvalid; [left; auto|].
  destruct body_topic as [| |b|n|topic_text|items|o];
    try (unfold AnalyzeRoute.topic_invalid in Hinvalid;
         rewrite orb_true_r in Hinvalid; discriminate Hinvalid).
  cbn [GenerateRoute.topic_trim].
  destruct (get_prop body "wordCount") as [body_wordCount|e] eqn:HwordCount;
    [|right; left; apply generate_error_response_ordinary; by apply (get_prop_throws body "wordCount")].
  destruct (get_prop body "tone") as [body_tone|e] eqn:Htone;
    [|right; left; apply generate_error_response_ordinary; by apply (get_prop_throws body "tone")].
  destruct (get_prop body "targetAudience") as [body_targetAudience|e] eqn:Haudience;
    [|right; left;
      apply generate_error_response_ordinary; by apply (get_prop_throws body "targetAudience")].
  destruct (get_prop body "customPrompt") as [body_customPrompt|e] eqn:Hprompt;
    [|right; left;
      apply generate_error_response_ordinary; by apply (get_prop_throws body "customPrompt")].
  cbn zeta. cbn [topic wordCount tone targetAudience].
  set (generateRequest := mkClaudeRequest _ _ _ _ _ _).
  destruct (withRateLimit_cases (lit "claude") (AnalyzeRoute.clientIP request)
              now_check now_error
              (generateBlogWithClaude JSON_parse messages_create generateRequest) rl env)
    as [[Hadmit ->]|(e & He & Hthrew)].
  - destruct (generateBlogWithClaude_cases JSON_parse messages_create generateRequest env)
      as [_ Hcases].
    destruct (generateBlogWithClaude JSON_parse messages_create generateRequest env)
      as [[blog|e] env1]; simpl in *.
    + destruct Hcases as (response & fields & text & _ & _ & -> & Hcomplete & Htext & Hwords).
      right; right. split; [done|]. split; [done|]. split; [done|].
      by eexists fields, text, topic_text, _, _, _.
    + right; left.
      destruct Hcases as [[-> _]|[->| ->]]; reflexivity.
  - right; left.
    destruct (withRateLimit (lit "claude") (AnalyzeRoute.clientIP request) now_check
                now_error (generateBlogWithClaude JSON_parse messages_create generateRequest)
                (rl, env)) as [result st1].
    simpl in Hthrew. subst result. simpl.
    by apply generate_error_response_ordinary.
Qed.

Lemma POST_generate_answers_400_500_or_200_witness :
  GenerateRoute.POST JSON_parse_rejecting model_without_json valid_generate_request 500 600
    (new_RateLimiter, 0%nat)
  = (GenerateRoute.mkResponse 500
       (GenerateRoute.ErrorBody
          (mkErrorResponse
             (lit "Unexpected error in generate-api: Generated content too short (minimum 200 words required)")
             (Some (lit "generate-api")) (Some 500))),
     ((checkLimit (lit "claude") (lit "unknown") 500 new_RateLimiter).2, 1%nat))
  ∧ (GenerateRoute.status
       (GenerateRoute.POST (JSON_parse_knowing (lit "{article}") (JObj (article_of_words 200)))
          model_with_article valid_generate_request 500 600 (new_RateLimiter, 0%nat)).1
     = 200
     ∧ ∃ fields text,
         complete_article fields
         ∧ field_get (lit "content") fields = JStr text
         ∧ (200 ≤ count_words text)%nat).
Proof.
  split; [vm_compute; reflexivity|].
  destruct (POST_generate_answers_400_500_or_200
              (JSON_parse_knowing (lit "{article}") (JObj (article_of_words 200)))
              model_with_article valid_generate_request 500 600 new_RateLimiter 0%nat
              valid_generate_body eq_refl)
    as [(H400 & _)|[H500|(H200 & _ & _ & fields & text & tt & wc & tn & ta & _ & _ & Hc & Ht & Hw)]].
  - vm_compute in H400. discriminate H400.
  - vm_compute in H500. discriminate H500.
  - split; [exact H200|]. by exists fields, text.
Defined.

(** ** generateMetaOnly *)

(** X18.  [generateMetaOnly] never throws, a failed call of the model
    included: it returns either the fixed metadata ('Generated blog post
    content.', tags 'blog' and 'content') or what [JSON.parse] made of the
    brace block in the text blocks of the answer.  An answer whose content
    is a bare string gives the fixed metadata, whatever the string holds. *)
Theorem generateMetaOnly_never_throws {Env : Type}
    (JSON_parse : jsstring → Outcome JSValue)
    (messages_create : jsstring → jsstring → Env → Outcome (option MessageContent) * Env)
    (content title : jsstring) (env : Env) :
  (generateMetaOnly JSON_parse messages_create content title env).2
  = (messages_create content title env).2
  ∧ (∃ meta,
       (generateMetaOnly JSON_parse messages_create content title env).1 = Returned meta
       ∧ (meta = fallback_meta
          ∨ ∃ blocks block,
              (messages_create content title env).1 = Returned (Some (ContentBlocks blocks))
              ∧ json_match (join_text_blocks blocks) = Some block
              ∧ JSON_parse block = Returned meta))
  ∧ (∀ s, (messages_create content title env).1 = Returned (Some (ContentString s)) →
          (generateMetaOnly JSON_parse messages_create content title env).1
          = Returned fallback_meta).
Proof.
  unfold generateMetaOnly, generateMetaOnly_try.
  destruct (messages_create content title env) as [[response|e] env1]; simpl;
    [|split; [done|]; split; [eauto | done]].
  split; [done|]. split.
  - destruct response as [[blocks|s|]|]; simpl; eauto.
    destruct (json_match (join_text_blocks blocks)) as [block|] eqn:Hblock; simpl; eauto.
    destruct (JSON_parse block) as [meta|e] eqn:Hparse; simpl; eauto.
    exists meta. split; [done|]. right. by exists blocks, block.
  - by intros s [= ->].
Qed.

(** ** Publishing *)

Lemma publishing_run_app events1 events2 p p' :
  Publishing.run (events1 ++ events2) p = Some p' →
  ∃ p1, Publishing.run events1 p = Some p1 ∧ Publishing.run events2 p1 = Some p'.
Proof.
  revert p. induction events1 as [|e events1 IH]; intros p; simpl; [eauto|].
  destruct (Publishing.step e p) as [p1|]; [|done]. apply IH.
Qed.

Lemma publishing_stays_busy events p p' :
  Publishing.run events p = Some p' →
  Workflow.publishStatus (Publishing.wordpress p) ≠ Workflow.publish_idle →
  Workflow.publishStatus (Publishing.wordpress p') = Workflow.publish_idle →
  ∃ site, Publishing.TestSettled (Some site) ∈ events.
Proof.
  revert p. induction events as [|e events IH]; intros p; simpl.
  - intros [= ->] Hbusy Hidle. done.
  - destruct (Publishing.step e p) as [p1|] eqn:Hstep; [|done].
    intros Hrun Hbusy Hidle.
    destruct (decide (Workflow.publishStatus (Publishing.wordpress p1)
                      = Workflow.publish_idle)) as [Hidle1|Hbusy1].
    + destruct e as [site|use|u n pw|article| |[site|]| |success]; simpl in Hstep.
      * by injection Hstep as <-.
      * by injection Hstep as <-.
      * by injection Hstep as <-.
      * by injection Hstep as <-.
      * case_bool_decide; [done|].
        destruct (_ || _); [done|]. by injection Hstep as <-.
      * exists site. by left.
      * destruct (Publishing.tests_pending p); [done|]. by injection Hstep as <-.
      * destruct (_ || _); [done|]. by injection Hstep as <-.
      * destruct (Publishing.publishes_pending p); [done|].
        injection Hstep as <-. by destruct success.
    + destruct (IH p1 Hrun Hbusy1 Hidle) as [site Hin]. exists site. by right.
Qed.

(** X19.  A second export needs a successful connection test.  Pressing
    'Publish' sets [publishStatus] to 'publishing', its outcome sets it to
    'success' or 'error', and [canPublish()] asks for 'idle', which only a
    successful test of a custom site sets again.  So in every sequence of
    events of the export panel, from any state, between two exports that go
    ahead lies a connection test that succeeded: after a failed export the
    same export cannot simply be tried again. *)
Theorem publish_again_needs_a_successful_test
    (events pre mid post : list Publishing.Event) (p p' : Publishing.Panel) :
  Publishing.run events p = Some p' →
  events = pre ++ Publishing.ClickPublish :: mid ++ Publishing.ClickPublish :: post →
  ∃ site, Publishing.TestSettled (Some site) ∈ mid.
Proof.
  intros Hrun ->.
  apply publishing_run_app in Hrun as (p1 & _ & Hrun).
  simpl in Hrun.
  destruct (negb (truthy (Publishing.blogGeneration p1))
            || negb (Workflow.canPublish (Publishing.wordpress p1))); [done|].
  apply publishing_run_app in Hrun as (p2 & Hmid & Hrun).
  simpl in Hrun.
  destruct (negb (truthy (Publishing.blogGeneration p2))) eqn:Harticle; [done|].
  destruct (Workflow.canPublish (Publishing.wordpress p2)) eqn:Hcan; [|done].
  apply (publishing_stays_busy _ _ _ Hmid); [done|].
  unfold Workflow.canPublish in Hcan.
  apply andb_true_iff in Hcan as [_ Hidle].
  by apply bool_decide_eq_true in Hidle.
Qed.

Lemma publish_again_needs_a_successful_test_witness :
  is_Some (Publishing.run publish_twice (Publishing.initial fallback_blog))
  ∧ ∃ site,
      Publishing.TestSettled (Some site)
      ∈ [ Publishing.PublishSettled false;
          Publishing.SwitchCustomSite true;
          Publishing.TypeCredentials (lit "https://blog.example") (lit "editor") (lit "secret");
          Publishing.ClickTest;
          Publishing.TestSettled (Some (Workflow.mkSite true)) ].
Proof.
  split; [vm_compute; eauto|].
  destruct (Publishing.run publish_twice (Publishing.initial fallback_blog)) as [p'|] eqn:Hrun;
    [|vm_compute in Hrun; discriminate Hrun].
  exact (publish_again_needs_a_successful_test publish_twice
           [Publishing.DefaultSiteLoaded (Workflow.mkSite true)]
           [ Publishing.PublishSettled false;
             Publishing.SwitchCustomSite true;
             Publishing.TypeCredentials (lit "https://blog.example") (lit "editor")
               (lit "secret");
             Publishing.ClickTest;
             Publishing.TestSettled (Some (Workflow.mkSite true)) ]
           [] _ p' Hrun eq_refl).
Defined.

Example generateMetaOnly_absorbs_a_refusal :
  generateMetaOnly JSON_parse_rejecting failing_meta_call (lit "<p>Text</p>") (lit "T") 0%nat
  = (Returned fallback_meta, 1%nat).
Proof. reflexivity. Qed.
